(** * spectrum_clean_1d: direct Fourier spectrum, CLEAN loop and clean beam

    A shallow embedding of [main.py]: the dirty spectrum and the PSF
    (lines 90-105), the CLEAN loop (lines 116-155) and the construction of
    the clean spectrum (lines 160-182).  The time series, the prompts and
    the plots around them are inputs and outputs of these three parts.

    Numbers.  Python [float] / numpy [float64] values are modelled as the
    real numbers [R] and [complex128] values as pairs of reals: the
    arithmetic below is the exact arithmetic that the floating point code
    approximates, so rounding, overflow and NaN have no counterpart here,
    and a statement "within floating point tolerance" reads as an equality.
    Python [int] values (indices, counts) are [Z].  Arrays are lists; an
    index expression is evaluated with Python's rules (a negative index
    wraps once, anything else out of range raises [IndexError]), and the
    operations of numpy raise [ValueError] where numpy does. *)

From Stdlib Require Import String Reals Lra Lia ZArith Bool List.
Import ListNotations.

(** ** Python: exceptions, indexing, ranges *)

Module Py.

Inductive exn : Type :=
| IndexError
| ValueError.

Inductive result (A : Type) : Type :=
| Ok (a : A)
| Raise (e : exn).

Arguments Ok {A} a.
Arguments Raise {A} e.

Definition bind {A B : Type} (m : result A) (k : A -> result B) : result B :=
  match m with
  | Ok a => k a
  | Raise e => Raise e
  end.

(** [len(l)] *)
Definition len {A : Type} (l : list A) : Z := Z.of_nat (length l).

(** [l[k]] *)
Definition getitem {A : Type} (l : list A) (k : Z) : result A :=
  let k' := if (k <? 0)%Z then (k + len l)%Z else k in
  if ((0 <=? k') && (k' <? len l))%Z%bool then
    match nth_error l (Z.to_nat k') with
    | Some x => Ok x
    | None => Raise IndexError
    end
  else Raise IndexError.

Fixpoint replace_nth {A : Type} (l : list A) (n : nat) (v : A) : list A :=
  match l, n with
  | [], _ => []
  | _ :: l', O => v :: l'
  | x :: l', S n' => x :: replace_nth l' n' v
  end.

(** [l[k] = v] *)
Definition setitem {A : Type} (l : list A) (k : Z) (v : A) : result (list A) :=
  let k' := if (k <? 0)%Z then (k + len l)%Z else k in
  if ((0 <=? k') && (k' <? len l))%Z%bool then Ok (replace_nth l (Z.to_nat k') v)
  else Raise IndexError.

(** [l[start:]] *)
Definition slice_from {A : Type} (l : list A) (start : Z) : list A :=
  let s := if (start <? 0)%Z then Z.max 0 (start + len l) else Z.min start (len l) in
  skipn (Z.to_nat s) l.

(** [range(lo, hi)] and [range(n)] *)
Definition range2 (lo hi : Z) : list Z :=
  map (fun i => (lo + Z.of_nat i)%Z) (seq 0 (Z.to_nat (hi - lo))).

Definition range (n : Z) : list Z := range2 0 n.

(** [enumerate(l)] *)
Definition enumerate {A : Type} (l : list A) : list (Z * A) :=
  combine (range (len l)) l.

End Py.

Export Py.

Notation "x <- m ;; k" := (Py.bind m (fun x => k))
  (at level 61, m at next level, right associativity).

(** ** Complex numbers ([complex128]) *)

Record complex : Type := mkC { real : R; imag : R }.

Module Cx.
Local Open Scope R_scope.

Definition C0 : complex := mkC 0 0.
(** the literal [1j] *)
Definition Ci : complex := mkC 0 1.
(** promotion of a float operand in a mixed operation *)
Definition RtoC (x : R) : complex := mkC x 0.

Definition Cneg (a : complex) : complex := mkC (- real a) (- imag a).
Definition Cadd (a b : complex) : complex := mkC (real a + real b) (imag a + imag b).
Definition Csub (a b : complex) : complex := mkC (real a - real b) (imag a - imag b).
Definition Cmul (a b : complex) : complex :=
  mkC (real a * real b - imag a * imag b) (real a * imag b + imag a * real b).
Definition Cdiv (a b : complex) : complex :=
  let d := real b * real b + imag b * imag b in
  mkC ((real a * real b + imag a * imag b) / d)
      ((imag a * real b - real a * imag b) / d).

(** [.real] and [.imag] of a float64 scalar *)
Definition float_real (x : R) : R := x.
Definition float_imag (x : R) : R := 0.

End Cx.

Export Cx.

(** ** The numpy functions the script calls *)

Module Np.
Local Open Scope R_scope.

(** [np.arange(lo, hi)] on integers *)
Definition arange (lo hi : Z) : list Z := Py.range2 lo hi.

(** [np.zeros_like(a, dtype='c16')] *)
Definition zeros_like {A : Type} (a : list A) : list complex :=
  map (fun _ => C0) a.

(** [np.abs] of a complex scalar *)
Definition np_abs (z : complex) : R := sqrt (real z * real z + imag z * imag z).

(** [np.exp] of a complex scalar *)
Definition np_exp (z : complex) : complex :=
  mkC (exp (real z) * cos (imag z)) (exp (real z) * sin (imag z)).

(** [np.sum] of a complex array *)
Definition np_sum (l : list complex) : complex := fold_left Cadd l C0.

(** Elementwise binary operation of two one-dimensional arrays, with
    numpy's broadcasting of an operand of length one. *)
Definition broadcast2 {A B X : Type} (f : A -> B -> X) (a : list A) (b : list B)
  : result (list X) :=
  if (length a =? length b)%nat then Ok (map (fun p => f (fst p) (snd p)) (combine a b))
  else match a, b with
       | [x], _ => Ok (map (f x) b)
       | _, [y] => Ok (map (fun x => f x y) a)
       | _, _ => Raise ValueError
       end.

(** In-place operation [a op= b]: the result keeps the shape of [a]. *)
Definition inplace2 {A B : Type} (f : A -> B -> A) (a : list A) (b : list B)
  : result (list A) :=
  if (length a =? length b)%nat then Ok (map (fun p => f (fst p) (snd p)) (combine a b))
  else match b with
       | [y] => Ok (map (fun x => f x y) a)
       | _ => Raise ValueError
       end.

(** The order of complex numbers that [argmax] uses: real parts first,
    imaginary parts on a tie. *)
Definition complex_gt (a b : complex) : bool :=
  if Rlt_dec (real b) (real a) then true
  else if Req_dec_T (real a) (real b)
       then (if Rlt_dec (imag b) (imag a) then true else false)
       else false.

Fixpoint argmax_scan (l : list complex) (i : Z) (mp : complex) (max_ind : Z) : Z :=
  match l with
  | [] => max_ind
  | x :: l' =>
      if complex_gt x mp then argmax_scan l' (i + 1)%Z x i
      else argmax_scan l' (i + 1)%Z mp max_ind
  end.

(** [np.argmax] of a complex array: the first index of a largest element *)
Definition np_argmax (l : list complex) : result Z :=
  match l with
  | [] => Raise ValueError
  | x :: l' => Ok (argmax_scan l' 1%Z x 0%Z)
  end.

Fixpoint first_true (l : list bool) (i : Z) : option Z :=
  match l with
  | [] => None
  | b :: l' => if b then Some i else first_true l' (i + 1)%Z
  end.

(** [np.argmax] of a boolean array: the first [True], 0 when there is none *)
Definition np_argmax_bool (l : list bool) : result Z :=
  match l with
  | [] => Raise ValueError
  | _ => Ok (match first_true l 0%Z with Some i => i | None => 0%Z end)
  end.

(** [(a * v)[m] = sum_i a[i] * v[m - i]], the discrete convolution *)
Definition conv_at (a v : list complex) (m : nat) : complex :=
  np_sum (map (fun i => if (i <=? m)%nat
                        then Cmul (nth i a C0) (nth (m - i) v C0)
                        else C0)
              (seq 0 (length a))).

Definition convolve_full (a v : list complex) : list complex :=
  map (conv_at a v) (seq 0 (length a + length v - 1)).

(** [np.convolve(a, v, mode='same')]: the operands are swapped when [v] is
    the longer one, and the middle [len(a)] entries of the full convolution
    are returned, starting [(len(v) - 1) // 2] entries in. *)
Definition np_convolve_same (a v : list complex) : result (list complex) :=
  let '(a, v) := if (length a <? length v)%nat then (v, a) else (a, v) in
  if (length a =? 0)%nat then Raise ValueError
  else if (length v =? 0)%nat then Raise ValueError
  else Ok (firstn (length a) (skipn ((length v - 1) / 2) (convolve_full a v))).

End Np.

Export Np.

(** ** The program *)

Module Main.
Local Open Scope R_scope.

(** *** Dirty spectrum and PSF (lines 90-105) *)

(** [np.exp(-1j * 2 * math.pi * f * times)] *)
Definition phase_of (f : R) (times : list R) : list complex :=
  map (fun t =>
         np_exp (Cmul (Cmul (Cmul (Cmul (Cneg Ci) (RtoC 2)) (RtoC PI)) (RtoC f))
                      (RtoC t)))
      times.

(** [for i, f in enumerate(freqs): amps[i] += np.sum(values * phase)] *)
Fixpoint amps_loop (times values : list R) (ifs : list (Z * R)) (amps : list complex)
  : result (list complex) :=
  match ifs with
  | [] => Ok amps
  | (i, f) :: rest =>
      let phase := phase_of f times in
      prod <- broadcast2 (fun v p => Cmul (RtoC v) p) values phase ;;
      old <- getitem amps i ;;
      amps' <- setitem amps i (Cadd old (np_sum prod)) ;;
      amps_loop times values rest amps'
  end.

(** [for i, f in enumerate(freqs_psf): psf[i] += np.sum(phase)] *)
Fixpoint psf_loop (times : list R) (ifs : list (Z * R)) (psf : list complex)
  : result (list complex) :=
  match ifs with
  | [] => Ok psf
  | (i, f) :: rest =>
      let phase := phase_of f times in
      old <- getitem psf i ;;
      psf' <- setitem psf i (Cadd old (np_sum phase)) ;;
      psf_loop times rest psf'
  end.

(** [np.arange(lo, hi) * freq_inc] *)
Definition freq_grid (lo hi : Z) (freq_inc : R) : list R :=
  map (fun k => IZR k * freq_inc) (arange lo hi).

(** [a /= times.size].  The division is the exact one of the reals.  numpy
    divides a complex entry by a real by multiplying with the rounded
    reciprocal, so a quotient such as [N / N] is 1 here and 1 up to a
    rounding in the script.  With no sample ([N = 0]) the script's entries
    are NaN, which the reals do not have: statements about the values of
    the spectra take [N >= 1]. *)
Definition div_size (a : list complex) (times : list R) : list complex :=
  map (fun z => Cdiv z (RtoC (INR (length times)))) a.

(** Lines 90-95. *)
Definition dirty_spectrum (num_freqs : Z) (freq_inc : R) (times values : list R)
  : result (list complex) :=
  let freqs := freq_grid (- num_freqs) (num_freqs + 1) freq_inc in
  let amps := zeros_like freqs in
  amps <- amps_loop times values (enumerate freqs) amps ;;
  Ok (div_size amps times).

(** Lines 100-105. *)
Definition psf_spectrum (num_freqs : Z) (freq_inc : R) (times : list R)
  : result (list complex) :=
  let freqs_psf := freq_grid (- num_freqs * 2) (num_freqs * 2 + 1) freq_inc in
  let psf := zeros_like freqs_psf in
  psf <- psf_loop times (enumerate freqs_psf) psf ;;
  Ok (div_size psf times).

(** *** The CLEAN loop (lines 116-155) *)

(** A record of the logger: the format string and its argument. *)
Inductive log_record : Type :=
| Warning (fmt : string) (arg : Z).

Record clean_state : Type := mkState {
  clean_components : list complex;
  residual : list complex;
  log : list log_record
}.

(** How an iteration of a [for] loop ends. *)
Inductive ctrl (A : Type) : Type :=
| Continue (a : A)
| Break (a : A).

Arguments Continue {A} a.
Arguments Break {A} a.

(** Lines 128-141: the magnitude of the PSF at the mirror peak, the test
    of the denominator and the amplitude of the peak; [None] is the
    [break]. *)
Definition peak_amplitude (res_amp p : complex) : option (R * R) :=
  let psf_mag := np_abs p in
  let temp := 1 - psf_mag ^ 2 in
  if Req_dec_T temp 0 then None
  else
    let aRe := real res_amp * (1 - float_real psf_mag)
               - (imag res_amp * float_imag psf_mag) in
    let aRe := aRe / temp in
    let aIm := imag res_amp * (1 + float_real psf_mag)
               - (real res_amp * float_imag psf_mag) in
    let aIm := aIm / temp in
    Some (aRe, aIm).

Section Clean.

Variable amps : list complex.
Variable psf : list complex.
Variable gain : R.

(** [freqs.size]: [amps] is made with [zeros_like(freqs)]. *)
Definition freqs_size : Z := len amps.

(** Lines 148-154: one entry of [sub]. *)
Definition sub_entry (aRe aIm : R) (w1 w2 : complex) : complex :=
  let re := aRe * (real w1 + real w2) + aIm * (imag w2 - imag w1) in
  let im := aRe * (imag w1 + imag w2) + aIm * (real w1 - real w2) in
  Cadd (RtoC re) (Cmul Ci (RtoC im)).

(** Lines 148-154: [for j in range(freqs.size): ...] *)
Fixpoint sub_loop (idx_max : Z) (aRe aIm : R) (js : list Z) (sub : list complex)
  : result (list complex) :=
  match js with
  | [] => Ok sub
  | j :: rest =>
      w1 <- getitem psf (j - idx_max + (freqs_size - 1))%Z ;;
      w2 <- getitem psf (j + idx_max)%Z ;;
      sub1 <- setitem sub j (sub_entry aRe aIm w1 w2) ;;
      x <- getitem sub1 j ;;
      sub2 <- setitem sub1 j (Cmul x (RtoC gain)) ;;
      sub_loop idx_max aRe aIm rest sub2
  end.

(** Lines 120-121: the index of the largest residual in the half of the
    non-negative frequencies. *)
Definition find_peak (residual : list complex) : result Z :=
  let c := (len amps / 2)%Z in
  k <- np_argmax (slice_from residual c) ;;
  Ok (c + k)%Z.

(** Lines 147-154: the vector [sub] of an iteration. *)
Definition sub_vector (idx_max : Z) (aRe aIm : R) (residual : list complex)
  : result (list complex) :=
  sub_loop idx_max aRe aIm (range freqs_size) (zeros_like residual).

(** The body of the loop, lines 119-155. *)
Definition clean_body (i : Z) (st : clean_state) : result (ctrl clean_state) :=
  idx_max <- find_peak (residual st) ;;
  res_amp <- getitem (residual st) idx_max ;;
  p <- getitem psf (idx_max * 2)%Z ;;
  match peak_amplitude res_amp p with
  | None =>
      Ok (Break (mkState (clean_components st) (residual st)
                   (log st ++ [Warning "EEK, divide by zero for iter = %i!" i])))
  | Some (aRe, aIm) =>
      old <- getitem (clean_components st) idx_max ;;
      comps <- setitem (clean_components st) idx_max
                 (Cadd old (Cmul (Cadd (RtoC aRe) (Cmul Ci (RtoC aIm))) (RtoC gain))) ;;
      sub <- sub_vector idx_max aRe aIm (residual st) ;;
      res <- inplace2 Csub (residual st) sub ;;
      Ok (Continue (mkState comps res (log st)))
  end.

(** [for i in range(num_iter): ...] *)
Fixpoint clean_loop (iters : list Z) (st : clean_state) : result clean_state :=
  match iters with
  | [] => Ok st
  | i :: rest =>
      r <- clean_body i st ;;
      match r with
      | Break st' => Ok st'
      | Continue st' => clean_loop rest st'
      end
  end.

(** Lines 116-155. *)
Definition clean (num_iter : Z) : result clean_state :=
  clean_loop (range num_iter) (mkState (zeros_like amps) amps []).

End Clean.

(** *** The clean spectrum (lines 160-182) *)

(** Lines 160-168: the Gaussian clean beam.  When no entry of the upper
    half of the PSF is at most 0.5, [hwhm] is 0, [sigma] is 0 and the
    script's only beam entry is [exp(-0 / 0)], a NaN, which the reals do not
    have: the length of the beam is modelled for every [hwhm], its values
    for [hwhm >= 1]. *)
Definition clean_beam_of (psf : list complex) : result (list R) :=
  let c := (len psf / 2)%Z in
  hwhm <- np_argmax_bool
            (map (fun z => if Rle_dec (np_abs z) 0.5 then true else false)
                 (slice_from psf c)) ;;
  let sigma := IZR (2 * hwhm) / 2.355 in
  let extent := (hwhm * 5)%Z in
  let x := arange (- extent) (extent + 1) in
  Ok (map (fun xi => exp (IZR (- (xi ^ 2))%Z / (2 * sigma ^ 2))) x).

(** Lines 160-182. *)
Definition clean_spectrum_of (psf clean_components residual : list complex)
  : result (list complex) :=
  clean_beam <- clean_beam_of psf ;;
  clean_spectrum <- np_convolve_same clean_components (map RtoC clean_beam) ;;
  let clean_spectrum := map (fun z => Cmul z (RtoC 2)) clean_spectrum in
  inplace2 Cadd clean_spectrum residual.

End Main.

Export Main.


(** ** The set-up of the frequency grid (lines 51-84) *)

Module Setup.
Local Open Scope R_scope.

(** [np.diff(a)] *)
Fixpoint np_diff (a : list R) : list R :=
  match a with
  | x :: (y :: _) as rest => (y - x) :: np_diff rest
  | _ => []
  end.

(** [np.mean(a)] *)
Definition np_mean (a : list R) : R := fold_left Rplus a 0 / INR (length a).

(** Sorting, for the median. *)
Fixpoint insert_sorted (x : R) (l : list R) : list R :=
  match l with
  | [] => [x]
  | y :: l' => if Rle_dec x y then x :: l else y :: insert_sorted x l'
  end.

Definition np_sort (a : list R) : list R := fold_right insert_sorted [] a.

(** [np.median(a)]: the mean of the middle entry of the sorted array, or of
    the two middle entries when their number is even. *)
Definition np_median (a : list R) : R :=
  let s := np_sort a in
  let n := length s in
  match n with
  | O => np_mean []
  | _ => if Nat.even n
         then np_mean [nth (n / 2 - 1) s 0; nth (n / 2) s 0]
         else np_mean [nth (n / 2) s 0]
  end.

(** [min(a, b)] *)
Definition py_min (a b : R) : R := if Rlt_dec b a then b else a.

(** Lines 51-56: the default of the maximum frequency. *)
Definition max_frequency_default (times : list R) : R :=
  let delta_time := np_diff times in
  let max_frequency_median := 1 / np_median delta_time in
  let max_frequency_mean := 1 / np_mean delta_time in
  py_min max_frequency_median max_frequency_mean.

(** Lines 33, 57-58: the default of the frequency increment. *)
Definition length_days : Z := 2000.
Definition over_sample : Z := 3.
Definition freq_inc_default : R := 1 / IZR (over_sample * length_days).

(** [math.ceil(x)] *)
Definition math_ceil (x : R) : Z := (- Int_part (- x))%Z.

(** The values that lines 70-84 handle: an answer to a prompt is a string,
    a default is a float, [min_frequency] is an int. *)
Inductive pyval : Type :=
| PyStr (s : string)
| PyFloat (x : R)
| PyInt (n : Z).

Inductive setup_exn : Type :=
| TypeError
| ZeroDivisionError
| SystemExit (code : Z).

Inductive outcome (A : Type) : Type :=
| Done (a : A)
| Fail (e : setup_exn).

Arguments Done {A} a.
Arguments Fail {A} e.

Definition obind {A B : Type} (m : outcome A) (k : A -> outcome B) : outcome B :=
  match m with
  | Done a => k a
  | Fail e => Fail e
  end.

(** The truth value of an object. *)
Definition truthy (v : pyval) : bool :=
  match v with
  | PyStr s => negb (String.eqb s "")
  | PyFloat x => if Req_dec_T x 0 then false else true
  | PyInt n => negb (n =? 0)%Z
  end.

(** [a or b] *)
Definition py_or (a b : pyval) : pyval := if truthy a then a else b.

(** [a - b] *)
Definition py_sub (a b : pyval) : outcome pyval :=
  match a, b with
  | PyFloat x, PyFloat y => Done (PyFloat (x - y))
  | PyFloat x, PyInt n => Done (PyFloat (x - IZR n))
  | PyInt m, PyFloat y => Done (PyFloat (IZR m - y))
  | PyInt m, PyInt n => Done (PyInt (m - n))
  | _, _ => Fail TypeError
  end.

(** [a / b]; a zero divisor, which the default increment is not, is
    Python's [ZeroDivisionError]. *)
Definition py_truediv (a b : pyval) : outcome pyval :=
  let div (x y : R) :=
    if Req_dec_T y 0 then Fail ZeroDivisionError else Done (PyFloat (x / y)) in
  match a, b with
  | PyFloat x, PyFloat y => div x y
  | PyFloat x, PyInt n => div x (IZR n)
  | PyInt m, PyFloat y => div (IZR m) y
  | PyInt m, PyInt n => div (IZR m) (IZR n)
  | _, _ => Fail TypeError
  end.

(** [math.ceil(a)] *)
Definition py_ceil (a : pyval) : outcome Z :=
  match a with
  | PyFloat x => Done (math_ceil x)
  | PyInt n => Done n
  | PyStr _ => Fail TypeError
  end.

(** [a != b] *)
Definition py_ne (a b : pyval) : bool :=
  let ne (x y : R) := if Req_dec_T x y then false else true in
  match a, b with
  | PyStr s, PyStr t => negb (String.eqb s t)
  | PyFloat x, PyFloat y => ne x y
  | PyFloat x, PyInt n => ne x (IZR n)
  | PyInt m, PyFloat y => ne (IZR m) y
  | PyInt m, PyInt n => negb (m =? n)%Z
  | _, _ => true
  end.

(** Lines 70-84.  [max_frequency] is the default of line 56; the three
    strings are the answers to the three prompts, which [input] returns.
    The result is [num_freqs]. *)
Definition frequency_setup (max_frequency : R)
           (answer_max answer_inc answer_ok : string) : outcome Z :=
  let max_frequency := py_or (PyStr answer_max) (PyFloat max_frequency) in
  let freq_inc := py_or (PyStr answer_inc) (PyFloat freq_inc_default) in
  let min_frequency := PyInt 0 in
  obind (py_sub max_frequency min_frequency) (fun freq_range =>
  obind (py_truediv freq_range freq_inc) (fun q =>
  obind (py_ceil q) (fun num_freqs =>
  let ok := py_or (PyStr answer_ok) (PyStr "y") in
  if py_ne ok (PyStr "y") then Fail (SystemExit 1) else Done num_freqs))).

End Setup.

Export Setup.

(** ** Notions used to state the properties *)

Section Notions.
Local Open Scope R_scope.

(** [a] is not below [b] in the order of [argmax]. *)
Definition complex_ge (a b : complex) : Prop :=
  real b < real a \/ (real a = real b /\ imag b <= imag a).

(** The PSF grid has twice the length of the spectrum grid minus one. *)
Definition psf_sized (amps psf : list complex) : Prop :=
  (len psf = 2 * len amps - 1)%Z.

(** Elementwise sum of two arrays of one shape, and of a list of arrays. *)
Definition vadd (a b : list complex) : list complex :=
  map (fun p => Cadd (fst p) (snd p)) (combine a b).

Definition vsum (zero : list complex) (vs : list (list complex)) : list complex :=
  fold_left vadd vs zero.

Variable amps : list complex.
Variable psf : list complex.
Variable gain : R.

(** The arrays of the loop keep the shape of [amps]. *)
Definition shaped (st : clean_state) : Prop :=
  length (clean_components st) = length amps /\ length (residual st) = length amps.

(** The entry [sub[j]] after lines 149-154. *)
Definition sub_at (idx_max : Z) (aRe aIm : R) (j : Z) : complex :=
  let w1 := nth (Z.to_nat (j - idx_max + (freqs_size amps - 1))) psf C0 in
  let w2 := nth (Z.to_nat (j + idx_max)) psf C0 in
  Cmul (sub_entry aRe aIm w1 w2) (RtoC gain).

(** The vector [sub] built by the iteration that starts in state [st];
    [None] when that iteration leaves the loop before line 147. *)
Definition iteration_sub (st : clean_state) : option (list complex) :=
  match find_peak amps (residual st) with
  | Ok idx_max =>
      match getitem (residual st) idx_max, getitem psf (idx_max * 2)%Z with
      | Ok res_amp, Ok p =>
          match peak_amplitude res_amp p with
          | Some (aRe, aIm) =>
              match sub_vector amps psf gain idx_max aRe aIm (residual st) with
              | Ok sub => Some sub
              | Raise _ => None
              end
          | None => None
          end
      | _, _ => None
      end
  | Raise _ => None
  end.

(** The state after the iterations [iters], when each of them ran to its
    end (no [break], no exception). *)
Fixpoint completed (iters : list Z) (st : clean_state) : option clean_state :=
  match iters with
  | [] => Some st
  | i :: rest =>
      match clean_body amps psf gain i st with
      | Ok (Continue st') => completed rest st'
      | _ => None
      end
  end.

(** The vectors [sub] of the iterations of a run that ran to their end. *)
Fixpoint subs_of_run (iters : list Z) (st : clean_state) : list (list complex) :=
  match iters with
  | [] => []
  | i :: rest =>
      match clean_body amps psf gain i st, iteration_sub st with
      | Ok (Continue st'), Some sub => sub :: subs_of_run rest st'
      | _, _ => []
      end
  end.

End Notions.

(** The sum of the weighted phase factors of a frequency, the value that
    line 94 adds to an entry of [amps]. *)
Definition weighted_sum (times values : list R) (f : R) : complex :=
  np_sum (map (fun p => Cmul (RtoC (fst p)) (snd p)) (combine values (phase_of f times))).

(** The specification's formulas, written as the specification has them. *)

Section SpecFormulas.
Local Open Scope R_scope.

(** [exp(i * theta)] *)
Definition expi (theta : R) : complex := mkC (cos theta) (sin theta).

(** [S[f] = (1/N) * sum_n V[n] * exp(-2 pi i f T[n])] *)
Definition fourier_sum (T V : list R) (f : R) : complex :=
  let N := length T in
  let terms :=
    map (fun n => Cmul (RtoC (nth n V 0)) (expi (- (2 * PI * f * nth n T 0))))
        (seq 0 N) in
  Cmul (RtoC (1 / INR N)) (fold_right Cadd C0 terms).

(** Step 4 of the CLEAN procedure with the coupling as a complex value:
    [aRe = (res.re (1 - psf.re) - res.im psf.im) / temp] and
    [aIm = (res.im (1 + psf.re) - res.re psf.im) / temp],
    [temp = 1 - |psf|^2]. *)
Definition spec_peak_amplitude (res_amp psf_coupling : complex) : R * R :=
  let temp := 1 - np_abs psf_coupling ^ 2 in
  ((real res_amp * (1 - real psf_coupling) - imag res_amp * imag psf_coupling) / temp,
   (imag res_amp * (1 + real psf_coupling) - real res_amp * imag psf_coupling) / temp).

End SpecFormulas.

(** ** Further notions: conjugates and Hermitian arrays *)

Section MoreNotions.
Local Open Scope R_scope.

(** The complex conjugate. *)
Definition Cconj (a : complex) : complex := mkC (real a) (- imag a).

(** An array over a grid that is symmetric about zero is Hermitian when
    the entry of [-f] is the conjugate of the entry of [f]. *)
Definition hermitian (a : list complex) : Prop :=
  forall i : nat, (i < length a)%nat ->
                  nth (length a - 1 - i) a C0 = Cconj (nth i a C0).

(** The start of a run of the loop. *)
Definition clean_init (amps : list complex) : clean_state :=
  mkState (zeros_like amps) amps [].

(** Four samples, taken at the times 0, 1/4, 3/8 and 7/8, for the concrete
    runs: their spectrum on the grid of spacing 1 has rational entries. *)
Definition four_times : list R := [0; 1 / 4; 3 / 8; 7 / 8].
Definition four_values : list R := [1; 0; -1; -1].

End MoreNotions.

Section BeamNotions.
Local Open Scope R_scope.

(** The clean beam of a half width [hwhm >= 1], lines 164-168.  (For
    [hwhm = 0] the script's beam is one NaN; see [clean_beam_of].) *)
Definition beam_of_hwhm (hwhm : Z) : list R :=
  let sigma := IZR (2 * hwhm) / 2.355 in
  let extent := (hwhm * 5)%Z in
  map (fun xi => exp (IZR (- (xi ^ 2))%Z / (2 * sigma ^ 2)))
      (arange (- extent) (extent + 1)).

End BeamNotions.

(** * Properties *)

(** ** Indexing *)

Section IndexFacts.
Context {A : Type}.
Implicit Types (l : list A) (k : Z) (n : nat).

Lemma length_replace_nth l n (v : A) : length (replace_nth l n v) = length l.
Proof.
  revert n; induction l as [|x l IH]; intros [|n]; simpl; auto.
Qed.

Lemma nth_replace_nth l n m (v d : A) :
  (n < length l)%nat ->
  nth m (replace_nth l n v) d = if (m =? n)%nat then v else nth m l d.
Proof.
  revert n m; induction l as [|x l IH]; intros n m Hn; simpl in Hn; [lia|].
  destruct n as [|n], m as [|m]; simpl; auto.
  apply IH; lia.
Qed.

Lemma getitem_in_range l k (d : A) :
  (0 <= k < len l)%Z -> getitem l k = Ok (nth (Z.to_nat k) l d).
Proof.
  intros Hk. unfold getitem.
  destruct (Z.ltb_spec k 0); [lia|].
  destruct (Z.leb_spec 0 k); [|lia].
  destruct (Z.ltb_spec k (len l)); [|lia]. simpl.
  unfold len in Hk.
  rewrite (nth_error_nth' l d) by lia. reflexivity.
Qed.

Lemma setitem_in_range l k (v : A) :
  (0 <= k < len l)%Z -> setitem l k v = Ok (replace_nth l (Z.to_nat k) v).
Proof.
  intros Hk. unfold setitem.
  destruct (Z.ltb_spec k 0); [lia|].
  destruct (Z.leb_spec 0 k); [|lia].
  destruct (Z.ltb_spec k (len l)); [|lia]. reflexivity.
Qed.

Lemma slice_from_skipn l k :
  (0 <= k <= len l)%Z -> slice_from l k = skipn (Z.to_nat k) l.
Proof.
  intros Hk. unfold slice_from.
  destruct (Z.ltb_spec k 0); [lia|].
  rewrite Z.min_l by lia. reflexivity.
Qed.

End IndexFacts.

Lemma range_length n : length (range n) = Z.to_nat n.
Proof. unfold range, range2. rewrite length_map, length_seq. f_equal; lia. Qed.

Lemma range_of_nat n : range (Z.of_nat n) = map Z.of_nat (seq 0 n).
Proof.
  unfold range, range2. rewrite Z.sub_0_r, Nat2Z.id. reflexivity.
Qed.

Lemma zeros_like_length {A : Type} (a : list A) : length (zeros_like a) = length a.
Proof. apply length_map. Qed.

(** ** The peak search *)

Section Argmax.
Local Open Scope R_scope.

Lemma complex_ge_refl a : complex_ge a a.
Proof. right; split; [reflexivity | lra]. Qed.

Lemma complex_ge_trans a b c : complex_ge a b -> complex_ge b c -> complex_ge a c.
Proof. unfold complex_ge; intros [H1|[H1 H1']] [H2|[H2 H2']]; lra. Qed.

Lemma complex_gt_true a b : complex_gt a b = true -> complex_ge a b.
Proof.
  unfold complex_gt, complex_ge.
  destruct (Rlt_dec (real b) (real a)); [auto|].
  destruct (Req_dec_T (real a) (real b)); [|discriminate].
  destruct (Rlt_dec (imag b) (imag a)); [|discriminate].
  intros _; right; split; [assumption | lra].
Qed.

Lemma complex_gt_false a b : complex_gt a b = false -> complex_ge b a.
Proof.
  unfold complex_gt, complex_ge.
  destruct (Rlt_dec (real b) (real a)); [discriminate|].
  destruct (Req_dec_T (real a) (real b)).
  - destruct (Rlt_dec (imag b) (imag a)); [discriminate|].
    intros _; right; split; [auto | lra].
  - intros _; left; lra.
Qed.

Lemma complex_ge_real a b : complex_ge a b -> real b <= real a.
Proof. unfold complex_ge; lra. Qed.

(** The scan returns a position of [mp :: l] (shifted by the start [i])
    whose element is not below any other. *)
Lemma argmax_scan_spec (l : list complex) :
  forall (i : Z) (mp : complex) (max_ind : Z) (seen : list complex),
    i = len seen ->
    (0 <= max_ind < i)%Z ->
    nth (Z.to_nat max_ind) seen C0 = mp ->
    (forall x, In x seen -> complex_ge mp x) ->
    let r := argmax_scan l i mp max_ind in
    (0 <= r < i + len l)%Z /\
    (forall x, In x (seen ++ l) -> complex_ge (nth (Z.to_nat r) (seen ++ l) C0) x).
Proof.
  induction l as [|y l IH]; intros i mp max_ind seen Hi Hm Hnth Hmax; simpl.
  - unfold len; simpl. rewrite app_nil_r. split; [lia|].
    rewrite Hnth. assumption.
  - assert (Hlen : len (seen ++ [y]) = (i + 1)%Z).
    { unfold len in *. rewrite length_app; simpl. lia. }
    assert (Happ : seen ++ y :: l = (seen ++ [y]) ++ l).
    { rewrite <- app_assoc. reflexivity. }
    destruct (complex_gt y mp) eqn:Hgt.
    + destruct (IH (i + 1)%Z y i (seen ++ [y])) as [Hr Hr'].
      * symmetry; assumption.
      * lia.
      * rewrite app_nth2 by (unfold len in Hi; lia).
        replace (Z.to_nat i - length seen)%nat with 0%nat by (unfold len in Hi; lia).
        reflexivity.
      * intros x Hx. apply in_app_or in Hx. destruct Hx as [Hx|[Hx|[]]].
        -- apply complex_ge_trans with mp; auto using complex_gt_true.
        -- subst x. apply complex_ge_refl.
      * rewrite Happ. split; [|exact Hr'].
        unfold len in *; simpl; lia.
    + destruct (IH (i + 1)%Z mp max_ind (seen ++ [y])) as [Hr Hr'].
      * symmetry; assumption.
      * lia.
      * rewrite app_nth1 by (unfold len in Hi; lia). assumption.
      * intros x Hx. apply in_app_or in Hx. destruct Hx as [Hx|[Hx|[]]].
        -- auto.
        -- subst x. apply complex_gt_false; assumption.
      * rewrite Happ. split; [|exact Hr'].
        unfold len in *; simpl; lia.
Qed.

Lemma np_argmax_spec (l : list complex) :
  l <> [] ->
  exists k, np_argmax l = Ok k /\ (0 <= k < len l)%Z /\
            forall x, In x l -> complex_ge (nth (Z.to_nat k) l C0) x.
Proof.
  destruct l as [|x l]; [congruence|]. intros _.
  eexists; split; [reflexivity|].
  destruct (argmax_scan_spec l 1%Z x 0%Z [x]) as [Hr Hr'];
    try reflexivity; try lia.
  - intros y [Hy|[]]. subst; apply complex_ge_refl.
  - split; [|exact Hr']. unfold len in *; simpl length. lia.
Qed.

End Argmax.

(** ** Complex arithmetic and vectors *)

Section ComplexFacts.
Local Open Scope R_scope.

Lemma complex_eq (a b : complex) : real a = real b -> imag a = imag b -> a = b.
Proof. destruct a, b; simpl; intros -> ->; reflexivity. Qed.

Lemma Cadd_C0_l a : Cadd C0 a = a.
Proof. apply complex_eq; simpl; ring. Qed.

Lemma Cadd_C0_r a : Cadd a C0 = a.
Proof. apply complex_eq; simpl; ring. Qed.

Lemma Cadd_comm a b : Cadd a b = Cadd b a.
Proof. apply complex_eq; simpl; ring. Qed.

Lemma Cadd_assoc a b c : Cadd a (Cadd b c) = Cadd (Cadd a b) c.
Proof. apply complex_eq; simpl; ring. Qed.

Lemma Csub_C0_r a : Csub a C0 = a.
Proof. apply complex_eq; simpl; ring. Qed.

Lemma Cmul_zero_r a : Cmul a (RtoC 0) = C0.
Proof. apply complex_eq; simpl; ring. Qed.

Lemma Cmul_one_l a : Cmul (RtoC 1) a = a.
Proof. apply complex_eq; simpl; ring. Qed.

(** [re + 1j * im] is the complex number with these two parts. *)
Lemma complex_of_parts (re im : R) : Cadd (RtoC re) (Cmul Ci (RtoC im)) = mkC re im.
Proof. apply complex_eq; simpl; ring. Qed.

Lemma Csub_Cadd_cancel r s a : Cadd (Csub r s) (Cadd a s) = Cadd r a.
Proof. apply complex_eq; simpl; ring. Qed.

Lemma np_abs_nonneg z : 0 <= np_abs z.
Proof. apply sqrt_pos. Qed.

Lemma np_abs_sqr z : np_abs z ^ 2 = real z * real z + imag z * imag z.
Proof. unfold np_abs. apply pow2_sqrt. nra. Qed.

Lemma np_abs_real_nonneg x : 0 <= x -> np_abs (mkC x 0) = x.
Proof.
  intros Hx. unfold np_abs; simpl.
  replace (x * x + 0 * 0) with (x * x) by ring. apply sqrt_square; assumption.
Qed.

Lemma np_abs_imag_nonneg y : 0 <= y -> np_abs (mkC 0 y) = y.
Proof.
  intros Hy. unfold np_abs; simpl.
  replace (0 * 0 + y * y) with (y * y) by ring. apply sqrt_square; assumption.
Qed.

(** The amplitude when the denominator is not zero. *)
Lemma peak_amplitude_nonzero (res_amp p : complex) :
  1 - np_abs p ^ 2 <> 0 ->
  peak_amplitude res_amp p
  = Some (real res_amp / (1 + np_abs p), imag res_amp / (1 - np_abs p)).
Proof.
  intros Htemp.
  unfold peak_amplitude, float_real, float_imag.
  destruct (Req_dec_T (1 - np_abs p ^ 2) 0) as [E|_]; [contradiction|].
  pose proof (np_abs_nonneg p) as Hm.
  assert (H1 : 1 + np_abs p <> 0) by lra.
  assert (H2 : 1 - np_abs p <> 0).
  { intros E. apply Htemp. replace (np_abs p) with 1 by lra. ring. }
  f_equal. f_equal; field; auto.
Qed.

Lemma peak_amplitude_zero (res_amp p : complex) :
  1 - np_abs p ^ 2 = 0 -> peak_amplitude res_amp p = None.
Proof.
  intros Htemp. unfold peak_amplitude.
  destruct (Req_dec_T (1 - np_abs p ^ 2) 0) as [_|N]; [reflexivity | contradiction].
Qed.

Lemma complex_gt_real_lt a b : real b < real a -> complex_gt a b = true.
Proof. intros H. unfold complex_gt. destruct (Rlt_dec (real b) (real a)); tauto. Qed.

Lemma complex_gt_real_gt a b : real a < real b -> complex_gt a b = false.
Proof.
  intros H. unfold complex_gt.
  destruct (Rlt_dec (real b) (real a)); [lra|].
  destruct (Req_dec_T (real a) (real b)); [lra | reflexivity].
Qed.

Lemma vadd_length a b : length b = length a -> length (vadd a b) = length a.
Proof.
  intros H. unfold vadd. rewrite length_map, length_combine, H. apply Nat.min_id.
Qed.

Lemma vadd_zeros_r (a : list complex) : vadd a (zeros_like a) = a.
Proof.
  unfold vadd, zeros_like. induction a as [|x a IH]; simpl; [reflexivity|].
  rewrite Cadd_C0_r. f_equal. exact IH.
Qed.

Lemma vsub_vadd_cancel (r s a : list complex) :
  length s = length r -> length a = length r ->
  vadd (map (fun p => Csub (fst p) (snd p)) (combine r s)) (vadd a s) = vadd r a.
Proof.
  unfold vadd. revert s a.
  induction r as [|x r IH]; intros [|y s] [|z a] Hs Ha; simpl in *;
    try reflexivity; try discriminate.
  rewrite Csub_Cadd_cancel. f_equal. apply IH; lia.
Qed.

Lemma vsub_zeros (r s : list complex) :
  length s = length r -> Forall (fun z => z = C0) s ->
  map (fun p => Csub (fst p) (snd p)) (combine r s) = r.
Proof.
  revert s. induction r as [|x r IH]; intros [|y s] Hlen Hz; simpl in *;
    try reflexivity; try discriminate.
  inversion Hz; subst. rewrite Csub_C0_r. f_equal. apply IH; [lia | assumption].
Qed.

Lemma zeros_like_Forall {A : Type} (a : list A) : Forall (fun z => z = C0) (zeros_like a).
Proof. unfold zeros_like. induction a; simpl; constructor; auto. Qed.

Lemma Forall_C0_eq (s t : list complex) :
  length s = length t ->
  Forall (fun z => z = C0) s -> Forall (fun z => z = C0) t -> s = t.
Proof.
  revert t. induction s as [|x s IH]; intros [|y t] Hlen Hs Ht; simpl in *;
    try reflexivity; try discriminate.
  inversion Hs; inversion Ht; subst. f_equal. apply IH; auto.
Qed.

Lemma replace_nth_C0 (s : list complex) (n : nat) :
  Forall (fun z => z = C0) s -> Forall (fun z => z = C0) (replace_nth s n C0).
Proof.
  revert n. induction s as [|x s IH]; intros [|n] Hs; simpl; auto;
    inversion Hs; subst; constructor; auto.
Qed.

End ComplexFacts.

(** Evaluation of concrete runs: the indices are computed, the entries of
    the arrays are compared as real numbers. *)
Ltac eval_indices :=
  repeat match goal with
    | |- context [Z.to_nat ?z] =>
        let v := eval vm_compute in (Z.to_nat z) in change (Z.to_nat z) with v
    end.

Ltac complex_list_eq :=
  repeat (apply (f_equal2 (@cons complex)); [apply complex_eq; simpl; lra|]);
  reflexivity.

(** ** The model of Python and numpy on small inputs *)

Section Examples.
Local Open Scope R_scope.

Example getitem_last : getitem [1; 2; 3] (-1)%Z = Ok 3.
Proof. reflexivity. Qed.

Example getitem_past_end : getitem [1; 2; 3] 3%Z = Raise IndexError.
Proof. reflexivity. Qed.

Example getitem_before_start : getitem [1; 2; 3] (-4)%Z = Raise IndexError.
Proof. reflexivity. Qed.

Example slice_from_middle : slice_from [1; 2; 3; 4; 5] (5 / 2)%Z = [3; 4; 5].
Proof. reflexivity. Qed.

Example range_3 : range 3 = [0; 1; 2]%Z.
Proof. reflexivity. Qed.

Example arange_symmetric : arange (-2) (2 + 1) = [-2; -1; 0; 1; 2]%Z.
Proof. reflexivity. Qed.

(** [np.convolve([1, 2, 3], [0, 1, 0.5], 'same')] is [[1, 2.5, 4]]. *)
Example np_convolve_same_middle :
  np_convolve_same (map RtoC [1; 2; 3]) (map RtoC [0; 1; 0.5])
  = Ok (map RtoC [1; 2.5; 4]).
Proof. cbn. f_equal. complex_list_eq. Qed.

(** [np.convolve([1], [1, 2, 3], 'same')] is [[1, 2, 3]]. *)
Example np_convolve_same_short_first :
  np_convolve_same (map RtoC [1]) (map RtoC [1; 2; 3]) = Ok (map RtoC [1; 2; 3]).
Proof. cbn. f_equal. complex_list_eq. Qed.

(** [np.argmax] takes the first of two equal largest entries and compares
    imaginary parts when the real parts agree. *)
Example np_argmax_first_of_equal :
  np_argmax [mkC 1 0; mkC 2 0; mkC 2 0] = Ok 1%Z.
Proof.
  cbn [np_argmax argmax_scan].
  rewrite complex_gt_real_lt by (simpl; lra).
  unfold complex_gt.
  destruct (Rlt_dec (real (mkC 2 0)) (real (mkC 2 0))) as [H|_]; [simpl in H; lra|].
  destruct (Req_dec_T (real (mkC 2 0)) (real (mkC 2 0))) as [_|H]; [|congruence].
  destruct (Rlt_dec (imag (mkC 2 0)) (imag (mkC 2 0))) as [H|_]; [simpl in H; lra|].
  reflexivity.
Qed.

Example np_argmax_bool_none : np_argmax_bool [false; false; false] = Ok 0%Z.
Proof. reflexivity. Qed.

Example np_argmax_bool_first : np_argmax_bool [false; true; true] = Ok 1%Z.
Proof. reflexivity. Qed.

End Examples.

(** ** The CLEAN loop: shapes and the closed form of an iteration *)

Section CleanFacts.
Local Open Scope R_scope.

Variable amps : list complex.
Variable psf : list complex.
Variable gain : R.

Lemma replace_nth_middle {A : Type} (pre rest : list A) (x v : A) :
  replace_nth (pre ++ x :: rest) (length pre) v = pre ++ v :: rest.
Proof. induction pre as [|y pre IH]; simpl; [reflexivity | now rewrite IH]. Qed.

(** The loop over [j] fills [sub] from the left; the entries it has not
    reached yet are irrelevant. *)
Lemma sub_loop_fill (idx_max : Z) (aRe aIm : R) :
  psf_sized amps psf ->
  (0 <= idx_max < len amps)%Z ->
  forall (n k : nat) (pre rest : list complex),
    length pre = k -> length rest = n -> (k + n = length amps)%nat ->
    sub_loop amps psf gain idx_max aRe aIm (map Z.of_nat (seq k n)) (pre ++ rest)
    = Ok (pre ++ map (sub_at amps psf gain idx_max aRe aIm) (map Z.of_nat (seq k n))).
Proof.
  intros Hsz Hidx. unfold psf_sized in Hsz.
  induction n as [|n IH]; intros k pre rest Hk Hn Hkn.
  - destruct rest; [|discriminate]. reflexivity.
  - destruct rest as [|x rest]; [discriminate|]. simpl in Hn. subst k.
    cbn [seq map sub_loop].
    unfold freqs_size. unfold len in *.
    rewrite (getitem_in_range psf _ C0) by (unfold len; lia).
    rewrite (getitem_in_range psf _ C0) by (unfold len; lia).
    cbn [bind].
    rewrite setitem_in_range by (unfold len; rewrite length_app; simpl; lia).
    cbn [bind]. rewrite Nat2Z.id, replace_nth_middle.
    rewrite (getitem_in_range _ _ C0) by (unfold len; rewrite length_app; simpl; lia).
    cbn [bind]. rewrite Nat2Z.id, nth_middle.
    rewrite setitem_in_range by (unfold len; rewrite length_app; simpl; lia).
    cbn [bind]. rewrite Nat2Z.id, replace_nth_middle.
    match goal with
    | |- sub_loop _ _ _ _ _ _ _ (pre ++ ?v :: rest) = _ =>
        replace (pre ++ v :: rest) with ((pre ++ [v]) ++ rest)
          by (rewrite <- app_assoc; reflexivity);
        rewrite (IH (S (length pre)) (pre ++ [v]) rest)
          by (try rewrite length_app; simpl; lia)
    end.
    rewrite <- app_assoc. reflexivity.
Qed.

Lemma sub_vector_closed (idx_max : Z) (aRe aIm : R) (res : list complex) :
  psf_sized amps psf ->
  (0 <= idx_max < len amps)%Z ->
  length res = length amps ->
  sub_vector amps psf gain idx_max aRe aIm res
  = Ok (map (sub_at amps psf gain idx_max aRe aIm) (range (len amps))).
Proof.
  intros Hsz Hidx Hres. unfold sub_vector, freqs_size, len.
  rewrite range_of_nat.
  apply (sub_loop_fill idx_max aRe aIm Hsz Hidx (length amps) 0 [] (zeros_like res)).
  - reflexivity.
  - rewrite zeros_like_length. assumption.
  - reflexivity.
Qed.

Lemma inplace2_same_length {A B : Type} (f : A -> B -> A) (a : list A) (b : list B) :
  length a = length b ->
  inplace2 f a b = Ok (map (fun p => f (fst p) (snd p)) (combine a b)).
Proof.
  intros H. unfold inplace2. rewrite H, Nat.eqb_refl. reflexivity.
Qed.

(** The peak lies in the upper half of the residual. *)
Lemma find_peak_spec (res : list complex) :
  (len amps / 2 < len res)%Z ->
  exists idx_max,
    find_peak amps res = Ok idx_max /\
    (len amps / 2 <= idx_max < len res)%Z /\
    forall j, (len amps / 2 <= j < len res)%Z ->
              complex_ge (nth (Z.to_nat idx_max) res C0) (nth (Z.to_nat j) res C0).
Proof.
  intros Hc. unfold find_peak.
  assert (Hc0 : (0 <= len amps / 2)%Z) by (apply Z.div_pos; unfold len; lia).
  rewrite slice_from_skipn by lia.
  remember (len amps / 2)%Z as cz eqn:Ecz.
  remember (Z.to_nat cz) as c eqn:Ec.
  assert (Hlen : length (skipn c res) = (length res - c)%nat) by apply length_skipn.
  unfold len in Hc.
  destruct (np_argmax_spec (skipn c res)) as (k & Hk & Hrange & Hmax).
  { intros E. rewrite E in Hlen. simpl in Hlen. lia. }
  rewrite Hk. cbn [bind]. eexists; split; [reflexivity|].
  unfold len in *. split; [lia|].
  intros j Hj.
  replace (Z.to_nat (cz + k)) with (c + Z.to_nat k)%nat by lia.
  replace (Z.to_nat j) with (c + (Z.to_nat j - c))%nat by lia.
  rewrite <- !nth_skipn. apply Hmax. apply nth_In. lia.
Qed.

Lemma psf_sized_nonempty : psf_sized amps psf -> (1 <= len amps)%Z.
Proof. unfold psf_sized, len. lia. Qed.

(** One iteration in closed form: with arrays of the right shapes every
    lookup succeeds, and the iteration either breaks, leaving the arrays
    as they are, or subtracts the vector of the entries [sub_at]. *)
Lemma clean_body_closed (i : Z) (st : clean_state) :
  psf_sized amps psf -> shaped amps st ->
  exists idx_max,
    find_peak amps (residual st) = Ok idx_max /\
    (len amps / 2 <= idx_max < len amps)%Z /\
    getitem (residual st) idx_max = Ok (nth (Z.to_nat idx_max) (residual st) C0) /\
    getitem psf (idx_max * 2)%Z = Ok (nth (Z.to_nat (idx_max * 2)) psf C0) /\
    match peak_amplitude (nth (Z.to_nat idx_max) (residual st) C0)
                         (nth (Z.to_nat (idx_max * 2)) psf C0) with
    | None =>
        clean_body amps psf gain i st
        = Ok (Break (mkState (clean_components st) (residual st)
                       (log st ++ [Warning "EEK, divide by zero for iter = %i!" i])))
        /\ iteration_sub amps psf gain st = None
    | Some (aRe, aIm) =>
        let sub := map (sub_at amps psf gain idx_max aRe aIm) (range (len amps)) in
        clean_body amps psf gain i st
        = Ok (Continue
                (mkState
                   (replace_nth (clean_components st) (Z.to_nat idx_max)
                      (Cadd (nth (Z.to_nat idx_max) (clean_components st) C0)
                         (Cmul (Cadd (RtoC aRe) (Cmul Ci (RtoC aIm))) (RtoC gain))))
                   (map (fun p => Csub (fst p) (snd p)) (combine (residual st) sub))
                   (log st)))
        /\ iteration_sub amps psf gain st = Some sub
    end.
Proof.
  intros Hsz [Hc Hr].
  pose proof (psf_sized_nonempty Hsz) as HM.
  assert (Hhalf : (0 <= len amps / 2 < len amps)%Z).
  { split; [apply Z.div_pos; lia | apply Z.div_lt_upper_bound; lia]. }
  destruct (find_peak_spec (residual st)) as (idx_max & Hfp & Hidx & _).
  { unfold len in *. rewrite Hr. lia. }
  assert (Hidx' : (len amps / 2 <= idx_max < len amps)%Z).
  { unfold len in *. rewrite Hr in Hidx. exact Hidx. }
  exists idx_max. split; [exact Hfp|]. split; [exact Hidx'|].
  assert (Hg1 : getitem (residual st) idx_max
                = Ok (nth (Z.to_nat idx_max) (residual st) C0)).
  { apply getitem_in_range. unfold len in *. lia. }
  assert (Hg2 : getitem psf (idx_max * 2)%Z
                = Ok (nth (Z.to_nat (idx_max * 2)) psf C0)).
  { apply getitem_in_range. unfold psf_sized, len in *. lia. }
  split; [exact Hg1|]. split; [exact Hg2|].
  unfold clean_body, iteration_sub. rewrite Hfp. cbn [bind].
  rewrite Hg1, Hg2. cbn [bind].
  destruct (peak_amplitude _ _) as [[aRe aIm]|]; [|split; reflexivity].
  rewrite (getitem_in_range (clean_components st) _ C0) by (unfold len in *; lia).
  cbn [bind].
  rewrite setitem_in_range by (unfold len in *; lia). cbn [bind].
  rewrite sub_vector_closed by (try assumption; lia). cbn [bind].
  rewrite inplace2_same_length
    by (rewrite length_map, range_length; unfold len; lia).
  cbn [bind]. split; reflexivity.
Qed.

(** An iteration keeps the shapes and the log, unless it breaks. *)
Lemma clean_body_continue_shaped (i : Z) (st st' : clean_state) :
  psf_sized amps psf -> shaped amps st ->
  clean_body amps psf gain i st = Ok (Continue st') ->
  shaped amps st' /\ log st' = log st.
Proof.
  intros Hsz Hsh Hb.
  destruct (clean_body_closed i st Hsz Hsh) as (idx & _ & _ & _ & _ & Hcase).
  destruct Hsh as [Hc Hr].
  destruct (peak_amplitude _ _) as [[aRe aIm]|].
  - destruct Hcase as [Hcase _]. rewrite Hcase in Hb. inversion Hb; subst st'.
    unfold shaped; simpl. rewrite length_replace_nth, length_map, length_combine.
    rewrite length_map, range_length. unfold len. repeat split; auto; lia.
  - destruct Hcase as [Hcase _]. rewrite Hcase in Hb. discriminate.
Qed.

(** With arrays of the right shapes the loop raises no exception. *)
Lemma clean_loop_total (iters : list Z) :
  psf_sized amps psf ->
  forall st, shaped amps st ->
  exists st', clean_loop amps psf gain iters st = Ok st' /\ shaped amps st'.
Proof.
  intros Hsz. induction iters as [|i rest IH]; intros st Hsh.
  - exists st. split; [reflexivity | assumption].
  - destruct (clean_body_closed i st Hsz Hsh) as (idx & _ & _ & _ & _ & Hcase).
    cbn [clean_loop].
    destruct (peak_amplitude _ _) as [[aRe aIm]|].
    + destruct Hcase as [Hcase _].
      destruct (clean_body_continue_shaped i st _ Hsz Hsh Hcase) as [Hsh' _].
      rewrite Hcase. cbn [bind]. apply IH. exact Hsh'.
    + destruct Hcase as [Hcase _]. rewrite Hcase. cbn [bind].
      eexists; split; [reflexivity|]. exact Hsh.
Qed.

(** The two outcomes of an iteration whose peak is known. *)
Lemma clean_body_continue_at (i : Z) (st : clean_state) (idx_max : Z) (aRe aIm : R) :
  psf_sized amps psf -> shaped amps st ->
  find_peak amps (residual st) = Ok idx_max ->
  peak_amplitude (nth (Z.to_nat idx_max) (residual st) C0)
                 (nth (Z.to_nat (idx_max * 2)) psf C0) = Some (aRe, aIm) ->
  let sub := map (sub_at amps psf gain idx_max aRe aIm) (range (len amps)) in
  clean_body amps psf gain i st
  = Ok (Continue
          (mkState
             (replace_nth (clean_components st) (Z.to_nat idx_max)
                (Cadd (nth (Z.to_nat idx_max) (clean_components st) C0)
                   (Cmul (Cadd (RtoC aRe) (Cmul Ci (RtoC aIm))) (RtoC gain))))
             (map (fun p => Csub (fst p) (snd p)) (combine (residual st) sub))
             (log st)))
  /\ iteration_sub amps psf gain st = Some sub.
Proof.
  intros Hsz Hsh Hfp Hpa.
  destruct (clean_body_closed i st Hsz Hsh) as (idx & Hfp' & _ & _ & _ & Hcase).
  rewrite Hfp in Hfp'. inversion Hfp'; subst idx.
  rewrite Hpa in Hcase. exact Hcase.
Qed.

Lemma clean_body_break_at (i : Z) (st : clean_state) (idx_max : Z) :
  psf_sized amps psf -> shaped amps st ->
  find_peak amps (residual st) = Ok idx_max ->
  peak_amplitude (nth (Z.to_nat idx_max) (residual st) C0)
                 (nth (Z.to_nat (idx_max * 2)) psf C0) = None ->
  clean_body amps psf gain i st
  = Ok (Break (mkState (clean_components st) (residual st)
                 (log st ++ [Warning "EEK, divide by zero for iter = %i!" i]))).
Proof.
  intros Hsz Hsh Hfp Hpa.
  destruct (clean_body_closed i st Hsz Hsh) as (idx & Hfp' & _ & _ & _ & Hcase).
  rewrite Hfp in Hfp'. inversion Hfp'; subst idx.
  rewrite Hpa in Hcase. apply Hcase.
Qed.

Lemma init_shaped : shaped amps (mkState (zeros_like amps) amps []).
Proof. split; simpl; [apply zeros_like_length | reflexivity]. Qed.

End CleanFacts.

(** ** The CLEAN loop: the peak, the indices, the accounts *)

Section CleanClaims.
Local Open Scope R_scope.

(** C9.  The peak search of an iteration (lines 120-121) returns an index
    [idx_max] of the upper half of the residual, [c <= idx_max] with
    [c = len(amps) // 2], at which the real part of the residual is largest
    over that half.  The hypothesis says that the half is not empty, which
    holds in every iteration since the residual has the shape of [amps]. *)
Theorem find_peak_max_real (amps res : list complex) :
  (len amps / 2 < len res)%Z ->
  exists idx_max,
    find_peak amps res = Ok idx_max /\
    (len amps / 2 <= idx_max < len res)%Z /\
    forall j, (len amps / 2 <= j < len res)%Z ->
              real (nth (Z.to_nat j) res C0) <= real (nth (Z.to_nat idx_max) res C0).
Proof.
  intros Hc.
  destruct (find_peak_spec amps res Hc) as (idx_max & Hfp & Hidx & Hmax).
  exists idx_max. repeat split; try assumption; try lia.
  intros j Hj. apply complex_ge_real. apply Hmax. exact Hj.
Qed.

Lemma find_peak_max_real_witness :
  exists idx_max,
    find_peak [C0; mkC 1 0; mkC 2 0] [C0; mkC 1 0; mkC 2 0] = Ok idx_max /\
    (len [C0; mkC 1 0; mkC 2 0] / 2 <= idx_max < len [C0; mkC 1 0; mkC 2 0])%Z /\
    forall j, (len [C0; mkC 1 0; mkC 2 0] / 2 <= j < len [C0; mkC 1 0; mkC 2 0])%Z ->
              real (nth (Z.to_nat j) [C0; mkC 1 0; mkC 2 0] C0)
              <= real (nth (Z.to_nat idx_max) [C0; mkC 1 0; mkC 2 0] C0).
Proof.
  apply (find_peak_max_real [C0; mkC 1 0; mkC 2 0] [C0; mkC 1 0; mkC 2 0]).
  reflexivity.
Defined.

(** C6.  With a PSF of length [2 M - 1], [M] the length of the spectrum,
    the three index expressions of the loop, [idx_max * 2],
    [j - idx_max + (freqs.size - 1)] and [j + idx_max], lie in
    [0 .. 2 M - 2] for every [j] of the spectrum and every [idx_max] of its
    upper half, the three lookups succeed, and a run of the loop raises no
    exception. *)
Theorem clean_indices_in_bounds (amps psf : list complex) :
  psf_sized amps psf ->
  (forall idx_max j : Z,
      (len amps / 2 <= idx_max < len amps)%Z -> (0 <= j < len amps)%Z ->
      (0 <= idx_max * 2 <= 2 * len amps - 2)%Z /\
      (0 <= j - idx_max + (freqs_size amps - 1) <= 2 * len amps - 2)%Z /\
      (0 <= j + idx_max <= 2 * len amps - 2)%Z /\
      exists pc w1 w2,
        getitem psf (idx_max * 2)%Z = Ok pc /\
        getitem psf (j - idx_max + (freqs_size amps - 1))%Z = Ok w1 /\
        getitem psf (j + idx_max)%Z = Ok w2) /\
  (forall (gain : R) (num_iter : Z),
      exists st, clean amps psf gain num_iter = Ok st).
Proof.
  intros Hsz. split.
  - intros idx_max j Hidx Hj.
    pose proof (psf_sized_nonempty amps psf Hsz) as HM.
    assert (Hhalf : (0 <= len amps / 2)%Z) by (apply Z.div_pos; lia).
    unfold freqs_size. unfold psf_sized in Hsz.
    repeat split; try lia.
    exists (nth (Z.to_nat (idx_max * 2)) psf C0),
           (nth (Z.to_nat (j - idx_max + (len amps - 1))) psf C0),
           (nth (Z.to_nat (j + idx_max)) psf C0).
    repeat split; apply getitem_in_range; lia.
  - intros gain num_iter. unfold clean.
    destruct (clean_loop_total amps psf gain (range num_iter) Hsz _ (init_shaped amps))
      as (st & Hst & _).
    exists st. exact Hst.
Qed.

Lemma clean_indices_in_bounds_witness :
  exists st, clean [C0; C0; mkC 1 0] [C0; C0; mkC 1 0; C0; C0] 1 2 = Ok st.
Proof.
  apply (clean_indices_in_bounds [C0; C0; mkC 1 0] [C0; C0; mkC 1 0; C0; C0]).
  reflexivity.
Defined.

(** The accounts of a run from any state of the right shape. *)
Lemma clean_loop_accounts (amps psf : list complex) (gain : R) (iters : list Z) :
  psf_sized amps psf ->
  forall (st : clean_state) (acc : list complex),
    shaped amps st -> length acc = length amps ->
    exists st',
      clean_loop amps psf gain iters st = Ok st' /\
      vadd (residual st') (vsum acc (subs_of_run amps psf gain iters st))
      = vadd (residual st) acc.
Proof.
  intros Hsz. induction iters as [|i rest IH]; intros st acc Hsh Hacc.
  - exists st. split; reflexivity.
  - destruct (clean_body_closed amps psf gain i st Hsz Hsh) as (idx & _ & _ & _ & _ & Hcase).
    cbn [clean_loop subs_of_run].
    destruct (peak_amplitude _ _) as [[aRe aIm]|].
    + destruct Hcase as [Hbody Hsub].
      destruct (clean_body_continue_shaped amps psf gain i st _ Hsz Hsh Hbody) as [Hsh' _].
      rewrite Hbody, Hsub. cbn [bind].
      set (sub := map (sub_at amps psf gain idx aRe aIm) (range (len amps))) in *.
      assert (Hlsub : length sub = length amps).
      { unfold sub. rewrite length_map, range_length. unfold len. lia. }
      destruct Hsh as [_ Hr].
      destruct (IH _ (vadd acc sub) Hsh') as (st' & Hrun & Hinv).
      { rewrite vadd_length; lia. }
      exists st'. split; [exact Hrun|].
      unfold vsum in *. cbn [fold_left]. rewrite Hinv. cbn [residual].
      apply vsub_vadd_cancel; lia.
    + destruct Hcase as [Hbody _]. rewrite Hbody. cbn [bind].
      eexists; split; reflexivity.
Qed.

(** C2.  Residual accounting: after any number of iterations the residual
    plus the sum of the vectors [sub] subtracted so far is the dirty
    spectrum [amps], for every dirty spectrum, PSF of the matching size,
    gain and number of iterations (in the exact arithmetic of the model the
    two sides are equal). *)
Theorem residual_accounting (amps psf : list complex) (gain : R) (num_iter : Z) :
  psf_sized amps psf ->
  exists st,
    clean amps psf gain num_iter = Ok st /\
    vadd (residual st)
         (vsum (zeros_like amps)
               (subs_of_run amps psf gain (range num_iter)
                            (mkState (zeros_like amps) amps [])))
    = amps.
Proof.
  intros Hsz. unfold clean.
  destruct (clean_loop_accounts amps psf gain (range num_iter) Hsz
              (mkState (zeros_like amps) amps []) (zeros_like amps)
              (init_shaped amps) (zeros_like_length amps))
    as (st & Hrun & Hinv).
  exists st. split; [exact Hrun|].
  rewrite Hinv. cbn [residual]. apply vadd_zeros_r.
Qed.

Lemma residual_accounting_witness :
  exists st,
    clean [C0; C0; mkC 1 0] [C0; C0; mkC 1 0; C0; C0] (1 / 2) 3 = Ok st /\
    vadd (residual st)
         (vsum (zeros_like [C0; C0; mkC 1 0])
               (subs_of_run [C0; C0; mkC 1 0] [C0; C0; mkC 1 0; C0; C0] (1 / 2) (range 3)
                            (mkState (zeros_like [C0; C0; mkC 1 0]) [C0; C0; mkC 1 0] [])))
    = [C0; C0; mkC 1 0].
Proof.
  apply (residual_accounting [C0; C0; mkC 1 0] [C0; C0; mkC 1 0; C0; C0] (1 / 2) 3).
  reflexivity.
Defined.

Lemma replace_nth_same {A : Type} (l : list A) (n : nat) (d : A) :
  replace_nth l n (nth n l d) = l.
Proof.
  revert n. induction l as [|x l IH]; intros [|n]; simpl; auto. now rewrite IH.
Qed.

Lemma sub_zero_gain (amps psf : list complex) (idx_max : Z) (aRe aIm : R) :
  map (sub_at amps psf 0 idx_max aRe aIm) (range (len amps)) = zeros_like amps.
Proof.
  apply Forall_C0_eq.
  - rewrite length_map, range_length, zeros_like_length. unfold len. lia.
  - apply Forall_forall. intros z Hz. apply in_map_iff in Hz.
    destruct Hz as (j & <- & _). unfold sub_at. apply Cmul_zero_r.
  - apply zeros_like_Forall.
Qed.

(** With gain 0 an iteration changes neither array. *)
Lemma clean_loop_zero_gain (amps psf : list complex) (iters : list Z) :
  psf_sized amps psf ->
  forall lg,
    (exists lg', clean_loop amps psf 0 iters (mkState (zeros_like amps) amps lg)
                 = Ok (mkState (zeros_like amps) amps lg')) /\
    Forall (fun sub => sub = zeros_like amps)
           (subs_of_run amps psf 0 iters (mkState (zeros_like amps) amps lg)).
Proof.
  intros Hsz. induction iters as [|i rest IH]; intros lg.
  - split; [exists lg; reflexivity | constructor].
  - assert (Hsh : shaped amps (mkState (zeros_like amps) amps lg)).
    { split; simpl; [apply zeros_like_length | reflexivity]. }
    destruct (clean_body_closed amps psf 0 i _ Hsz Hsh) as (idx & _ & _ & _ & _ & Hcase).
    cbn [clean_loop subs_of_run].
    destruct (peak_amplitude _ _) as [[aRe aIm]|].
    + destruct Hcase as [Hbody Hsub]. rewrite Hbody, Hsub. cbn [bind].
      cbn [clean_components residual log].
      rewrite sub_zero_gain, Cmul_zero_r, Cadd_C0_r, replace_nth_same.
      rewrite vsub_zeros by (auto using zeros_like_length, zeros_like_Forall).
      destruct (IH lg) as [Hrun Hsubs].
      split; [exact Hrun | constructor; [reflexivity | exact Hsubs]].
    + destruct Hcase as [Hbody _]. rewrite Hbody. cbn [bind].
      split; [eexists; reflexivity | constructor].
Qed.

(** C7.  Zero gain: with [gain = 0], after any number of iterations and
    for every dirty spectrum and PSF of the matching size, the components
    are still all zero, the residual is still the dirty spectrum, and
    every vector [sub] that was subtracted is zero. *)
Theorem zero_gain_noop (amps psf : list complex) (num_iter : Z) :
  psf_sized amps psf ->
  (exists lg, clean amps psf 0 num_iter = Ok (mkState (zeros_like amps) amps lg)) /\
  Forall (fun sub => sub = zeros_like amps)
         (subs_of_run amps psf 0 (range num_iter) (mkState (zeros_like amps) amps [])).
Proof.
  intros Hsz. unfold clean. apply clean_loop_zero_gain. exact Hsz.
Qed.

Lemma zero_gain_noop_witness :
  (exists lg, clean [C0; mkC 1 0; mkC 2 0] [C0; C0; mkC 1 0; C0; C0] 0 4
              = Ok (mkState (zeros_like [C0; mkC 1 0; mkC 2 0]) [C0; mkC 1 0; mkC 2 0] lg)) /\
  Forall (fun sub => sub = zeros_like [C0; mkC 1 0; mkC 2 0])
         (subs_of_run [C0; mkC 1 0; mkC 2 0] [C0; C0; mkC 1 0; C0; C0] 0 (range 4)
                      (mkState (zeros_like [C0; mkC 1 0; mkC 2 0]) [C0; mkC 1 0; mkC 2 0] [])).
Proof.
  apply (zero_gain_noop [C0; mkC 1 0; mkC 2 0] [C0; C0; mkC 1 0; C0; C0] 4).
  reflexivity.
Defined.

(** C10.  The magnitude [psf_mag] is a real number, so its imaginary part
    is zero and, whenever [1 - psf_mag^2] is not zero, the amplitude that
    lines 138-141 compute is [aRe = res_amp.real / (1 + psf_mag)] and
    [aIm = res_amp.imag / (1 - psf_mag)]: the phase of [psf[idx_max * 2]]
    plays no part. *)
Theorem peak_amplitude_real_magnitude (res_amp p : complex) :
  1 - np_abs p ^ 2 <> 0 ->
  float_imag (np_abs p) = 0 /\
  peak_amplitude res_amp p
  = Some (real res_amp / (1 + np_abs p), imag res_amp / (1 - np_abs p)).
Proof.
  intros Htemp. split; [reflexivity|].
  apply peak_amplitude_nonzero. exact Htemp.
Qed.

Lemma peak_amplitude_real_magnitude_witness :
  float_imag (np_abs C0) = 0 /\
  peak_amplitude (mkC 1 2) C0 = Some (real (mkC 1 2) / (1 + np_abs C0),
                                      imag (mkC 1 2) / (1 - np_abs C0)).
Proof.
  apply (peak_amplitude_real_magnitude (mkC 1 2) C0).
  rewrite np_abs_sqr. simpl. lra.
Defined.

Lemma completed_clean_loop (amps psf : list complex) (gain : R) (a b : list Z) :
  forall st st',
    completed amps psf gain a st = Some st' ->
    clean_loop amps psf gain (a ++ b) st = clean_loop amps psf gain b st'.
Proof.
  induction a as [|i a IH]; intros st st' Hc; simpl in *.
  - inversion Hc; reflexivity.
  - destruct (clean_body amps psf gain i st) as [[st1|st1]|e]; try discriminate.
    cbn [bind]. apply IH. exact Hc.
Qed.

Lemma clean_body_continue_log (amps psf : list complex) (gain : R) (i : Z)
      (st st' : clean_state) :
  clean_body amps psf gain i st = Ok (Continue st') -> log st' = log st.
Proof.
  unfold clean_body.
  destruct (find_peak amps (residual st)) as [idx|]; cbn [bind]; [|discriminate].
  destruct (getitem (residual st) idx); cbn [bind]; [|discriminate].
  destruct (getitem psf (idx * 2)%Z); cbn [bind]; [|discriminate].
  destruct (peak_amplitude _ _) as [[aRe aIm]|]; [|discriminate].
  destruct (getitem (clean_components st) idx); cbn [bind]; [|discriminate].
  destruct (setitem _ _ _); cbn [bind]; [|discriminate].
  destruct (sub_vector _ _ _ _ _ _ _); cbn [bind]; [|discriminate].
  destruct (inplace2 _ _ _); cbn [bind]; [|discriminate].
  intros H; inversion H; reflexivity.
Qed.

Lemma completed_log (amps psf : list complex) (gain : R) (a : list Z) :
  forall st st', completed amps psf gain a st = Some st' -> log st' = log st.
Proof.
  induction a as [|i a IH]; intros st st' Hc; simpl in Hc.
  - inversion Hc; reflexivity.
  - destruct (clean_body amps psf gain i st) as [[st1|st1]|e] eqn:Hb; try discriminate.
    rewrite (IH _ _ Hc). eapply clean_body_continue_log; eassumption.
Qed.

Lemma range_split (n i : Z) :
  (0 <= i < n)%Z -> exists rest, range n = range i ++ i :: rest.
Proof.
  intros Hi. unfold range, range2. rewrite !Z.sub_0_r.
  replace (Z.to_nat n) with (Z.to_nat i + S (Z.to_nat n - Z.to_nat i - 1))%nat by lia.
  rewrite seq_app, map_app. cbn [seq map].
  eexists. f_equal. f_equal. lia.
Qed.

Lemma find_peak_in_range (amps res : list complex) (idx_max : Z) :
  find_peak amps res = Ok idx_max -> (0 <= idx_max < len res)%Z.
Proof.
  intros Hfp.
  assert (Hc0 : (0 <= len amps / 2)%Z) by (apply Z.div_pos; unfold len; lia).
  destruct (Z.lt_ge_cases (len amps / 2) (len res)) as [Hlt|Hge].
  - destruct (find_peak_spec amps res Hlt) as (idx & Hidx & Hr & _).
    rewrite Hidx in Hfp. inversion Hfp; subst. lia.
  - exfalso. unfold find_peak, slice_from in Hfp.
    destruct (Z.ltb_spec (len amps / 2) 0); [lia|].
    rewrite Z.min_r in Hfp by lia. unfold len in Hfp at 1.
    rewrite Nat2Z.id, skipn_all in Hfp. discriminate.
Qed.

(** C4.  Degenerate coupling: when the first [i] iterations ran to their
    end and left the state [st], and iteration [i] finds
    [temp = 1 - |psf[idx_max * 2]|^2] equal to 0, the run ends there without
    an exception, logs one warning that carries [i], and returns the
    components and the residual of [st] unchanged. *)
Theorem degenerate_coupling_break (amps psf : list complex) (gain : R)
        (num_iter i : Z) (st : clean_state) (idx_max : Z) (p : complex) :
  (0 <= i < num_iter)%Z ->
  completed amps psf gain (range i) (mkState (zeros_like amps) amps []) = Some st ->
  find_peak amps (residual st) = Ok idx_max ->
  getitem psf (idx_max * 2)%Z = Ok p ->
  1 - np_abs p ^ 2 = 0 ->
  clean amps psf gain num_iter
  = Ok (mkState (clean_components st) (residual st)
          [Warning "EEK, divide by zero for iter = %i!" i]).
Proof.
  intros Hi Hdone Hfp Hp Htemp.
  destruct (range_split num_iter i Hi) as (rest & Hrange).
  unfold clean. rewrite Hrange.
  rewrite (completed_clean_loop _ _ _ _ _ _ _ Hdone).
  pose proof (completed_log _ _ _ _ _ _ Hdone) as Hlog. simpl in Hlog.
  cbn [clean_loop]. unfold clean_body. rewrite Hfp. cbn [bind].
  rewrite (getitem_in_range _ _ C0) by (eapply find_peak_in_range; eassumption).
  cbn [bind]. rewrite Hp. cbn [bind].
  rewrite (peak_amplitude_zero _ _ Htemp).
  cbn [bind]. rewrite Hlog. reflexivity.
Qed.

Lemma degenerate_run_first_iteration :
  completed [C0; mkC 0.5 0; mkC 1 0] [C0; C0; mkC 1 0; C0; C0] 1 (range 1)
            (mkState (zeros_like [C0; mkC 0.5 0; mkC 1 0]) [C0; mkC 0.5 0; mkC 1 0] [])
  = Some (mkState [C0; C0; mkC 1 0] [mkC (-1) 0; mkC 0.5 0; C0] []).
Proof.
  set (amps1 := [C0; mkC 0.5 0; mkC 1 0]).
  set (psf1 := [C0; C0; mkC 1 0; C0; C0]).
  assert (Hsz : psf_sized amps1 psf1) by reflexivity.
  assert (Hfp : find_peak amps1 amps1 = Ok 2%Z).
  { unfold find_peak.
    change (slice_from amps1 (len amps1 / 2)) with [mkC 0.5 0; mkC 1 0].
    cbn [np_argmax argmax_scan].
    rewrite complex_gt_real_lt by (simpl; lra). reflexivity. }
  assert (Hpa : peak_amplitude (nth (Z.to_nat 2) amps1 C0)
                               (nth (Z.to_nat (2 * 2)) psf1 C0) = Some (1, 0)).
  { change (nth (Z.to_nat 2) amps1 C0) with (mkC 1 0).
    change (nth (Z.to_nat (2 * 2)) psf1 C0) with (mkC 0 0).
    rewrite peak_amplitude_nonzero; rewrite np_abs_real_nonneg by lra.
    - simpl. f_equal. f_equal; field.
    - lra. }
  change (range 1) with [0%Z]. cbn [completed].
  destruct (clean_body_continue_at amps1 psf1 1 0%Z _ 2%Z 1 0 Hsz
              (init_shaped amps1) Hfp Hpa) as [Hb _].
  rewrite Hb. f_equal.
  change (range (len amps1)) with [0%Z; 1%Z; 2%Z].
  cbn [map combine fst snd residual clean_components log].
  unfold sub_at. eval_indices. unfold amps1, psf1.
  cbn [nth replace_nth zeros_like map combine fst snd].
  f_equal; complex_list_eq.
Qed.

Lemma degenerate_coupling_break_witness :
  clean [C0; mkC 0.5 0; mkC 1 0] [C0; C0; mkC 1 0; C0; C0] 1 5
  = Ok (mkState [C0; C0; mkC 1 0] [mkC (-1) 0; mkC 0.5 0; C0]
          [Warning "EEK, divide by zero for iter = %i!" 1]).
Proof.
  apply (degenerate_coupling_break
           [C0; mkC 0.5 0; mkC 1 0] [C0; C0; mkC 1 0; C0; C0] 1 5 1
           (mkState [C0; C0; mkC 1 0] [mkC (-1) 0; mkC 0.5 0; C0] [])
           1 (mkC 1 0)).
  - lia.
  - exact degenerate_run_first_iteration.
  - unfold find_peak.
    change (slice_from (residual (mkState [C0; C0; mkC 1 0]
                                    [mkC (-1) 0; mkC 0.5 0; C0] []))
                       (len [C0; mkC 0.5 0; mkC 1 0] / 2))
      with [mkC 0.5 0; C0].
    cbn [np_argmax argmax_scan].
    rewrite complex_gt_real_gt by (simpl; lra). reflexivity.
  - reflexivity.
  - rewrite np_abs_sqr. simpl. lra.
Defined.

End CleanClaims.

(** ** The dirty spectrum and the PSF *)

Section SpectrumFacts.
Local Open Scope R_scope.

Lemma broadcast2_same_length {A B X : Type} (f : A -> B -> X) (a : list A) (b : list B) :
  length a = length b ->
  broadcast2 f a b = Ok (map (fun p => f (fst p) (snd p)) (combine a b)).
Proof.
  intros H. unfold broadcast2. rewrite H, Nat.eqb_refl. reflexivity.
Qed.

Lemma phase_of_length f times : length (phase_of f times) = length times.
Proof. apply length_map. Qed.

(** The phase factor of a sample is [exp(-2 pi i f t)]. *)
Lemma phase_of_expi f times :
  phase_of f times = map (fun t => expi (- (2 * PI * f * t))) times.
Proof.
  unfold phase_of. apply map_ext. intros t.
  replace (Cmul (Cmul (Cmul (Cmul (Cneg Ci) (RtoC 2)) (RtoC PI)) (RtoC f)) (RtoC t))
    with (mkC 0 (- (2 * PI * f * t))) by (apply complex_eq; simpl; ring).
  unfold np_exp, expi; simpl. rewrite exp_0. apply complex_eq; simpl; ring.
Qed.

(** The loop over the frequencies adds one sum to each entry, from the
    left. *)
Lemma amps_loop_fill (times values : list R) :
  length values = length times ->
  forall (fs : list R) (k : nat) (pre rest : list complex),
    length pre = k -> length rest = length fs ->
    amps_loop times values (combine (map Z.of_nat (seq k (length fs))) fs) (pre ++ rest)
    = Ok (pre ++ map (fun p => Cadd (fst p) (weighted_sum times values (snd p)))
                     (combine rest fs)).
Proof.
  intros Hv. induction fs as [|f fs IH]; intros k pre rest Hk Hrest.
  - destruct rest; [|discriminate]. reflexivity.
  - destruct rest as [|x rest]; [discriminate|]. simpl in Hrest. subst k.
    cbn [length seq map combine amps_loop].
    rewrite broadcast2_same_length by (rewrite phase_of_length; exact Hv).
    cbn [bind].
    rewrite (getitem_in_range _ _ C0) by (unfold len; rewrite length_app; simpl; lia).
    cbn [bind]. rewrite Nat2Z.id, nth_middle.
    rewrite setitem_in_range by (unfold len; rewrite length_app; simpl; lia).
    cbn [bind]. rewrite Nat2Z.id, replace_nth_middle.
    match goal with
    | |- amps_loop _ _ _ (pre ++ ?v :: rest) = _ =>
        replace (pre ++ v :: rest) with ((pre ++ [v]) ++ rest)
          by (rewrite <- app_assoc; reflexivity);
        rewrite (IH (S (length pre)) (pre ++ [v]) rest)
          by (try rewrite length_app; simpl; lia)
    end.
    rewrite <- app_assoc. reflexivity.
Qed.

Lemma psf_loop_fill (times : list R) :
  forall (fs : list R) (k : nat) (pre rest : list complex),
    length pre = k -> length rest = length fs ->
    psf_loop times (combine (map Z.of_nat (seq k (length fs))) fs) (pre ++ rest)
    = Ok (pre ++ map (fun p => Cadd (fst p) (np_sum (phase_of (snd p) times)))
                     (combine rest fs)).
Proof.
  induction fs as [|f fs IH]; intros k pre rest Hk Hrest.
  - destruct rest; [|discriminate]. reflexivity.
  - destruct rest as [|x rest]; [discriminate|]. simpl in Hrest. subst k.
    cbn [length seq map combine psf_loop].
    rewrite (getitem_in_range _ _ C0) by (unfold len; rewrite length_app; simpl; lia).
    cbn [bind]. rewrite Nat2Z.id, nth_middle.
    rewrite setitem_in_range by (unfold len; rewrite length_app; simpl; lia).
    cbn [bind]. rewrite Nat2Z.id, replace_nth_middle.
    match goal with
    | |- psf_loop _ _ (pre ++ ?v :: rest) = _ =>
        replace (pre ++ v :: rest) with ((pre ++ [v]) ++ rest)
          by (rewrite <- app_assoc; reflexivity);
        rewrite (IH (S (length pre)) (pre ++ [v]) rest)
          by (try rewrite length_app; simpl; lia)
    end.
    rewrite <- app_assoc. reflexivity.
Qed.

Lemma combine_zeros_map {A X : Type} (g : complex -> A -> X) (fs : list A) :
  map (fun p => g (fst p) (snd p)) (combine (zeros_like fs) fs) = map (g C0) fs.
Proof.
  unfold zeros_like. induction fs as [|f fs IH]; simpl; [reflexivity|].
  now rewrite IH.
Qed.

Lemma enumerate_seq {A : Type} (l : list A) :
  enumerate l = combine (map Z.of_nat (seq 0 (length l))) l.
Proof. unfold enumerate, len. rewrite range_of_nat. reflexivity. Qed.

(** The two spectra in closed form. *)
Lemma dirty_spectrum_closed (num_freqs : Z) (freq_inc : R) (times values : list R) :
  length values = length times ->
  dirty_spectrum num_freqs freq_inc times values
  = Ok (div_size
          (map (fun f => Cadd C0 (weighted_sum times values f))
               (freq_grid (- num_freqs) (num_freqs + 1) freq_inc))
          times).
Proof.
  intros Hv. unfold dirty_spectrum. rewrite enumerate_seq.
  set (freqs := freq_grid (- num_freqs) (num_freqs + 1) freq_inc).
  pose proof (amps_loop_fill times values Hv freqs 0 [] (zeros_like freqs)
                eq_refl (zeros_like_length freqs)) as Hloop.
  cbn [app] in Hloop. rewrite Hloop.
  cbn [bind].
  rewrite (combine_zeros_map (fun z f => Cadd z (weighted_sum times values f))).
  reflexivity.
Qed.

Lemma psf_spectrum_closed (num_freqs : Z) (freq_inc : R) (times : list R) :
  psf_spectrum num_freqs freq_inc times
  = Ok (div_size
          (map (fun f => Cadd C0 (np_sum (phase_of f times)))
               (freq_grid (- num_freqs * 2) (num_freqs * 2 + 1) freq_inc))
          times).
Proof.
  unfold psf_spectrum. rewrite enumerate_seq.
  set (freqs_psf := freq_grid (- num_freqs * 2) (num_freqs * 2 + 1) freq_inc).
  pose proof (psf_loop_fill times freqs_psf 0 [] (zeros_like freqs_psf)
                eq_refl (zeros_like_length freqs_psf)) as Hloop.
  cbn [app] in Hloop. rewrite Hloop.
  cbn [bind].
  rewrite (combine_zeros_map (fun z f => Cadd z (np_sum (phase_of f times)))).
  reflexivity.
Qed.

Lemma freq_grid_length lo hi freq_inc :
  length (freq_grid lo hi freq_inc) = Z.to_nat (hi - lo).
Proof. unfold freq_grid, arange, range2. now rewrite !length_map, length_seq. Qed.

Lemma freq_grid_nth lo hi freq_inc (n : nat) :
  (n < Z.to_nat (hi - lo))%nat ->
  nth n (freq_grid lo hi freq_inc) 0 = IZR (lo + Z.of_nat n) * freq_inc.
Proof.
  intros Hn. unfold freq_grid, arange, range2. rewrite map_map.
  rewrite (nth_indep _ 0 ((fun x => IZR (lo + Z.of_nat x) * freq_inc) 0%nat))
    by (rewrite length_map, length_seq; exact Hn).
  rewrite (map_nth (fun x => IZR (lo + Z.of_nat x) * freq_inc)).
  rewrite seq_nth by exact Hn. reflexivity.
Qed.

Lemma nth_map_in_range {A B : Type} (f : A -> B) (l : list A) (n : nat) (d : B) (d' : A) :
  (n < length l)%nat -> nth n (map f l) d = f (nth n l d').
Proof.
  intros Hn. rewrite (nth_indep _ d (f d')) by (rewrite length_map; exact Hn).
  apply map_nth.
Qed.

Lemma np_sum_fold_right (l : list complex) : np_sum l = fold_right Cadd C0 l.
Proof.
  unfold np_sum. apply fold_symmetric.
  - intros x y z. apply Cadd_assoc.
  - intros y. apply Cadd_comm.
Qed.

(** The terms of a sum over the samples, by the index of the sample. *)
Lemma terms_by_index (e : R -> complex) (V T : list R) :
  length V = length T ->
  map (fun p => Cmul (RtoC (fst p)) (snd p)) (combine V (map e T))
  = map (fun n => Cmul (RtoC (nth n V 0)) (e (nth n T 0))) (seq 0 (length T)).
Proof.
  revert V. induction T as [|t T IH]; intros [|v V] Hlen; simpl in *;
    try reflexivity; try discriminate.
  f_equal. rewrite IH by lia. rewrite <- seq_shift, map_map. reflexivity.
Qed.

Lemma weighted_sum_by_index (T V : list R) (f : R) :
  length V = length T ->
  weighted_sum T V f
  = fold_right Cadd C0
      (map (fun n => Cmul (RtoC (nth n V 0)) (expi (- (2 * PI * f * nth n T 0))))
           (seq 0 (length T))).
Proof.
  intros Hlen. unfold weighted_sum.
  rewrite np_sum_fold_right, phase_of_expi, terms_by_index by exact Hlen.
  reflexivity.
Qed.

(** With unit weights the weighted sum is the sum of the phase factors. *)
Lemma weighted_sum_ones (T V : list R) (f : R) :
  length V = length T -> Forall (fun v => v = 1) V ->
  weighted_sum T V f = np_sum (phase_of f T).
Proof.
  intros Hlen Hone. unfold weighted_sum. f_equal.
  rewrite <- (phase_of_length f T) in Hlen.
  revert Hlen Hone. generalize (phase_of f T) as ph.
  induction V as [|v V IH]; intros [|z ph] Hlen Hone; simpl in *;
    try reflexivity; try discriminate.
  inversion Hone; subst. rewrite Cmul_one_l. f_equal. apply IH; [lia | assumption].
Qed.

Lemma div_size_entry (z : complex) (times : list R) :
  (1 <= length times)%nat ->
  Cdiv (Cadd C0 z) (RtoC (INR (length times)))
  = Cmul (RtoC (1 / INR (length times))) z.
Proof.
  intros HN.
  assert (HN' : INR (length times) <> 0) by (apply not_0_INR; lia).
  apply complex_eq; simpl; field; exact HN'.
Qed.

Lemma repeat_Forall_one (n : nat) : Forall (fun v => v = 1) (repeat 1 n).
Proof. induction n; simpl; constructor; auto. Qed.

(** The middle of the PSF grid is the spectrum grid. *)
Lemma freq_grid_middle (num_freqs : Z) (freq_inc : R) :
  (0 <= num_freqs)%Z ->
  firstn (Z.to_nat (2 * num_freqs + 1))
         (skipn (Z.to_nat num_freqs)
                (freq_grid (- num_freqs * 2) (num_freqs * 2 + 1) freq_inc))
  = freq_grid (- num_freqs) (num_freqs + 1) freq_inc.
Proof.
  intros HK. apply (nth_ext _ _ 0 0).
  - rewrite length_firstn, length_skipn, !freq_grid_length. lia.
  - intros n Hn.
    rewrite length_firstn, length_skipn, freq_grid_length in Hn.
    rewrite nth_firstn. destruct (Nat.ltb_spec n (Z.to_nat (2 * num_freqs + 1))); [|lia].
    rewrite nth_skipn, !freq_grid_nth by lia.
    f_equal. f_equal. lia.
Qed.

(** One sample at time 0: every entry of the spectrum is its value. *)
Example dirty_spectrum_one_sample (freq_inc : R) :
  dirty_spectrum 1 freq_inc [0] [3] = Ok [mkC 3 0; mkC 3 0; mkC 3 0].
Proof.
  rewrite dirty_spectrum_closed by reflexivity.
  f_equal. unfold weighted_sum.
  change (freq_grid (- (1)) (1 + 1) freq_inc)
    with [IZR (-1) * freq_inc; IZR 0 * freq_inc; IZR 1 * freq_inc].
  cbn [map div_size]. rewrite !phase_of_expi.
  cbn [map combine np_sum fold_left fst snd length].
  unfold expi.
  repeat match goal with
    | |- context [ - (2 * PI * ?f * 0) ] =>
        replace (- (2 * PI * f * 0)) with 0 by ring
    end.
  rewrite cos_0, sin_0.
  repeat (apply (f_equal2 (@cons complex)); [apply complex_eq; simpl; field|]);
    reflexivity.
Qed.

End SpectrumFacts.

Section SpectrumClaims.
Local Open Scope R_scope.

(** C5.  For [N >= 1] samples with times [T] and values [V] the dirty
    spectrum has [2 K + 1] entries and its entry for the grid frequency
    [f = (i - K) freq_inc] is [(1/N) sum_n V[n] exp(-2 pi i f T[n])]; the PSF
    is the same sum with unit values over a grid of [2 (2 K + 1) - 1]
    frequencies [(i - 2 K) freq_inc] of the same spacing. *)
Theorem spectral_estimator_formula (num_freqs : Z) (freq_inc : R) (times values : list R) :
  (0 <= num_freqs)%Z -> (1 <= length times)%nat -> length values = length times ->
  (exists amps,
      dirty_spectrum num_freqs freq_inc times values = Ok amps /\
      len amps = (2 * num_freqs + 1)%Z /\
      forall i, (0 <= i < len amps)%Z ->
                nth (Z.to_nat i) amps C0
                = fourier_sum times values (IZR (i - num_freqs) * freq_inc)) /\
  (exists psf,
      psf_spectrum num_freqs freq_inc times = Ok psf /\
      len psf = (2 * (2 * num_freqs + 1) - 1)%Z /\
      forall i, (0 <= i < len psf)%Z ->
                nth (Z.to_nat i) psf C0
                = fourier_sum times (repeat 1 (length times))
                              (IZR (i - 2 * num_freqs) * freq_inc)).
Proof.
  intros HK HN Hlen. split.
  - rewrite dirty_spectrum_closed by exact Hlen.
    eexists; split; [reflexivity|].
    assert (Hl : len (div_size
                        (map (fun f => Cadd C0 (weighted_sum times values f))
                             (freq_grid (- num_freqs) (num_freqs + 1) freq_inc)) times)
                 = (2 * num_freqs + 1)%Z).
    { unfold len, div_size. rewrite !length_map, freq_grid_length. lia. }
    split; [exact Hl|]. rewrite Hl. intros i Hi.
    unfold div_size. rewrite map_map.
    rewrite (nth_map_in_range _ _ _ _ 0) by (rewrite freq_grid_length; lia).
    rewrite freq_grid_nth by lia.
    replace (- num_freqs + Z.of_nat (Z.to_nat i))%Z with (i - num_freqs)%Z by lia.
    rewrite div_size_entry by exact HN.
    rewrite weighted_sum_by_index by exact Hlen. reflexivity.
  - rewrite psf_spectrum_closed.
    eexists; split; [reflexivity|].
    assert (Hl : len (div_size
                        (map (fun f => Cadd C0 (np_sum (phase_of f times)))
                             (freq_grid (- num_freqs * 2) (num_freqs * 2 + 1) freq_inc))
                        times)
                 = (2 * (2 * num_freqs + 1) - 1)%Z).
    { unfold len, div_size. rewrite !length_map, freq_grid_length. lia. }
    split; [exact Hl|]. rewrite Hl. intros i Hi.
    unfold div_size. rewrite map_map.
    rewrite (nth_map_in_range _ _ _ _ 0) by (rewrite freq_grid_length; lia).
    rewrite freq_grid_nth by lia.
    replace (- num_freqs * 2 + Z.of_nat (Z.to_nat i))%Z with (i - 2 * num_freqs)%Z by lia.
    rewrite div_size_entry by exact HN.
    rewrite <- (weighted_sum_ones times (repeat 1 (length times)))
      by (try apply repeat_length; apply repeat_Forall_one).
    rewrite weighted_sum_by_index by apply repeat_length. reflexivity.
Qed.

Lemma spectral_estimator_formula_witness :
  (exists amps,
      dirty_spectrum 1 (1 / 4) [0; 1; 3] [2; 1; 5] = Ok amps /\
      len amps = (2 * 1 + 1)%Z /\
      forall i, (0 <= i < len amps)%Z ->
                nth (Z.to_nat i) amps C0
                = fourier_sum [0; 1; 3] [2; 1; 5] (IZR (i - 1) * (1 / 4))) /\
  (exists psf,
      psf_spectrum 1 (1 / 4) [0; 1; 3] = Ok psf /\
      len psf = (2 * (2 * 1 + 1) - 1)%Z /\
      forall i, (0 <= i < len psf)%Z ->
                nth (Z.to_nat i) psf C0
                = fourier_sum [0; 1; 3] (repeat 1 (length [0; 1; 3]))
                              (IZR (i - 2 * 1) * (1 / 4))).
Proof.
  apply (spectral_estimator_formula 1 (1 / 4) [0; 1; 3] [2; 1; 5]).
  - lia.
  - simpl; lia.
  - reflexivity.
Defined.

(** C8.  Unit weights: when every sample value is 1, the dirty spectrum is
    the PSF restricted to the grid of the spectrum.  For [N >= 1] samples
    and [K = num_freqs >= 0] the spectrum has [M = 2 K + 1] entries, the
    PSF has [2 M - 1], and the spectrum is the slice [psf[K : K + M]]:
    entry [i] of the spectrum is entry [i + K] of the PSF (in the exact
    arithmetic of the model the two are equal). *)
Theorem unit_weight_equivalence (num_freqs : Z) (freq_inc : R) (times values : list R) :
  (0 <= num_freqs)%Z -> (1 <= length times)%nat ->
  length values = length times ->
  Forall (fun v => v = 1) values ->
  exists amps psf,
    dirty_spectrum num_freqs freq_inc times values = Ok amps /\
    psf_spectrum num_freqs freq_inc times = Ok psf /\
    len amps = (2 * num_freqs + 1)%Z /\
    len psf = (2 * (2 * num_freqs + 1) - 1)%Z /\
    amps = firstn (Z.to_nat (2 * num_freqs + 1)) (skipn (Z.to_nat num_freqs) psf) /\
    forall i, (0 <= i < 2 * num_freqs + 1)%Z ->
              nth (Z.to_nat i) amps C0 = nth (Z.to_nat (i + num_freqs)) psf C0.
Proof.
  intros HK HN Hlen Hone.
  rewrite dirty_spectrum_closed by exact Hlen. rewrite psf_spectrum_closed.
  eexists; eexists; split; [reflexivity|]. split; [reflexivity|].
  assert (Heq :
    div_size (map (fun f => Cadd C0 (weighted_sum times values f))
                  (freq_grid (- num_freqs) (num_freqs + 1) freq_inc)) times
    = firstn (Z.to_nat (2 * num_freqs + 1))
        (skipn (Z.to_nat num_freqs)
           (div_size (map (fun f => Cadd C0 (np_sum (phase_of f times)))
                          (freq_grid (- num_freqs * 2) (num_freqs * 2 + 1) freq_inc))
                     times))).
  { unfold div_size. rewrite !map_map, skipn_map, firstn_map.
    rewrite freq_grid_middle by exact HK.
    apply map_ext. intros f.
    rewrite (weighted_sum_ones times values f Hlen Hone). reflexivity. }
  split; [|split; [|split]].
  - unfold len, div_size. rewrite !length_map, freq_grid_length. lia.
  - unfold len, div_size. rewrite !length_map, freq_grid_length. lia.
  - exact Heq.
  - intros i Hi. rewrite Heq at 1.
    rewrite nth_firstn.
    destruct (Nat.ltb_spec (Z.to_nat i) (Z.to_nat (2 * num_freqs + 1))); [|lia].
    rewrite nth_skipn. f_equal. lia.
Qed.

Lemma unit_weight_equivalence_witness :
  exists amps psf,
    dirty_spectrum 1 (1 / 4) [0; 1; 3] [1; 1; 1] = Ok amps /\
    psf_spectrum 1 (1 / 4) [0; 1; 3] = Ok psf /\
    len amps = (2 * 1 + 1)%Z /\
    len psf = (2 * (2 * 1 + 1) - 1)%Z /\
    amps = firstn (Z.to_nat (2 * 1 + 1)) (skipn (Z.to_nat 1) psf) /\
    forall i, (0 <= i < 2 * 1 + 1)%Z ->
              nth (Z.to_nat i) amps C0 = nth (Z.to_nat (i + 1)) psf C0.
Proof.
  apply (unit_weight_equivalence 1 (1 / 4) [0; 1; 3] [1; 1; 1]).
  - lia.
  - simpl; lia.
  - reflexivity.
  - repeat constructor.
Defined.

End SpectrumClaims.

(** ** The clean spectrum *)

Section BeamFacts.
Local Open Scope R_scope.

Lemma convolve_full_length (a v : list complex) :
  length (convolve_full a v) = (length a + length v - 1)%nat.
Proof. unfold convolve_full. now rewrite length_map, length_seq. Qed.

(** The length of a ['same'] convolution is the length of the longer
    operand. *)
Lemma np_convolve_same_length (a v : list complex) :
  a <> [] -> v <> [] ->
  exists out, np_convolve_same a v = Ok out /\
              length out = Nat.max (length a) (length v).
Proof.
  intros Ha Hv.
  assert (Hla : (1 <= length a)%nat) by (destruct a; [congruence | simpl; lia]).
  assert (Hlv : (1 <= length v)%nat) by (destruct v; [congruence | simpl; lia]).
  unfold np_convolve_same.
  destruct (Nat.ltb_spec (length a) (length v)) as [Hlt|Hge].
  - destruct (Nat.eqb_spec (length v) 0); [lia|].
    destruct (Nat.eqb_spec (length a) 0); [lia|].
    eexists; split; [reflexivity|].
    rewrite length_firstn, length_skipn, convolve_full_length.
    assert ((length a - 1) / 2 <= length a - 1)%nat
      by (apply Nat.Div0.div_le_upper_bound; lia).
    lia.
  - destruct (Nat.eqb_spec (length a) 0); [lia|].
    destruct (Nat.eqb_spec (length v) 0); [lia|].
    eexists; split; [reflexivity|].
    rewrite length_firstn, length_skipn, convolve_full_length.
    assert ((length v - 1) / 2 <= length v - 1)%nat
      by (apply Nat.Div0.div_le_upper_bound; lia).
    lia.
Qed.

Lemma Rle_dec_true (x y : R) : x <= y -> (if Rle_dec x y then true else false) = true.
Proof. intros H. destruct (Rle_dec x y); [reflexivity | contradiction]. Qed.

Lemma Rle_dec_false (x y : R) : y < x -> (if Rle_dec x y then true else false) = false.
Proof. intros H. destruct (Rle_dec x y); [lra | reflexivity]. Qed.

End BeamFacts.

Section BeamClaims.
Local Open Scope R_scope.

(** C3.  The failing input: a spectrum of three points and a PSF that is 1
    at its centre and 0 elsewhere.  The half width is [hwhm = 1], the clean
    beam has [2 * 5 + 1 = 11] entries, and the ['same'] convolution of the
    three components with it has 11 entries, not 3; adding the residual of
    three entries at line 182 then raises [ValueError]. *)
Theorem convolution_takes_kernel_length :
  exists clean_beam out,
    clean_beam_of [C0; C0; mkC 1 0; C0; C0] = Ok clean_beam /\
    length clean_beam = 11%nat /\
    np_convolve_same [C0; C0; mkC 1 0] (map RtoC clean_beam) = Ok out /\
    length out = 11%nat /\
    length out <> length [C0; C0; mkC 1 0] /\
    clean_spectrum_of [C0; C0; mkC 1 0; C0; C0] [C0; C0; mkC 1 0]
                      [mkC (-1) 0; mkC 0.5 0; C0]
    = Raise ValueError.
Proof.
  assert (Hbeam : exists clean_beam,
             clean_beam_of [C0; C0; mkC 1 0; C0; C0] = Ok clean_beam /\
             length clean_beam = 11%nat).
  { unfold clean_beam_of.
    change (slice_from [C0; C0; mkC 1 0; C0; C0] (len [C0; C0; mkC 1 0; C0; C0] / 2))
      with [mkC 1 0; mkC 0 0; mkC 0 0].
    cbn [map].
    rewrite !np_abs_real_nonneg by lra.
    rewrite Rle_dec_false by lra. rewrite Rle_dec_true by lra.
    cbn [np_argmax_bool first_true bind].
    eexists; split; [reflexivity|].
    rewrite length_map. reflexivity. }
  destruct Hbeam as (clean_beam & Hcb & Hlen).
  destruct (np_convolve_same_length [C0; C0; mkC 1 0] (map RtoC clean_beam))
    as (out & Hout & Hlout).
  { discriminate. }
  { destruct clean_beam; [discriminate Hlen | discriminate]. }
  rewrite length_map, Hlen in Hlout. simpl in Hlout.
  exists clean_beam, out. repeat split; try assumption.
  - rewrite Hlout. simpl. lia.
  - unfold clean_spectrum_of. rewrite Hcb. cbn [bind]. rewrite Hout. cbn [bind].
    unfold inplace2. rewrite length_map, Hlout. reflexivity.
Qed.

End BeamClaims.

(** ** More on the CLEAN loop: edge cases, the log, the components *)

Section CleanEdges.
Local Open Scope R_scope.

Variable amps : list complex.
Variable psf : list complex.
Variable gain : R.

Lemma range_nonpositive (n : Z) : (n <= 0)%Z -> range n = [].
Proof.
  intros Hn. unfold range, range2. replace (Z.to_nat (n - 0)) with 0%nat by lia.
  reflexivity.
Qed.

Lemma range_positive (n : Z) : (1 <= n)%Z -> exists rest, range n = 0%Z :: rest.
Proof.
  intros Hn. destruct (range_split n 0) as (rest & Hr); [lia|].
  exists rest. rewrite Hr. reflexivity.
Qed.

(** How a run that returns has ended: every iteration ran to its end, or
    some iteration left the loop with [break]. *)
Lemma clean_loop_outcome (iters : list Z) :
  forall st0 st,
    clean_loop amps psf gain iters st0 = Ok st ->
    completed amps psf gain iters st0 = Some st \/
    exists a i b st1,
      iters = a ++ i :: b /\
      completed amps psf gain a st0 = Some st1 /\
      clean_body amps psf gain i st1 = Ok (Break st).
Proof.
  induction iters as [|i rest IH]; intros st0 st Hrun; cbn [clean_loop] in Hrun.
  - left. inversion Hrun; reflexivity.
  - destruct (clean_body amps psf gain i st0) as [[st1|st1]|e] eqn:Hb;
      cbn [bind] in Hrun; try discriminate.
    + destruct (IH _ _ Hrun) as [Hc|(a & i' & b & st2 & Hit & Hc & Hbrk)].
      * left. cbn [completed]. rewrite Hb. exact Hc.
      * right. exists (i :: a), i', b, st2. repeat split.
        -- rewrite Hit. reflexivity.
        -- cbn [completed]. rewrite Hb. exact Hc.
        -- exact Hbrk.
    + inversion Hrun; subst st1. right. exists [], i, rest, st0.
      repeat split. exact Hb.
Qed.

Lemma clean_body_break_state (i : Z) (st st' : clean_state) :
  clean_body amps psf gain i st = Ok (Break st') ->
  st' = mkState (clean_components st) (residual st)
          (log st ++ [Warning "EEK, divide by zero for iter = %i!" i]).
Proof.
  unfold clean_body.
  destruct (find_peak amps (residual st)) as [idx|]; cbn [bind]; [|discriminate].
  destruct (getitem (residual st) idx); cbn [bind]; [|discriminate].
  destruct (getitem psf (idx * 2)%Z); cbn [bind]; [|discriminate].
  destruct (peak_amplitude _ _) as [[aRe aIm]|].
  - destruct (getitem (clean_components st) idx); cbn [bind]; [|discriminate].
    destruct (setitem _ _ _); cbn [bind]; [|discriminate].
    destruct (sub_vector _ _ _ _ _ _ _); cbn [bind]; [|discriminate].
    destruct (inplace2 _ _ _); cbn [bind]; discriminate.
  - intros H; inversion H; reflexivity.
Qed.

(** A number of iterations that is zero or negative leaves the start
    state: no component, the residual equal to the dirty spectrum, an empty
    log, whatever the arrays are. *)
Lemma clean_no_iterations (num_iter : Z) :
  (num_iter <= 0)%Z -> clean amps psf gain num_iter = Ok (clean_init amps).
Proof.
  intros Hn. unfold clean. rewrite range_nonpositive by exact Hn. reflexivity.
Qed.

(** X1.  A PSF with at most [2 * (len(amps) // 2)] entries is too short for
    the lookup [psf[idx_max * 2]]: with a spectrum that is not empty the
    first iteration raises [IndexError]. *)
Theorem clean_short_psf (num_iter : Z) :
  (1 <= num_iter)%Z -> (1 <= len amps)%Z -> (len psf <= 2 * (len amps / 2))%Z ->
  clean amps psf gain num_iter = Raise IndexError.
Proof.
  intros Hn HM Hshort.
  destruct (range_positive num_iter Hn) as (rest & Hr).
  unfold clean. rewrite Hr. cbn [clean_loop]. unfold clean_body.
  cbn [residual].
  assert (Hhalf : (0 <= len amps / 2 < len amps)%Z).
  { split; [apply Z.div_pos; lia | apply Z.div_lt_upper_bound; lia]. }
  destruct (find_peak_spec amps amps) as (idx & Hfp & Hidx & _); [lia|].
  rewrite Hfp. cbn [bind].
  rewrite (getitem_in_range _ _ C0) by lia. cbn [bind].
  unfold getitem at 1.
  destruct (Z.ltb_spec (idx * 2) 0); [lia|].
  destruct (Z.leb_spec 0 (idx * 2)); [|lia].
  destruct (Z.ltb_spec (idx * 2) (len psf)); [lia|].
  reflexivity.
Qed.

End CleanEdges.

(** With an empty spectrum the peak search has nothing to search:
    one iteration or more raises [ValueError], for any PSF and gain. *)
Lemma clean_empty_spectrum (psf : list complex) (gain : R) (num_iter : Z) :
  (1 <= num_iter)%Z -> clean [] psf gain num_iter = Raise ValueError.
Proof.
  intros Hn. destruct (range_positive num_iter Hn) as (rest & Hr).
  unfold clean. rewrite Hr. reflexivity.
Qed.

Section CleanLog.
Local Open Scope R_scope.

Variable amps : list complex.
Variable psf : list complex.
Variable gain : R.

Lemma in_range_bounds (n i : Z) : In i (range n) -> (0 <= i < n)%Z.
Proof.
  unfold range, range2. intros Hin. apply in_map_iff in Hin.
  destruct Hin as (k & <- & Hk). apply in_seq in Hk. lia.
Qed.

Lemma range_prefix (n n' : Z) : (n <= n')%Z -> exists more, range n' = range n ++ more.
Proof.
  intros Hle. unfold range, range2. rewrite !Z.sub_0_r.
  destruct (Z.le_gt_cases n 0) as [Hn|Hn].
  - replace (Z.to_nat n) with 0%nat by lia. eexists; reflexivity.
  - replace (Z.to_nat n') with (Z.to_nat n + (Z.to_nat n' - Z.to_nat n))%nat by lia.
    rewrite seq_app, map_app. eexists; reflexivity.
Qed.

Lemma seq_decompose (a b : list Z) (i : Z) :
  forall s m : nat,
    map Z.of_nat (seq s m) = a ++ i :: b ->
    a = map Z.of_nat (seq s (length a)) /\ i = Z.of_nat (s + length a).
Proof.
  induction a as [|x a IH]; intros s m H.
  - destruct m as [|m]; [discriminate|]. cbn [seq map app] in H.
    inversion H. split; [reflexivity|]. f_equal. cbn [length]. lia.
  - destruct m as [|m]; [discriminate|]. cbn [seq map app] in H.
    inversion H as [[Hx Hrest]]. destruct (IH (S s) m Hrest) as [Ha Hi].
    split.
    + cbn [length seq map]. rewrite <- Ha. reflexivity.
    + rewrite Hi. f_equal. cbn [length]. lia.
Qed.

(** The iterations before an iteration [i] of [range(n)] are [range(i)]. *)
Lemma range_decompose (n : Z) (a b : list Z) (i : Z) :
  range n = a ++ i :: b -> a = range i /\ (0 <= i < n)%Z.
Proof.
  intros H. split.
  - unfold range, range2 in H. rewrite Z.sub_0_r in H.
    destruct (seq_decompose a b i 0 (Z.to_nat n) H) as [Ha Hi].
    rewrite Nat.add_0_l in Hi. subst i. rewrite range_of_nat. exact Ha.
  - apply in_range_bounds. rewrite H. apply in_or_app. right. left. reflexivity.
Qed.

(** X2.  A run that returns has logged nothing, and then every iteration
    ran to its end, or it has logged exactly one warning, and the warning
    carries the index [i] of the iteration that left the loop: the
    iterations [0 .. i-1] ran to their end and iteration [i] is the one
    that took the [break]. *)
Theorem clean_log_one_warning (num_iter : Z) (st : clean_state) :
  clean amps psf gain num_iter = Ok st ->
  (log st = [] /\
   completed amps psf gain (range num_iter) (mkState (zeros_like amps) amps [])
   = Some st) \/
  exists i st1,
    (0 <= i < num_iter)%Z /\
    completed amps psf gain (range i) (mkState (zeros_like amps) amps []) = Some st1 /\
    clean_body amps psf gain i st1 = Ok (Break st) /\
    log st = [Warning "EEK, divide by zero for iter = %i!" i].
Proof.
  unfold clean. intros Hrun.
  destruct (clean_loop_outcome amps psf gain _ _ _ Hrun)
    as [Hc|(a & i & b & st1 & Hit & Hc & Hbrk)].
  - left. split; [|exact Hc]. apply (completed_log _ _ _ _ _ _ Hc).
  - right. destruct (range_decompose _ _ _ _ Hit) as [Ha Hi]. subst a.
    exists i, st1. split; [exact Hi|]. split; [exact Hc|]. split; [exact Hbrk|].
    rewrite (clean_body_break_state amps psf gain _ _ _ Hbrk). cbn [log].
    rewrite (completed_log _ _ _ _ _ _ Hc). reflexivity.
Qed.

(** X3.  Once a run has left the loop with a warning, asking for more
    iterations changes nothing: every larger [num_iter] returns the same
    components, residual and log. *)
Theorem clean_stable_after_break (num_iter num_iter' : Z) (st : clean_state) :
  clean amps psf gain num_iter = Ok st ->
  log st <> [] ->
  (num_iter <= num_iter')%Z ->
  clean amps psf gain num_iter' = Ok st.
Proof.
  unfold clean. intros Hrun Hlog Hle.
  destruct (clean_loop_outcome amps psf gain _ _ _ Hrun)
    as [Hc|(a & i & b & st1 & Hit & Hc & Hbrk)].
  - exfalso. apply Hlog. apply (completed_log _ _ _ _ _ _ Hc).
  - destruct (range_prefix num_iter num_iter' Hle) as (more & Hmore).
    rewrite Hmore, Hit, <- app_assoc.
    rewrite (completed_clean_loop _ _ _ _ _ _ _ Hc).
    cbn [app clean_loop]. rewrite Hbrk. reflexivity.
Qed.

End CleanLog.

Section CleanComponents.
Local Open Scope R_scope.

Variable amps : list complex.
Variable psf : list complex.
Variable gain : R.

Lemma nth_range (n j : nat) : (j < n)%nat -> nth j (range (Z.of_nat n)) 0%Z = Z.of_nat j.
Proof.
  intros Hj. rewrite range_of_nat.
  rewrite (nth_map_in_range Z.of_nat _ _ _ 0%nat) by (rewrite length_seq; exact Hj).
  rewrite seq_nth by exact Hj. reflexivity.
Qed.

Lemma nth_map_combine {A B X : Type} (f : A -> B -> X) (a : list A) (b : list B)
      (i : nat) (d : X) (da : A) (db : B) :
  (i < length a)%nat -> length b = length a ->
  nth i (map (fun p => f (fst p) (snd p)) (combine a b)) d = f (nth i a da) (nth i b db).
Proof.
  intros Hi Hlen.
  rewrite (nth_map_in_range _ _ _ _ (da, db))
    by (rewrite length_combine, Hlen, Nat.min_id; exact Hi).
  rewrite combine_nth by (symmetry; exact Hlen). reflexivity.
Qed.

(** The entries of [sub], by index. *)
Lemma nth_sub (idx_max : Z) (aRe aIm : R) (j : nat) :
  (j < length amps)%nat ->
  nth j (map (sub_at amps psf gain idx_max aRe aIm) (range (len amps))) C0
  = sub_at amps psf gain idx_max aRe aIm (Z.of_nat j).
Proof.
  intros Hj.
  rewrite (nth_map_in_range _ _ _ _ 0%Z)
    by (rewrite range_length; unfold len; lia).
  unfold len. rewrite nth_range by exact Hj. reflexivity.
Qed.

(** The loop keeps the shapes and never writes a component below the
    centre. *)
Lemma clean_loop_lower_half (iters : list Z) :
  psf_sized amps psf ->
  forall st,
    shaped amps st ->
    (forall j, (j < Z.to_nat (len amps / 2))%nat -> nth j (clean_components st) C0 = C0) ->
    exists st',
      clean_loop amps psf gain iters st = Ok st' /\
      shaped amps st' /\
      forall j, (j < Z.to_nat (len amps / 2))%nat -> nth j (clean_components st') C0 = C0.
Proof.
  intros Hsz. induction iters as [|i rest IH]; intros st Hsh Hlow.
  - exists st. repeat split; try assumption; apply Hsh.
  - destruct (clean_body_closed amps psf gain i st Hsz Hsh)
      as (idx & _ & Hidx & _ & _ & Hcase).
    cbn [clean_loop].
    destruct (peak_amplitude _ _) as [[aRe aIm]|].
    + destruct Hcase as [Hbody _].
      destruct (clean_body_continue_shaped amps psf gain i st _ Hsz Hsh Hbody) as [Hsh' _].
      rewrite Hbody. cbn [bind]. apply IH; [exact Hsh'|].
      intros j Hj. cbn [clean_components].
      destruct Hsh as [Hc _].
      assert (Hh : (0 <= len amps / 2)%Z) by (apply Z.div_pos; unfold len; lia).
      assert (HM : len amps = Z.of_nat (length amps)) by reflexivity.
      rewrite nth_replace_nth by lia.
      destruct (Nat.eqb_spec j (Z.to_nat idx)); [lia|]. apply Hlow. exact Hj.
    + destruct Hcase as [Hbody _]. rewrite Hbody. cbn [bind].
      eexists; split; [reflexivity|]. split; [exact Hsh | exact Hlow].
Qed.

(** X4.  With a PSF of the matching size a run returns arrays of the shape
    of the dirty spectrum, and every component below the centre index
    [len(amps) // 2] is still zero: components are only placed at
    non-negative frequencies. *)
Theorem clean_components_upper_half (num_iter : Z) :
  psf_sized amps psf ->
  exists st,
    clean amps psf gain num_iter = Ok st /\
    length (clean_components st) = length amps /\
    length (residual st) = length amps /\
    forall j, (j < Z.to_nat (len amps / 2))%nat -> nth j (clean_components st) C0 = C0.
Proof.
  intros Hsz. unfold clean.
  destruct (clean_loop_lower_half (range num_iter) Hsz _ (init_shaped amps))
    as (st & Hrun & [Hc Hr] & Hlow).
  - intros j Hj. cbn [clean_components]. unfold zeros_like.
    destruct (Nat.lt_ge_cases j (length amps)) as [Hlt|Hge].
    + rewrite (nth_map_in_range _ _ _ _ C0) by exact Hlt. reflexivity.
    + apply nth_overflow. rewrite length_map. exact Hge.
  - exists st. repeat split; assumption.
Qed.

(** X5.  An iteration whose coupling [psf[idx_max * 2]] is a real number
    [m >= 0], [m <> 1], with a PSF whose centre is 1, removes the fraction
    [gain] of the residual at the peak: the new residual there is
    [(1 - gain)] times the old one. *)
Theorem clean_body_peak_reduction (i : Z) (st : clean_state) (idx_max : Z) (m : R) :
  psf_sized amps psf -> shaped amps st ->
  nth (Z.to_nat (len amps - 1)) psf C0 = mkC 1 0 ->
  find_peak amps (residual st) = Ok idx_max ->
  nth (Z.to_nat (idx_max * 2)) psf C0 = mkC m 0 ->
  0 <= m -> m <> 1 ->
  exists st',
    clean_body amps psf gain i st = Ok (Continue st') /\
    nth (Z.to_nat idx_max) (residual st') C0
    = Cmul (RtoC (1 - gain)) (nth (Z.to_nat idx_max) (residual st) C0).
Proof.
  intros Hsz Hsh Hcentre Hfp Hp Hm0 Hm1.
  destruct (clean_body_closed amps psf gain i st Hsz Hsh)
    as (idx & Hfp' & Hidx & _ & _ & _).
  rewrite Hfp in Hfp'. inversion Hfp'; subst idx.
  assert (Hi0 : (0 <= idx_max < Z.of_nat (length amps))%Z).
  { assert (0 <= len amps / 2)%Z by (apply Z.div_pos; unfold len; lia).
    unfold len in *. lia. }
  clear Hidx.
  set (r := nth (Z.to_nat idx_max) (residual st) C0).
  assert (Htemp : 1 - np_abs (mkC m 0) ^ 2 <> 0).
  { rewrite np_abs_real_nonneg by exact Hm0. intros E.
    assert (Hsq : (1 - m) * (1 + m) = 0) by lra.
    apply Rmult_integral in Hsq. lra. }
  pose proof (peak_amplitude_nonzero r (mkC m 0) Htemp) as Hpa.
  rewrite np_abs_real_nonneg in Hpa by exact Hm0.
  rewrite <- Hp in Hpa at 1.
  destruct (clean_body_continue_at amps psf gain i st idx_max _ _ Hsz Hsh Hfp Hpa)
    as [Hbody _].
  eexists; split; [exact Hbody|]. cbn [residual].
  destruct Hsh as [_ Hr].
  rewrite (nth_map_combine Csub _ _ _ C0 C0 C0)
    by (try rewrite length_map, range_length; unfold len in *; lia).
  pose proof (nth_sub idx_max (real r / (1 + m)) (imag r / (1 - m)) (Z.to_nat idx_max))
    as Hsub.
  rewrite Hsub by (unfold len in *; lia).
  unfold sub_at, freqs_size. rewrite Z2Nat.id by lia.
  replace (idx_max - idx_max + (len amps - 1))%Z with (len amps - 1)%Z by lia.
  replace (idx_max + idx_max)%Z with (idx_max * 2)%Z by lia.
  rewrite Hcentre, Hp. fold r.
  apply complex_eq; simpl; field; lra.
Qed.

End CleanComponents.

Section CleanHermitian.
Local Open Scope R_scope.

Variable amps : list complex.
Variable psf : list complex.
Variable gain : R.

Lemma sub_entry_conj (aRe aIm g : R) (w1 w2 : complex) :
  Cmul (sub_entry aRe aIm (Cconj w2) (Cconj w1)) (RtoC g)
  = Cconj (Cmul (sub_entry aRe aIm w1 w2) (RtoC g)).
Proof. apply complex_eq; simpl; ring. Qed.

(** With a Hermitian PSF the vector [sub] is Hermitian. *)
Lemma sub_hermitian (idx_max : Z) (aRe aIm : R) :
  psf_sized amps psf -> hermitian psf ->
  (0 <= idx_max < len amps)%Z ->
  hermitian (map (sub_at amps psf gain idx_max aRe aIm) (range (len amps))).
Proof.
  intros Hsz Hpsf Hidx i Hi.
  rewrite length_map, range_length in *. unfold len in Hi. rewrite Nat2Z.id in Hi.
  unfold len at 1. rewrite Nat2Z.id.
  rewrite !nth_sub by lia.
  unfold sub_at, freqs_size. unfold psf_sized in Hsz. unfold len in *.
  set (A' := Z.to_nat (Z.of_nat i - idx_max + (Z.of_nat (length amps) - 1))).
  set (B' := Z.to_nat (Z.of_nat i + idx_max)).
  replace (Z.to_nat (Z.of_nat (length amps - 1 - i) - idx_max
                     + (Z.of_nat (length amps) - 1)))
    with (length psf - 1 - B')%nat by (unfold B'; lia).
  replace (Z.to_nat (Z.of_nat (length amps - 1 - i) + idx_max))
    with (length psf - 1 - A')%nat by (unfold A'; lia).
  rewrite (Hpsf B') by (unfold B'; lia).
  rewrite (Hpsf A') by (unfold A'; lia).
  apply sub_entry_conj.
Qed.

Lemma vsub_hermitian (r s : list complex) :
  length s = length r -> hermitian r -> hermitian s ->
  hermitian (map (fun p => Csub (fst p) (snd p)) (combine r s)).
Proof.
  intros Hlen Hr Hs i Hi.
  rewrite length_map, length_combine, Hlen, Nat.min_id in *.
  rewrite !(nth_map_combine Csub _ _ _ C0 C0 C0) by lia.
  rewrite (Hr i) by exact Hi.
  pose proof (Hs i) as Hsi. rewrite Hlen in Hsi. rewrite Hsi by exact Hi.
  apply complex_eq; simpl; ring.
Qed.

Lemma clean_loop_hermitian (iters : list Z) :
  psf_sized amps psf -> hermitian psf ->
  forall st,
    shaped amps st -> hermitian (residual st) ->
    exists st', clean_loop amps psf gain iters st = Ok st' /\ hermitian (residual st').
Proof.
  intros Hsz Hpsf. induction iters as [|i rest IH]; intros st Hsh Hres.
  - exists st. split; [reflexivity | exact Hres].
  - destruct (clean_body_closed amps psf gain i st Hsz Hsh)
      as (idx & _ & Hidx & _ & _ & Hcase).
    assert (Hi0 : (0 <= idx < len amps)%Z).
    { assert (0 <= len amps / 2)%Z by (apply Z.div_pos; unfold len; lia). lia. }
    cbn [clean_loop].
    destruct (peak_amplitude _ _) as [[aRe aIm]|].
    + destruct Hcase as [Hbody _].
      destruct (clean_body_continue_shaped amps psf gain i st _ Hsz Hsh Hbody) as [Hsh' _].
      rewrite Hbody. cbn [bind]. apply IH; [exact Hsh'|].
      cbn [residual]. destruct Hsh as [_ Hr]. apply vsub_hermitian.
      * rewrite length_map, range_length. unfold len. lia.
      * exact Hres.
      * apply sub_hermitian; assumption.
    + destruct Hcase as [Hbody _]. rewrite Hbody. cbn [bind].
      eexists; split; [reflexivity | exact Hres].
Qed.

(** X6.  With a Hermitian PSF of the matching size and a Hermitian dirty
    spectrum, the residual is Hermitian after any number of iterations: the
    half of the negative frequencies, which the peak search never reads,
    stays the mirror image of the other half. *)
Theorem clean_residual_hermitian (num_iter : Z) :
  psf_sized amps psf -> hermitian psf -> hermitian amps ->
  exists st, clean amps psf gain num_iter = Ok st /\ hermitian (residual st).
Proof.
  intros Hsz Hpsf Hamps. unfold clean.
  apply clean_loop_hermitian; try assumption. apply init_shaped.
Qed.

End CleanHermitian.

(** ** More on the two spectra: symmetry, centre, size, failure *)

Section SpectrumSymmetry.
Local Open Scope R_scope.

Lemma Cconj_add a b : Cconj (Cadd a b) = Cadd (Cconj a) (Cconj b).
Proof. apply complex_eq; simpl; ring. Qed.

Lemma Cconj_C0 : Cconj C0 = C0.
Proof. apply complex_eq; simpl; ring. Qed.

Lemma Cconj_div_real a (n : R) : Cconj (Cdiv a (RtoC n)) = Cdiv (Cconj a) (RtoC n).
Proof. apply complex_eq; simpl; unfold Rdiv; ring. Qed.

Lemma np_sum_conj (l : list complex) : np_sum (map Cconj l) = Cconj (np_sum l).
Proof.
  rewrite !np_sum_fold_right.
  induction l as [|x l IH]; simpl.
  - symmetry. apply Cconj_C0.
  - rewrite IH. symmetry. apply Cconj_add.
Qed.

Lemma expi_neg (theta : R) : expi (- theta) = Cconj (expi theta).
Proof. unfold expi, Cconj; simpl. rewrite cos_neg, sin_neg. reflexivity. Qed.

(** The phase factors of [-f] are the conjugates of those of [f]. *)
Lemma phase_of_neg (f : R) (times : list R) :
  phase_of (- f) times = map Cconj (phase_of f times).
Proof.
  rewrite !phase_of_expi, map_map. apply map_ext. intros t.
  rewrite <- expi_neg. f_equal. ring.
Qed.

Lemma weighted_terms_conj (V : list R) (ph : list complex) :
  map (fun p => Cmul (RtoC (fst p)) (snd p)) (combine V (map Cconj ph))
  = map Cconj (map (fun p => Cmul (RtoC (fst p)) (snd p)) (combine V ph)).
Proof.
  revert ph. induction V as [|v V IH]; intros [|z ph]; simpl; try reflexivity.
  rewrite IH. f_equal. apply complex_eq; simpl; ring.
Qed.

Lemma weighted_sum_neg (times values : list R) (f : R) :
  weighted_sum times values (- f) = Cconj (weighted_sum times values f).
Proof.
  unfold weighted_sum. rewrite phase_of_neg, weighted_terms_conj. apply np_sum_conj.
Qed.

(** A grid from [-K] to [K]: the frequency at [len - 1 - i] is the
    opposite of the frequency at [i]. *)
Lemma freq_grid_mirror (K : Z) (freq_inc : R) (i : nat) :
  (0 <= K)%Z -> (i < Z.to_nat (2 * K + 1))%nat ->
  nth (Z.to_nat (2 * K + 1) - 1 - i) (freq_grid (- K) (K + 1) freq_inc) 0
  = - nth i (freq_grid (- K) (K + 1) freq_inc) 0.
Proof.
  intros HK Hi. rewrite !freq_grid_nth by lia.
  replace (- K + Z.of_nat (Z.to_nat (2 * K + 1) - 1 - i))%Z
    with (- (- K + Z.of_nat i))%Z by lia.
  rewrite opp_IZR. ring.
Qed.

(** An array [g(f)] over a grid from [-K] to [K] with [g(-f) = conj(g(f))]
    is Hermitian. *)
Lemma map_grid_hermitian (g : R -> complex) (K : Z) (freq_inc : R) :
  (forall f, g (- f) = Cconj (g f)) ->
  hermitian (map g (freq_grid (- K) (K + 1) freq_inc)).
Proof.
  intros Hg i Hi. rewrite length_map, freq_grid_length in *.
  destruct (Z.lt_ge_cases K 0) as [Hneg|HK]; [lia|].
  replace (Z.to_nat (K + 1 - - K)) with (Z.to_nat (2 * K + 1)) in * by lia.
  rewrite !(nth_map_in_range g _ _ _ 0) by (rewrite freq_grid_length; lia).
  rewrite freq_grid_mirror by lia. apply Hg.
Qed.

Lemma dirty_spectrum_hermitian_closed (K : Z) (freq_inc : R) (times values : list R) :
  hermitian (div_size
               (map (fun f => Cadd C0 (weighted_sum times values f))
                    (freq_grid (- K) (K + 1) freq_inc)) times).
Proof.
  unfold div_size. rewrite map_map. apply map_grid_hermitian.
  intros f. rewrite weighted_sum_neg, Cconj_div_real, Cconj_add, Cconj_C0. reflexivity.
Qed.

Lemma psf_spectrum_hermitian_closed (K : Z) (freq_inc : R) (times : list R) :
  hermitian (div_size
               (map (fun f => Cadd C0 (np_sum (phase_of f times)))
                    (freq_grid (- K * 2) (K * 2 + 1) freq_inc)) times).
Proof.
  unfold div_size. rewrite map_map.
  replace (- K * 2)%Z with (- (K * 2))%Z by lia.
  apply map_grid_hermitian.
  intros f. rewrite phase_of_neg, np_sum_conj, Cconj_div_real, Cconj_add, Cconj_C0.
  reflexivity.
Qed.

(** X7.  Both spectra are Hermitian: the entry of the frequency [-f] is the
    complex conjugate of the entry of [f], for every set of real samples
    and every grid. *)
Theorem spectra_hermitian (num_freqs : Z) (freq_inc : R) (times values : list R) :
  length values = length times ->
  exists amps psf,
    dirty_spectrum num_freqs freq_inc times values = Ok amps /\
    psf_spectrum num_freqs freq_inc times = Ok psf /\
    hermitian amps /\ hermitian psf.
Proof.
  intros Hlen.
  rewrite dirty_spectrum_closed by exact Hlen. rewrite psf_spectrum_closed.
  eexists; eexists. split; [reflexivity|]. split; [reflexivity|].
  split; [apply dirty_spectrum_hermitian_closed | apply psf_spectrum_hermitian_closed].
Qed.

End SpectrumSymmetry.

Section SpectrumCentre.
Local Open Scope R_scope.

Lemma expi_0 : expi 0 = mkC 1 0.
Proof. unfold expi. rewrite cos_0, sin_0. reflexivity. Qed.

(** At frequency 0 every phase factor is 1. *)
Lemma phase_of_zero (times : list R) :
  phase_of 0 times = map (fun _ => mkC 1 0) times.
Proof.
  rewrite phase_of_expi. apply map_ext. intros t.
  replace (- (2 * PI * 0 * t)) with 0 by ring. apply expi_0.
Qed.

Lemma np_sum_ones (times : list R) :
  np_sum (map (fun _ => mkC 1 0) times) = mkC (INR (length times)) 0.
Proof.
  rewrite np_sum_fold_right.
  induction times as [|t times IH].
  - reflexivity.
  - cbn [map fold_right]. rewrite IH. cbn [length]. rewrite S_INR.
    apply complex_eq; simpl; ring.
Qed.

Lemma weighted_sum_zero (times values : list R) :
  length values = length times ->
  weighted_sum times values 0 = mkC (fold_right Rplus 0 values) 0.
Proof.
  intros Hlen. unfold weighted_sum. rewrite phase_of_zero, np_sum_fold_right.
  revert times Hlen. induction values as [|v values IH]; intros [|t times] Hlen;
    simpl in *; try reflexivity; try discriminate.
  rewrite (IH times) by lia. apply complex_eq; simpl; ring.
Qed.

(** The quotients of line 95 and line 105 at frequency 0, over the reals. *)
Lemma Cdiv_real_count (s : R) (n : nat) :
  (1 <= n)%nat -> Cdiv (mkC s 0) (RtoC (INR n)) = mkC (s / INR n) 0.
Proof.
  intros Hn.
  assert (Hn' : INR n <> 0) by (apply not_0_INR; lia).
  apply complex_eq; simpl; field; exact Hn'.
Qed.

(** X8.  The entries at frequency 0, with [N >= 1] samples.  Every phase
    factor is [exp(0) = 1], so before the division the centre of the PSF is
    the sample count [N] and the centre of the dirty spectrum is the sum of
    the values, both with imaginary part 0; lines 95 and 105 divide them by
    [N].  In the exact arithmetic of the model the two quotients are the
    mean of the values and 1.  (The script divides in floating point, where
    [N / N] is computed as [N * (1 / N)] and is 1 only up to a rounding.) *)
Theorem spectra_centre (num_freqs : Z) (freq_inc : R) (times values : list R) :
  (0 <= num_freqs)%Z -> (1 <= length times)%nat -> length values = length times ->
  exists amps psf,
    dirty_spectrum num_freqs freq_inc times values = Ok amps /\
    psf_spectrum num_freqs freq_inc times = Ok psf /\
    nth (Z.to_nat num_freqs) amps C0
    = Cdiv (mkC (fold_right Rplus 0 values) 0) (RtoC (INR (length times))) /\
    nth (Z.to_nat (2 * num_freqs)) psf C0
    = Cdiv (mkC (INR (length times)) 0) (RtoC (INR (length times))) /\
    Cdiv (mkC (fold_right Rplus 0 values) 0) (RtoC (INR (length times)))
    = mkC (fold_right Rplus 0 values / INR (length times)) 0 /\
    Cdiv (mkC (INR (length times)) 0) (RtoC (INR (length times))) = mkC 1 0.
Proof.
  intros HK HN Hlen.
  rewrite dirty_spectrum_closed by exact Hlen. rewrite psf_spectrum_closed.
  assert (HN' : INR (length times) <> 0) by (apply not_0_INR; lia).
  eexists; eexists. split; [reflexivity|]. split; [reflexivity|].
  split; [|split; [|split]].
  - unfold div_size. rewrite map_map.
    rewrite (nth_map_in_range _ _ _ _ 0) by (rewrite freq_grid_length; lia).
    rewrite freq_grid_nth by lia.
    replace (- num_freqs + Z.of_nat (Z.to_nat num_freqs))%Z with 0%Z by lia.
    rewrite Rmult_0_l, weighted_sum_zero by exact Hlen.
    rewrite Cadd_C0_l. reflexivity.
  - unfold div_size. rewrite map_map.
    rewrite (nth_map_in_range _ _ _ _ 0) by (rewrite freq_grid_length; lia).
    rewrite freq_grid_nth by lia.
    replace (- num_freqs * 2 + Z.of_nat (Z.to_nat (2 * num_freqs)))%Z with 0%Z by lia.
    rewrite Rmult_0_l, phase_of_zero, np_sum_ones.
    rewrite Cadd_C0_l. reflexivity.
  - apply Cdiv_real_count. exact HN.
  - rewrite Cdiv_real_count by exact HN. f_equal. field. exact HN'.
Qed.

(** X9.  Sample arrays of different lengths, neither of length one, cannot
    be multiplied: with a grid that is not empty the dirty spectrum raises
    [ValueError] at the first frequency. *)
Theorem dirty_spectrum_length_mismatch (num_freqs : Z) (freq_inc : R)
        (times values : list R) :
  (0 <= num_freqs)%Z ->
  length values <> length times ->
  length values <> 1%nat -> length times <> 1%nat ->
  dirty_spectrum num_freqs freq_inc times values = Raise ValueError.
Proof.
  intros HK Hne Hv1 Ht1. unfold dirty_spectrum. rewrite enumerate_seq.
  set (freqs := freq_grid (- num_freqs) (num_freqs + 1) freq_inc).
  assert (Hfl : (1 <= length freqs)%nat).
  { unfold freqs. rewrite freq_grid_length. lia. }
  destruct freqs as [|f freqs]; [simpl in Hfl; lia|].
  cbn [length seq map combine zeros_like amps_loop].
  unfold broadcast2. rewrite phase_of_length.
  destruct (Nat.eqb_spec (length values) (length times)) as [E|_]; [contradiction|].
  pose proof (phase_of_length f times) as Hph.
  destruct values as [|v [|v' values]]; destruct (phase_of f times) as [|z [|z' ph]];
    simpl in *; try reflexivity; try congruence; try lia.
Qed.

(** X10.  A negative [num_freqs] gives two empty spectra without an
    exception, and the CLEAN loop then has no peak to find: one iteration
    or more raises [ValueError]. *)
Theorem negative_num_freqs (num_freqs : Z) (freq_inc : R) (times values : list R)
        (gain : R) (num_iter : Z) :
  (num_freqs < 0)%Z -> (1 <= num_iter)%Z ->
  dirty_spectrum num_freqs freq_inc times values = Ok [] /\
  psf_spectrum num_freqs freq_inc times = Ok [] /\
  clean [] [] gain num_iter = Raise ValueError.
Proof.
  intros HK Hn.
  assert (Hg1 : freq_grid (- num_freqs) (num_freqs + 1) freq_inc = []).
  { unfold freq_grid, arange, range2.
    replace (Z.to_nat (num_freqs + 1 - - num_freqs)) with 0%nat by lia. reflexivity. }
  assert (Hg2 : freq_grid (- num_freqs * 2) (num_freqs * 2 + 1) freq_inc = []).
  { unfold freq_grid, arange, range2.
    replace (Z.to_nat (num_freqs * 2 + 1 - - num_freqs * 2)) with 0%nat by lia.
    reflexivity. }
  unfold dirty_spectrum, psf_spectrum. rewrite Hg1, Hg2.
  repeat split.
  destruct (range_positive num_iter Hn) as (rest & Hr).
  unfold clean. rewrite Hr. reflexivity.
Qed.

End SpectrumCentre.

Section SpectrumBound.
Local Open Scope R_scope.

(** The triangle inequality of the magnitude. *)
Lemma np_abs_triangle (a b : complex) : np_abs (Cadd a b) <= np_abs a + np_abs b.
Proof.
  pose proof (np_abs_nonneg a) as Ha. pose proof (np_abs_nonneg b) as Hb.
  pose proof (np_abs_sqr a) as Ha2. pose proof (np_abs_sqr b) as Hb2.
  set (A := np_abs a) in *. set (B := np_abs b) in *.
  destruct a as [a1 a2], b as [b1 b2]. cbn [real imag] in Ha2, Hb2.
  unfold np_abs, Cadd; cbn [real imag].
  rewrite <- (sqrt_square (A + B)) by lra.
  apply sqrt_le_1_alt.
  assert (Hcs : a1 * b1 + a2 * b2 <= A * B).
  { destruct (Rle_dec (a1 * b1 + a2 * b2) 0) as [Hneg|Hpos].
    - apply Rle_trans with 0; [exact Hneg | apply Rmult_le_pos; assumption].
    - apply Rnot_le_lt in Hpos.
      apply Rnot_lt_le. intros Hlt.
      assert (Hsq : (a1 * b1 + a2 * b2) ^ 2 <= (A * B) ^ 2).
      { replace ((A * B) ^ 2) with (A ^ 2 * B ^ 2) by ring.
        rewrite Ha2, Hb2.
        assert (0 <= (a1 * b2 - a2 * b1) ^ 2) by apply pow2_ge_0.
        nra. }
      assert (HAB : 0 <= A * B) by (apply Rmult_le_pos; assumption).
      nra. }
  nra.
Qed.

Lemma np_abs_expi (theta : R) : np_abs (expi theta) = 1.
Proof.
  unfold np_abs, expi; simpl.
  replace (cos theta * cos theta + sin theta * sin theta) with 1.
  - apply sqrt_1.
  - pose proof (sin2_cos2 theta) as H. unfold Rsqr in H. lra.
Qed.

Lemma np_abs_C0 : np_abs C0 = 0.
Proof. unfold C0. apply np_abs_real_nonneg. lra. Qed.

(** A sum of [N] phase factors has magnitude at most [N]. *)
Lemma np_abs_sum_phases (f : R) (times : list R) :
  np_abs (np_sum (phase_of f times)) <= INR (length times).
Proof.
  rewrite phase_of_expi, np_sum_fold_right.
  induction times as [|t times IH].
  - simpl. rewrite np_abs_C0. lra.
  - cbn [map fold_right length]. rewrite S_INR.
    eapply Rle_trans; [apply np_abs_triangle|].
    rewrite np_abs_expi. lra.
Qed.

Lemma np_abs_div_size (z : complex) (n : R) :
  0 < n -> np_abs (Cdiv (Cadd C0 z) (RtoC n)) = np_abs z / n.
Proof.
  intros Hn.
  replace (Cdiv (Cadd C0 z) (RtoC n)) with (mkC (real z / n) (imag z / n))
    by (apply complex_eq; simpl; field; lra).
  unfold np_abs; simpl.
  replace (real z / n * (real z / n) + imag z / n * (imag z / n))
    with ((real z * real z + imag z * imag z) / (n * n)) by (field; lra).
  rewrite sqrt_div_alt by nra.
  rewrite sqrt_square by lra. reflexivity.
Qed.

(** Every entry of the PSF has magnitude at most 1. *)
Lemma psf_entry_bound (f : R) (times : list R) :
  (1 <= length times)%nat ->
  np_abs (Cdiv (Cadd C0 (np_sum (phase_of f times))) (RtoC (INR (length times)))) <= 1.
Proof.
  intros HN.
  assert (HN' : 0 < INR (length times)) by (apply lt_0_INR; lia).
  rewrite np_abs_div_size by exact HN'.
  apply Rmult_le_reg_r with (INR (length times)); [exact HN'|].
  unfold Rdiv. rewrite Rmult_assoc, Rinv_l by lra.
  rewrite Rmult_1_r, Rmult_1_l. apply np_abs_sum_phases.
Qed.

(** X11.  With [N >= 1] samples every entry of the PSF has magnitude at
    most 1, so the denominator [temp = 1 - psf_mag^2] of the CLEAN loop is
    never negative for a PSF that the script computes (in the exact
    arithmetic of the model). *)
Theorem psf_magnitude_bound (num_freqs : Z) (freq_inc : R) (times : list R) :
  (1 <= length times)%nat ->
  exists psf,
    psf_spectrum num_freqs freq_inc times = Ok psf /\
    forall p, In p psf -> np_abs p <= 1 /\ 0 <= 1 - np_abs p ^ 2.
Proof.
  intros HN. rewrite psf_spectrum_closed. eexists; split; [reflexivity|].
  intros p Hp. unfold div_size in Hp. rewrite map_map in Hp.
  apply in_map_iff in Hp. destruct Hp as (f & <- & _).
  pose proof (psf_entry_bound f times HN) as Hb.
  pose proof (np_abs_nonneg
                (Cdiv (Cadd C0 (np_sum (phase_of f times)))
                      (RtoC (INR (length times))))) as H0.
  split; [exact Hb | nra].
Qed.

End SpectrumBound.

(** ** A run on four samples whose peak is off the centre *)

Section FourSamples.
Local Open Scope R_scope.

Lemma expi_eq (a b : R) : a = b -> expi a = expi b.
Proof. intros ->. reflexivity. Qed.

Lemma expi_plus_PI (x : R) : expi (x + PI) = Cneg (expi x).
Proof. unfold expi, Cneg. rewrite neg_cos, neg_sin. reflexivity. Qed.

Lemma expi_plus_2PI (x : R) : expi (x + 2 * PI) = expi x.
Proof.
  unfold expi. rewrite cos_plus, sin_plus, cos_2PI, sin_2PI.
  apply complex_eq; simpl; ring.
Qed.

Lemma expi_half_PI : expi (PI / 2) = mkC 0 1.
Proof. unfold expi. rewrite cos_PI2, sin_PI2. reflexivity. Qed.

Lemma expi_PI : expi PI = mkC (-1) 0.
Proof. unfold expi. rewrite cos_PI, sin_PI. reflexivity. Qed.

Lemma expi_three_half_PI : expi (3 * (PI / 2)) = mkC 0 (-1).
Proof. unfold expi. rewrite cos_3PI2, sin_3PI2. reflexivity. Qed.

Lemma expi_neg_half_PI : expi (- (PI / 2)) = mkC 0 (-1).
Proof. rewrite expi_neg, expi_half_PI. apply complex_eq; simpl; ring. Qed.

Lemma expi_neg_PI : expi (- PI) = mkC (-1) 0.
Proof. rewrite expi_neg, expi_PI. apply complex_eq; simpl; ring. Qed.

Lemma expi_neg_three_half_PI : expi (- (3 * (PI / 2))) = mkC 0 1.
Proof. rewrite expi_neg, expi_three_half_PI. apply complex_eq; simpl; ring. Qed.

(** The phase factors of the four sample times at the five grid
    frequencies [-2, -1, 0, 1, 2]. *)

Lemma four_phases_0 :
  phase_of (IZR 0 * 1) four_times = [mkC 1 0; mkC 1 0; mkC 1 0; mkC 1 0].
Proof.
  replace (IZR 0 * 1) with 0 by ring. rewrite phase_of_zero. reflexivity.
Qed.

Lemma four_phases_1 :
  exists z, phase_of (IZR 1 * 1) four_times = [mkC 1 0; mkC 0 (-1); Cneg z; z].
Proof.
  exists (expi (- (2 * PI * (IZR 1 * 1) * (7 / 8)))).
  rewrite phase_of_expi. unfold four_times. cbn [map].
  rewrite (expi_eq (- (2 * PI * (IZR 1 * 1) * 0)) 0) by lra.
  rewrite (expi_eq (- (2 * PI * (IZR 1 * 1) * (1 / 4))) (- (PI / 2))) by lra.
  rewrite (expi_eq (- (2 * PI * (IZR 1 * 1) * (3 / 8)))
                   (- (2 * PI * (IZR 1 * 1) * (7 / 8)) + PI)) by lra.
  rewrite expi_0, expi_neg_half_PI, expi_plus_PI. reflexivity.
Qed.

Lemma four_phases_m1 :
  exists z, phase_of (IZR (-1) * 1) four_times = [mkC 1 0; mkC 0 1; z; Cneg z].
Proof.
  exists (expi (- (2 * PI * (IZR (-1) * 1) * (3 / 8)))).
  rewrite phase_of_expi. unfold four_times. cbn [map].
  rewrite (expi_eq (- (2 * PI * (IZR (-1) * 1) * 0)) 0) by lra.
  rewrite (expi_eq (- (2 * PI * (IZR (-1) * 1) * (1 / 4))) (PI / 2)) by lra.
  rewrite (expi_eq (- (2 * PI * (IZR (-1) * 1) * (7 / 8)))
                   (- (2 * PI * (IZR (-1) * 1) * (3 / 8)) + PI)) by lra.
  rewrite expi_0, expi_half_PI, expi_plus_PI. reflexivity.
Qed.

Lemma four_phases_2 :
  phase_of (IZR 2 * 1) four_times = [mkC 1 0; mkC (-1) 0; mkC 0 1; mkC 0 1].
Proof.
  rewrite phase_of_expi. unfold four_times. cbn [map].
  rewrite <- (expi_plus_2PI (- (2 * PI * (IZR 2 * 1) * (7 / 8)))).
  rewrite (expi_eq (- (2 * PI * (IZR 2 * 1) * 0)) 0) by lra.
  rewrite (expi_eq (- (2 * PI * (IZR 2 * 1) * (1 / 4))) (- PI)) by lra.
  rewrite (expi_eq (- (2 * PI * (IZR 2 * 1) * (3 / 8))) (- (3 * (PI / 2)))) by lra.
  rewrite (expi_eq (- (2 * PI * (IZR 2 * 1) * (7 / 8)) + 2 * PI)
                   (- (3 * (PI / 2)))) by lra.
  rewrite expi_0, expi_neg_PI, expi_neg_three_half_PI. reflexivity.
Qed.

Lemma four_phases_m2 :
  phase_of (IZR (-2) * 1) four_times = [mkC 1 0; mkC (-1) 0; mkC 0 (-1); mkC 0 (-1)].
Proof.
  rewrite phase_of_expi. unfold four_times. cbn [map].
  rewrite (expi_eq (- (2 * PI * (IZR (-2) * 1) * 0)) 0) by lra.
  rewrite (expi_eq (- (2 * PI * (IZR (-2) * 1) * (1 / 4))) PI) by lra.
  rewrite (expi_eq (- (2 * PI * (IZR (-2) * 1) * (3 / 8))) (3 * (PI / 2))) by lra.
  rewrite (expi_eq (- (2 * PI * (IZR (-2) * 1) * (7 / 8)))
                   (3 * (PI / 2) + 2 * PI)) by lra.
  rewrite expi_plus_2PI, expi_0, expi_PI, expi_three_half_PI. reflexivity.
Qed.

(** The dirty spectrum and the PSF of the four samples on the grid of
    spacing 1 with [num_freqs = 1]. *)
Lemma four_samples_dirty_spectrum :
  dirty_spectrum 1 1 four_times four_values
  = Ok [mkC (1 / 4) 0; mkC (- (1 / 4)) 0; mkC (1 / 4) 0].
Proof.
  rewrite dirty_spectrum_closed by reflexivity.
  f_equal. unfold weighted_sum.
  change (freq_grid (- (1)) (1 + 1) 1) with [IZR (-1) * 1; IZR 0 * 1; IZR 1 * 1].
  cbn [map div_size].
  destruct four_phases_m1 as (zm & ->). destruct four_phases_1 as (zp & ->).
  rewrite four_phases_0.
  unfold four_values, four_times.
  cbn [map combine np_sum fold_left fst snd length].
  repeat (apply (f_equal2 (@cons complex)); [apply complex_eq; simpl; field|]);
    reflexivity.
Qed.

Lemma four_samples_psf_spectrum :
  psf_spectrum 1 1 four_times
  = Ok [mkC 0 (- (1 / 2)); mkC (1 / 4) (1 / 4); mkC 1 0;
        mkC (1 / 4) (- (1 / 4)); mkC 0 (1 / 2)].
Proof.
  rewrite psf_spectrum_closed.
  f_equal.
  change (freq_grid (- (1) * 2) (1 * 2 + 1) 1)
    with [IZR (-2) * 1; IZR (-1) * 1; IZR 0 * 1; IZR 1 * 1; IZR 2 * 1].
  cbn [map div_size].
  destruct four_phases_m1 as (zm & ->). destruct four_phases_1 as (zp & ->).
  rewrite four_phases_0, four_phases_2, four_phases_m2.
  unfold four_times.
  cbn [map combine np_sum fold_left fst snd length].
  repeat (apply (f_equal2 (@cons complex)); [apply complex_eq; simpl; field|]);
    reflexivity.
Qed.

Lemma four_samples_find_peak :
  find_peak [mkC (1 / 4) 0; mkC (- (1 / 4)) 0; mkC (1 / 4) 0]
            [mkC (1 / 4) 0; mkC (- (1 / 4)) 0; mkC (1 / 4) 0] = Ok 2%Z.
Proof.
  unfold find_peak.
  change (slice_from [mkC (1 / 4) 0; mkC (- (1 / 4)) 0; mkC (1 / 4) 0]
            (len [mkC (1 / 4) 0; mkC (- (1 / 4)) 0; mkC (1 / 4) 0] / 2))
    with [mkC (- (1 / 4)) 0; mkC (1 / 4) 0].
  cbn [np_argmax argmax_scan].
  rewrite complex_gt_real_lt by (simpl; lra). reflexivity.
Qed.

(** The formulas of step 4 are the real and the imaginary part of
    [res_amp - conj(res_amp) * psf_coupling], divided by [temp]. *)
Lemma spec_peak_amplitude_decoupling (res_amp p : complex) :
  spec_peak_amplitude res_amp p
  = (real (Csub res_amp (Cmul (Cconj res_amp) p)) / (1 - np_abs p ^ 2),
     imag (Csub res_amp (Cmul (Cconj res_amp) p)) / (1 - np_abs p ^ 2)).
Proof.
  unfold spec_peak_amplitude. simpl. f_equal; f_equal; ring.
Qed.

(** C1.  The failing run: the samples 1, 0, -1, -1 taken at the times 0,
    1/4, 3/8, 7/8, on the grid of spacing 1 with [num_freqs = 1], cleaned
    with gain 1 for one iteration.  Lines 90-105 give the dirty spectrum
    [0.25, -0.25, 0.25] and a PSF whose entry at the mirror position
    [psf[idx_max * 2] = psf[4]] is [0.5j].  The peak is [idx_max = 2] with
    [res_amp = 0.25] and [temp = 0.75].  The loop stores the amplitude
    [(1/6, 0)], which is what the magnitude 0.5 gives; the formulas of
    step 4 with the complex coupling [0.5j] give [(1/3, -1/6)]. *)
Theorem coupling_phase_discarded :
  dirty_spectrum 1 1 [0; 1 / 4; 3 / 8; 7 / 8] [1; 0; -1; -1]
  = Ok [mkC (1 / 4) 0; mkC (- (1 / 4)) 0; mkC (1 / 4) 0] /\
  psf_spectrum 1 1 [0; 1 / 4; 3 / 8; 7 / 8]
  = Ok [mkC 0 (- (1 / 2)); mkC (1 / 4) (1 / 4); mkC 1 0;
        mkC (1 / 4) (- (1 / 4)); mkC 0 (1 / 2)] /\
  find_peak [mkC (1 / 4) 0; mkC (- (1 / 4)) 0; mkC (1 / 4) 0]
            [mkC (1 / 4) 0; mkC (- (1 / 4)) 0; mkC (1 / 4) 0] = Ok 2%Z /\
  clean [mkC (1 / 4) 0; mkC (- (1 / 4)) 0; mkC (1 / 4) 0]
        [mkC 0 (- (1 / 2)); mkC (1 / 4) (1 / 4); mkC 1 0;
         mkC (1 / 4) (- (1 / 4)); mkC 0 (1 / 2)] 1 1
  = Ok (mkState [C0; C0; mkC (1 / 6) 0]
          [mkC (1 / 12) (1 / 12); mkC (- (1 / 3)) 0; mkC (1 / 12) (- (1 / 12))]
          []) /\
  peak_amplitude (mkC (1 / 4) 0) (mkC 0 (1 / 2)) = Some (1 / 6, 0) /\
  spec_peak_amplitude (mkC (1 / 4) 0) (mkC 0 (1 / 2)) = (1 / 3, - (1 / 6)) /\
  peak_amplitude (mkC (1 / 4) 0) (mkC 0 (1 / 2))
  <> Some (spec_peak_amplitude (mkC (1 / 4) 0) (mkC 0 (1 / 2))).
Proof.
  set (amps0 := [mkC (1 / 4) 0; mkC (- (1 / 4)) 0; mkC (1 / 4) 0]).
  set (psf0 := [mkC 0 (- (1 / 2)); mkC (1 / 4) (1 / 4); mkC 1 0;
                mkC (1 / 4) (- (1 / 4)); mkC 0 (1 / 2)]).
  assert (Hpa : peak_amplitude (mkC (1 / 4) 0) (mkC 0 (1 / 2)) = Some (1 / 6, 0)).
  { rewrite peak_amplitude_nonzero; rewrite np_abs_imag_nonneg by lra.
    - simpl. f_equal. f_equal; field.
    - lra. }
  assert (Hspec : spec_peak_amplitude (mkC (1 / 4) 0) (mkC 0 (1 / 2))
                  = (1 / 3, - (1 / 6))).
  { unfold spec_peak_amplitude. rewrite np_abs_imag_nonneg by lra.
    simpl. f_equal; field. }
  split; [exact four_samples_dirty_spectrum|].
  split; [exact four_samples_psf_spectrum|].
  split; [exact four_samples_find_peak|].
  split; [|split; [exact Hpa|split; [exact Hspec|]]].
  - assert (Hsz : psf_sized amps0 psf0) by reflexivity.
    unfold clean. change (range 1) with [0%Z]. cbn [clean_loop].
    destruct (clean_body_continue_at amps0 psf0 1 0%Z _ 2%Z (1 / 6) 0 Hsz
                (init_shaped amps0) four_samples_find_peak Hpa) as [Hb _].
    rewrite Hb. cbn [bind]. f_equal.
    change (range (len amps0)) with [0%Z; 1%Z; 2%Z].
    cbn [map combine fst snd residual clean_components log].
    unfold sub_at. eval_indices. unfold amps0, psf0.
    cbn [nth replace_nth zeros_like map combine fst snd].
    f_equal; complex_list_eq.
  - rewrite Hpa, Hspec. intros H. injection H as H1 H2. lra.
Qed.

End FourSamples.

(** ** The parts together: from the samples to the residual *)

Section Pipeline.
Local Open Scope R_scope.

Lemma spectra_psf_sized (K : Z) (freq_inc : R) (times values : list R) :
  (0 <= K)%Z ->
  psf_sized
    (div_size (map (fun f => Cadd C0 (weighted_sum times values f))
                   (freq_grid (- K) (K + 1) freq_inc)) times)
    (div_size (map (fun f => Cadd C0 (np_sum (phase_of f times)))
                   (freq_grid (- K * 2) (K * 2 + 1) freq_inc)) times).
Proof.
  intros HK. unfold psf_sized, len, div_size.
  rewrite !length_map, !freq_grid_length. lia.
Qed.

(** X12.  The spectra that lines 90-105 build from [N >= 1] samples fit
    the CLEAN loop: for every [num_freqs >= 0] and sample arrays of one
    length the PSF has the size the loop needs, the loop returns without an
    exception for every gain and number of iterations, and the residual it
    returns is Hermitian. *)
Theorem pipeline_runs (num_freqs : Z) (freq_inc : R) (times values : list R)
        (gain : R) (num_iter : Z) :
  (0 <= num_freqs)%Z -> (1 <= length times)%nat ->
  length values = length times ->
  exists amps psf st,
    dirty_spectrum num_freqs freq_inc times values = Ok amps /\
    psf_spectrum num_freqs freq_inc times = Ok psf /\
    psf_sized amps psf /\
    clean amps psf gain num_iter = Ok st /\
    hermitian (residual st).
Proof.
  intros HK _ Hlen.
  rewrite dirty_spectrum_closed by exact Hlen. rewrite psf_spectrum_closed.
  pose proof (spectra_psf_sized num_freqs freq_inc times values HK) as Hsz.
  destruct (clean_loop_hermitian _ _ gain (range num_iter) Hsz
              (psf_spectrum_hermitian_closed num_freqs freq_inc times)
              _ (init_shaped _)
              (dirty_spectrum_hermitian_closed num_freqs freq_inc times values))
    as (st & Hrun & Hherm).
  eexists; eexists; exists st.
  split; [reflexivity|]. split; [reflexivity|]. split; [exact Hsz|].
  split; [exact Hrun | exact Hherm].
Qed.

(** X13.  A peak at frequency 0 stops the loop when the centre of the PSF
    is exactly 1.  For a spectrum of [2 K + 1] points and a PSF of the
    matching size whose centre entry [psf[2 K]] is [1 + 0j], an iteration
    that finds the largest residual at the centre index [K] reads that
    entry as its coupling, has [temp = 0], leaves the loop with the warning
    and changes neither array; the iterations after it are not run. *)
Theorem dc_peak_stops_clean (K : Z) (amps psf : list complex) (gain : R)
        (i : Z) (rest : list Z) (st : clean_state) :
  psf_sized amps psf ->
  len amps = (2 * K + 1)%Z ->
  nth (Z.to_nat (2 * K)) psf C0 = mkC 1 0 ->
  shaped amps st ->
  find_peak amps (residual st) = Ok K ->
  clean_loop amps psf gain (i :: rest) st
  = Ok (mkState (clean_components st) (residual st)
          (log st ++ [Warning "EEK, divide by zero for iter = %i!" i])).
Proof.
  intros Hsz HM Hcentre Hsh Hfp.
  cbn [clean_loop].
  rewrite (clean_body_break_at amps psf gain i st K Hsz Hsh Hfp).
  - reflexivity.
  - replace (Z.to_nat (K * 2)) with (Z.to_nat (2 * K)) by (f_equal; lia).
    rewrite Hcentre. apply peak_amplitude_zero.
    rewrite np_abs_real_nonneg by lra. ring.
Qed.

Lemma map_combine_map {A B C X : Type} (h : B -> C -> X) (f : A -> B) (g : A -> C)
      (l : list A) :
  map (fun p => h (fst p) (snd p)) (combine (map f l) (map g l))
  = map (fun x => h (f x) (g x)) l.
Proof. induction l as [|x l IH]; simpl; [reflexivity | now rewrite IH]. Qed.

(** The weighted sum is linear in the values. *)
Lemma weighted_sum_linear (alpha beta : R) (times V W : list R) (f : R) :
  length V = length times -> length W = length times ->
  weighted_sum times (map (fun p => alpha * fst p + beta * snd p) (combine V W)) f
  = Cadd (Cmul (RtoC alpha) (weighted_sum times V f))
         (Cmul (RtoC beta) (weighted_sum times W f)).
Proof.
  intros HV HW. unfold weighted_sum. rewrite !np_sum_fold_right.
  rewrite <- (phase_of_length f times) in HV, HW.
  revert V W HV HW. generalize (phase_of f times) as ph.
  induction ph as [|z ph IH]; intros [|v V] [|w W] HV HW; simpl in *;
    try discriminate.
  - apply complex_eq; simpl; ring.
  - rewrite (IH V W) by lia. apply complex_eq; simpl; ring.
Qed.

(** X14.  The dirty spectrum is linear in the sample values: the spectrum
    of [alpha V + beta W] is [alpha] times the spectrum of [V] plus [beta]
    times the spectrum of [W], entry by entry. *)
Theorem dirty_spectrum_linear (num_freqs : Z) (freq_inc alpha beta : R)
        (times V W : list R) :
  length V = length times -> length W = length times ->
  exists aV aW aVW,
    dirty_spectrum num_freqs freq_inc times V = Ok aV /\
    dirty_spectrum num_freqs freq_inc times W = Ok aW /\
    dirty_spectrum num_freqs freq_inc times
      (map (fun p => alpha * fst p + beta * snd p) (combine V W)) = Ok aVW /\
    aVW = map (fun p => Cadd (Cmul (RtoC alpha) (fst p)) (Cmul (RtoC beta) (snd p)))
              (combine aV aW).
Proof.
  intros HV HW.
  assert (HVW : length (map (fun p => alpha * fst p + beta * snd p) (combine V W))
                = length times).
  { rewrite length_map, length_combine, HV, HW. apply Nat.min_id. }
  rewrite !dirty_spectrum_closed by assumption.
  eexists; eexists; eexists.
  split; [reflexivity|]. split; [reflexivity|]. split; [reflexivity|].
  unfold div_size. rewrite !map_map.
  rewrite (map_combine_map
             (fun x y => Cadd (Cmul (RtoC alpha) x) (Cmul (RtoC beta) y))).
  apply map_ext. intros f.
  rewrite weighted_sum_linear by assumption.
  apply complex_eq; simpl; unfold Rdiv; ring.
Qed.

End Pipeline.

(** ** More on the clean beam and the clean spectrum *)

Section BeamShape.
Local Open Scope R_scope.

Lemma first_true_spec (l : list bool) :
  forall i : Z,
    match first_true l i with
    | Some k =>
        (i <= k < i + len l)%Z /\
        nth (Z.to_nat (k - i)) l false = true /\
        forall j, (j < Z.to_nat (k - i))%nat -> nth j l false = false
    | None => forall j, nth j l false = false
    end.
Proof.
  induction l as [|b l IH]; intros i; cbn [first_true].
  - intros [|j]; reflexivity.
  - destruct b.
    + unfold len; cbn [length]. rewrite Z.sub_diag. repeat split; try lia.
    + specialize (IH (i + 1)%Z). destruct (first_true l (i + 1)%Z) as [k|].
      * destruct IH as (Hk & Hnth & Hbefore). unfold len in *; cbn [length].
        replace (Z.to_nat (k - i)) with (S (Z.to_nat (k - (i + 1)))) by lia.
        repeat split; try lia.
        -- exact Hnth.
        -- intros [|j] Hj; [reflexivity|]. apply Hbefore. lia.
      * intros [|j]; [reflexivity | apply IH].
Qed.

(** The half width is the first index, counted from the centre, at which
    the test holds, and 0 when it holds nowhere. *)
Lemma np_argmax_bool_spec (l : list bool) :
  l <> [] ->
  exists h, np_argmax_bool l = Ok h /\ (0 <= h < len l)%Z /\
            (forall j, (j < Z.to_nat h)%nat -> nth j l false = false) /\
            ((0 < h)%Z -> nth (Z.to_nat h) l false = true).
Proof.
  intros Hl. unfold np_argmax_bool.
  destruct l as [|b l]; [congruence|].
  pose proof (first_true_spec (b :: l) 0%Z) as Hs.
  destruct (first_true (b :: l) 0%Z) as [k|].
  - destruct Hs as (Hk & Hnth & Hbefore). rewrite Z.sub_0_r in *.
    exists k. repeat split; try lia; auto.
  - exists 0%Z. unfold len; cbn [length]. repeat split; try lia.
Qed.

Lemma beam_of_hwhm_length (hwhm : Z) :
  (0 <= hwhm)%Z -> length (beam_of_hwhm hwhm) = Z.to_nat (10 * hwhm + 1).
Proof.
  intros Hh. unfold beam_of_hwhm, arange, range2.
  rewrite !length_map, length_seq. f_equal. lia.
Qed.

(** The clean beam in closed form. *)
Lemma clean_beam_of_closed (psf : list complex) :
  psf <> [] ->
  exists hwhm,
    clean_beam_of psf = Ok (beam_of_hwhm hwhm) /\
    (0 <= hwhm)%Z /\ (len psf / 2 + hwhm < len psf)%Z /\
    (forall j, (0 <= j < hwhm)%Z ->
               0.5 < np_abs (nth (Z.to_nat (len psf / 2 + j)) psf C0)) /\
    ((0 < hwhm)%Z -> np_abs (nth (Z.to_nat (len psf / 2 + hwhm)) psf C0) <= 0.5).
Proof.
  intros Hpsf.
  assert (HL : (1 <= len psf)%Z) by (unfold len; destruct psf; [congruence | simpl; lia]).
  assert (Hc : (0 <= len psf / 2 < len psf)%Z).
  { split; [apply Z.div_pos; lia | apply Z.div_lt_upper_bound; lia]. }
  unfold clean_beam_of. rewrite slice_from_skipn by lia.
  remember (len psf / 2)%Z as cz eqn:Ecz.
  set (test := fun z => if Rle_dec (np_abs z) 0.5 then true else false).
  assert (Hlen : length (map test (skipn (Z.to_nat cz) psf))
                 = (length psf - Z.to_nat cz)%nat)
    by (rewrite length_map; apply length_skipn).
  destruct (np_argmax_bool_spec (map test (skipn (Z.to_nat cz) psf)))
    as (h & Hh & Hrange & Hbefore & Hat).
  { intros E. rewrite E in Hlen. simpl in Hlen. unfold len in *. lia. }
  fold test. rewrite Hh. cbn [bind].
  exists h. unfold len in Hrange. rewrite Hlen in Hrange.
  assert (Hentry : forall j, (j < length psf - Z.to_nat cz)%nat ->
             nth j (map test (skipn (Z.to_nat cz) psf)) false
             = test (nth (Z.to_nat cz + j) psf C0)).
  { intros j Hj.
    rewrite (nth_map_in_range test _ _ _ C0) by (rewrite length_skipn; exact Hj).
    rewrite nth_skipn. reflexivity. }
  split; [reflexivity|]. split; [lia|]. split; [unfold len in *; lia|]. split.
  - intros j Hj. specialize (Hbefore (Z.to_nat j)).
    rewrite Hentry in Hbefore by (unfold len in *; lia).
    replace (Z.to_nat (cz + j)) with (Z.to_nat cz + Z.to_nat j)%nat by lia.
    unfold test in Hbefore.
    destruct (Rle_dec _ 0.5) as [Hle|Hgt].
    + assert (true = false) by (apply Hbefore; lia). discriminate.
    + lra.
  - intros Hpos. specialize (Hat Hpos).
    rewrite Hentry in Hat by (unfold len in *; lia).
    replace (Z.to_nat (cz + h)) with (Z.to_nat cz + Z.to_nat h)%nat by lia.
    unfold test in Hat.
    destruct (Rle_dec _ 0.5) as [Hle|Hgt]; [exact Hle | discriminate].
Qed.

(** X15.  The half width of the clean beam.  An empty PSF raises
    [ValueError]; otherwise the beam has [10 hwhm + 1] entries for a half
    width [hwhm >= 0] such that every PSF entry from the centre up to
    [hwhm] (excluded) has a magnitude above 0.5 and, when [hwhm > 0], the
    entry at [hwhm] has a magnitude of at most 0.5 and the beam is the
    Gaussian of lines 164-168.  [hwhm = 0], a beam of one entry, is what
    remains when no entry of the upper half is as small as 0.5; the value
    of that one entry is not stated (the script divides by [sigma = 0]
    there). *)
Theorem clean_beam_half_width (psf : list complex) :
  (psf = [] -> clean_beam_of psf = Raise ValueError) /\
  (psf <> [] ->
   exists hwhm beam,
     clean_beam_of psf = Ok beam /\
     length beam = Z.to_nat (10 * hwhm + 1) /\
     (0 <= hwhm)%Z /\ (len psf / 2 + hwhm < len psf)%Z /\
     (forall j, (0 <= j < hwhm)%Z ->
                0.5 < np_abs (nth (Z.to_nat (len psf / 2 + j)) psf C0)) /\
     ((0 < hwhm)%Z ->
      np_abs (nth (Z.to_nat (len psf / 2 + hwhm)) psf C0) <= 0.5 /\
      beam = beam_of_hwhm hwhm)).
Proof.
  split.
  - intros ->. reflexivity.
  - intros Hpsf.
    destruct (clean_beam_of_closed psf Hpsf) as (h & Hb & H0 & Hlt & Hbefore & Hat).
    exists h, (beam_of_hwhm h).
    split; [exact Hb|]. split; [apply beam_of_hwhm_length; exact H0|].
    split; [exact H0|]. split; [exact Hlt|]. split; [exact Hbefore|].
    intros Hpos. split; [apply Hat; exact Hpos | reflexivity].
Qed.

End BeamShape.

Section CleanSpectrum.
Local Open Scope R_scope.

Lemma firstn_seq_le (n start m : nat) : (n <= m)%nat -> firstn n (seq start m) = seq start n.
Proof.
  revert start m. induction n as [|n IH]; intros start m Hn; [reflexivity|].
  destruct m as [|m]; [lia|]. cbn [seq firstn]. f_equal. apply IH. lia.
Qed.

Lemma seq_shift_by (n s off : nat) :
  map (fun j => (j + off)%nat) (seq s n) = seq (s + off) n.
Proof.
  revert s. induction n as [|n IH]; intros s; [reflexivity|].
  cbn [seq map]. f_equal. apply (IH (S s)).
Qed.

(** The ['same'] convolution with a kernel that is not the longer operand:
    entry [j] is the full convolution at [j + (len(v) - 1) // 2]. *)
Lemma np_convolve_same_closed (a v : list complex) :
  v <> [] -> (length v <= length a)%nat ->
  np_convolve_same a v
  = Ok (map (fun j => conv_at a v (j + (length v - 1) / 2)) (seq 0 (length a))).
Proof.
  intros Hv Hle.
  assert (Hlv : (1 <= length v)%nat) by (destruct v; [congruence | simpl; lia]).
  unfold np_convolve_same.
  destruct (Nat.ltb_spec (length a) (length v)); [lia|].
  destruct (Nat.eqb_spec (length a) 0); [lia|].
  destruct (Nat.eqb_spec (length v) 0); [lia|].
  f_equal. unfold convolve_full.
  assert (Hoff : ((length v - 1) / 2 <= length v - 1)%nat)
    by (apply Nat.Div0.div_le_upper_bound; lia).
  rewrite skipn_map, firstn_map, skipn_seq, firstn_seq_le by lia.
  rewrite <- (seq_shift_by (length a) 0 ((length v - 1) / 2)).
  rewrite map_map. reflexivity.
Qed.

Lemma clean_beam_nonempty (psf : list complex) (beam : list R) :
  clean_beam_of psf = Ok beam -> (1 <= length beam)%nat /\ psf <> [].
Proof.
  intros Hb. destruct psf as [|p psf]; [discriminate Hb|].
  destruct (clean_beam_of_closed (p :: psf)) as (h & Hc & H0 & _); [discriminate|].
  rewrite Hc in Hb. inversion Hb; subst beam.
  rewrite beam_of_hwhm_length by exact H0. split; [lia | discriminate].
Qed.

(** X16.  The shape of the clean spectrum.  With components and a residual
    of [M] entries: a beam of at most [M] entries gives a clean spectrum of
    [M] entries; a longer beam raises [ValueError] at line 182, except for
    [M = 1], where the one residual is added to every entry of a result
    that has the length of the beam. *)
Theorem clean_spectrum_shape (psf comps res : list complex) (beam : list R) :
  clean_beam_of psf = Ok beam ->
  length comps = length res ->
  ((length beam <= length res)%nat ->
   exists cs, clean_spectrum_of psf comps res = Ok cs /\ length cs = length res) /\
  ((length res < length beam)%nat -> length res <> 1%nat ->
   clean_spectrum_of psf comps res = Raise ValueError) /\
  ((length res < length beam)%nat -> length res = 1%nat ->
   exists cs, clean_spectrum_of psf comps res = Ok cs /\ length cs = length beam).
Proof.
  intros Hb Hlen.
  destruct (clean_beam_nonempty psf beam Hb) as [Hbl _].
  unfold clean_spectrum_of. rewrite Hb. cbn [bind].
  assert (HbC : map RtoC beam <> []) by (destruct beam; [simpl in Hbl; lia | discriminate]).
  split; [|split].
  - intros Hle.
    destruct (np_convolve_same_length comps (map RtoC beam)) as (out & Hout & Hlout);
      [destruct comps; [simpl in *; lia | discriminate] | exact HbC |].
    rewrite Hout. cbn [bind].
    rewrite length_map, Nat.max_l in Hlout by lia.
    rewrite inplace2_same_length by (rewrite length_map; lia).
    eexists; split; [reflexivity|].
    rewrite length_map, length_combine, length_map. lia.
  - intros Hlt Hne.
    destruct comps as [|z comps].
    + unfold np_convolve_same. rewrite length_map. cbn [length].
      destruct (Nat.ltb_spec 0 (length beam)); [|lia].
      rewrite length_map.
      destruct (Nat.eqb_spec (length beam) 0); [lia|]. reflexivity.
    + destruct (np_convolve_same_length (z :: comps) (map RtoC beam))
        as (out & Hout & Hlout); [discriminate | exact HbC |].
      rewrite Hout. cbn [bind].
      rewrite length_map, Nat.max_r in Hlout by lia.
      unfold inplace2. rewrite length_map, Hlout.
      destruct (Nat.eqb_spec (length beam) (length res)); [lia|].
      destruct res as [|y [|y' res]]; simpl in *; try reflexivity; lia.
  - intros Hlt H1.
    destruct (np_convolve_same_length comps (map RtoC beam)) as (out & Hout & Hlout);
      [destruct comps; [simpl in *; lia | discriminate] | exact HbC |].
    rewrite Hout. cbn [bind].
    rewrite length_map, Nat.max_r in Hlout by lia.
    unfold inplace2. rewrite length_map, Hlout.
    destruct (Nat.eqb_spec (length beam) (length res)); [lia|].
    destruct res as [|y [|y' res]]; simpl in *; try lia.
    eexists; split; [reflexivity|]. rewrite !length_map. exact Hlout.
Qed.

End CleanSpectrum.

Section BeamValues.
Local Open Scope R_scope.

Lemma beam_of_hwhm_nth (hwhm : Z) (i : nat) :
  (0 <= hwhm)%Z -> (i < Z.to_nat (10 * hwhm + 1))%nat ->
  nth i (beam_of_hwhm hwhm) 0
  = exp (IZR (- ((- (hwhm * 5) + Z.of_nat i) ^ 2))%Z / (2 * (IZR (2 * hwhm) / 2.355) ^ 2)).
Proof.
  intros Hh Hi. unfold beam_of_hwhm, arange, range2. rewrite map_map.
  rewrite (nth_map_in_range _ _ _ _ 0%nat) by (rewrite length_seq; lia).
  rewrite seq_nth by lia. reflexivity.
Qed.

Lemma exp_nonpos_le_1 (x : R) : x <= 0 -> exp x <= 1.
Proof.
  intros [Hlt|Heq].
  - left. rewrite <- exp_0. apply exp_increasing. exact Hlt.
  - subst. rewrite exp_0. lra.
Qed.

Lemma beam_of_hwhm_centre (hwhm : Z) :
  (0 <= hwhm)%Z -> nth (Z.to_nat (5 * hwhm)) (beam_of_hwhm hwhm) 0 = 1.
Proof.
  intros Hh. rewrite beam_of_hwhm_nth by lia.
  replace (- (hwhm * 5) + Z.of_nat (Z.to_nat (5 * hwhm)))%Z with 0%Z by lia.
  change (IZR (- 0 ^ 2)) with 0. unfold Rdiv. rewrite Rmult_0_l. apply exp_0.
Qed.

(** X17.  The clean beam of a half width [hwhm >= 1] is a Gaussian
    sampled at the offsets [-5 hwhm .. 5 hwhm]: it is 1 at its centre,
    every entry lies in (0, 1], and it is symmetric about its centre. *)
Theorem clean_beam_gaussian (hwhm : Z) :
  (1 <= hwhm)%Z ->
  nth (Z.to_nat (5 * hwhm)) (beam_of_hwhm hwhm) 0 = 1 /\
  forall i : nat, (i < Z.to_nat (10 * hwhm + 1))%nat ->
    0 < nth i (beam_of_hwhm hwhm) 0 <= 1 /\
    nth (Z.to_nat (10 * hwhm) - i) (beam_of_hwhm hwhm) 0 = nth i (beam_of_hwhm hwhm) 0.
Proof.
  intros Hh.
  assert (Hsigma : 0 < 2 * (IZR (2 * hwhm) / 2.355) ^ 2).
  { assert (0 < IZR (2 * hwhm)) by (apply IZR_lt; lia).
    assert (0 < IZR (2 * hwhm) / 2.355) by (apply Rdiv_lt_0_compat; lra).
    nra. }
  split.
  - apply beam_of_hwhm_centre. lia.
  - intros i Hi. rewrite !beam_of_hwhm_nth by lia. split.
    + split; [apply exp_pos|]. apply exp_nonpos_le_1.
      assert (Hsq : IZR (- (- (hwhm * 5) + Z.of_nat i) ^ 2) <= 0).
      { apply IZR_le. pose proof (Z.pow_2_r (- (hwhm * 5) + Z.of_nat i)). nia. }
      unfold Rdiv. rewrite <- (Rmult_0_l (/ (2 * (IZR (2 * hwhm) / 2.355) ^ 2))).
      apply Rmult_le_compat_r; [|exact Hsq].
      left. apply Rinv_0_lt_compat. exact Hsigma.
    + f_equal. f_equal. f_equal.
      replace (- (hwhm * 5) + Z.of_nat (Z.to_nat (10 * hwhm) - i))%Z
        with (- (- (hwhm * 5) + Z.of_nat i))%Z by lia.
      rewrite !Z.pow_2_r. lia.
Qed.

End BeamValues.

Section Smearing.
Local Open Scope R_scope.

Lemma fold_right_all_zero (l : list complex) :
  Forall (fun z => z = C0) l -> fold_right Cadd C0 l = C0.
Proof.
  induction 1 as [|x l Hx _ IH]; [reflexivity|].
  cbn [fold_right]. rewrite IH, Hx. apply Cadd_C0_l.
Qed.

(** A sum whose terms vanish except at one index is the term there. *)
Lemma np_sum_single (g : nat -> complex) (n k : nat) :
  (k < n)%nat -> (forall i, i <> k -> g i = C0) ->
  np_sum (map g (seq 0 n)) = g k.
Proof.
  intros Hk Hz. rewrite np_sum_fold_right.
  assert (Hpre : forall m s, (s + m <= k)%nat ->
             fold_right Cadd (g k) (map g (seq s m)) = g k).
  { induction m as [|m IH]; intros s Hs; [reflexivity|].
    cbn [seq map fold_right]. rewrite IH by lia. rewrite Hz by lia.
    apply Cadd_C0_l. }
  replace n with (k + S (n - k - 1))%nat by lia.
  rewrite seq_app, map_app, fold_right_app, Nat.add_0_l.
  cbn [seq map fold_right].
  rewrite (fold_right_all_zero (map g (seq (S k) (n - k - 1)))).
  - rewrite Cadd_C0_r. apply Hpre. lia.
  - apply Forall_forall. intros z Hin. apply in_map_iff in Hin.
    destruct Hin as (i & <- & Hi). apply in_seq in Hi. apply Hz. lia.
Qed.

(** The clean spectrum, entry by entry, for a beam that is not longer than
    the spectrum. *)
Lemma clean_spectrum_of_closed (psf comps res : list complex) (beam : list R) :
  clean_beam_of psf = Ok beam ->
  (length beam <= length res)%nat -> length comps = length res ->
  clean_spectrum_of psf comps res
  = Ok (map (fun p => Cadd (fst p) (snd p))
            (combine
               (map (fun z => Cmul z (RtoC 2))
                    (map (fun j => conv_at comps (map RtoC beam)
                                           (j + (length beam - 1) / 2))
                         (seq 0 (length comps))))
               res)).
Proof.
  intros Hb Hle Hlen.
  destruct (clean_beam_nonempty psf beam Hb) as [Hbl _].
  unfold clean_spectrum_of. rewrite Hb. cbn [bind].
  assert (HbC : map RtoC beam <> [])
    by (destruct beam; [simpl in Hbl; lia | discriminate]).
  rewrite np_convolve_same_closed by (try exact HbC; rewrite length_map; lia).
  cbn [bind]. rewrite length_map.
  rewrite inplace2_same_length by (rewrite !length_map, length_seq; exact Hlen).
  reflexivity.
Qed.

(** The convolution of an array with one entry that is not zero. *)
Lemma conv_at_single (comps v : list complex) (k m : nat) :
  (k < length comps)%nat -> (forall i, i <> k -> nth i comps C0 = C0) ->
  conv_at comps v m
  = if (k <=? m)%nat then Cmul (nth k comps C0) (nth (m - k) v C0) else C0.
Proof.
  intros Hk Hz. unfold conv_at.
  rewrite (np_sum_single _ (length comps) k Hk); [reflexivity|].
  intros i Hi. destruct (i <=? m)%nat; [|reflexivity].
  rewrite (Hz i Hi). apply complex_eq; simpl; ring.
Qed.

(** X18.  One component becomes one peak.  With a beam of half width
    [hwhm >= 1] that is not longer than the spectrum, and components that
    are zero except at index [k], the clean spectrum at [j] is the residual
    plus twice the component times the beam at the offset [j - k]; at
    [j = k] it is the residual plus twice the component. *)
Theorem single_component_peak (psf comps res : list complex) (beam : list R) (k : nat) :
  clean_beam_of psf = Ok beam ->
  (1 < length beam)%nat -> (length beam <= length res)%nat ->
  length comps = length res ->
  (k < length comps)%nat -> (forall i, i <> k -> nth i comps C0 = C0) ->
  exists cs,
    clean_spectrum_of psf comps res = Ok cs /\
    (forall j, (j < length res)%nat ->
       nth j cs C0
       = Cadd (Cmul (Cmul (nth k comps C0)
                          (RtoC (if (k <=? j + (length beam - 1) / 2)%nat
                                 then nth (j + (length beam - 1) / 2 - k) beam 0
                                 else 0)))
                    (RtoC 2))
              (nth j res C0)) /\
    nth k cs C0 = Cadd (Cmul (nth k comps C0) (RtoC 2)) (nth k res C0).
Proof.
  intros Hb Hl1 Hle Hlen Hk Hz.
  rewrite (clean_spectrum_of_closed psf comps res beam Hb Hle Hlen).
  eexists; split; [reflexivity|].
  assert (Hentry : forall j, (j < length res)%nat ->
     nth j (map (fun p => Cadd (fst p) (snd p))
               (combine
                  (map (fun z => Cmul z (RtoC 2))
                       (map (fun j => conv_at comps (map RtoC beam)
                                              (j + (length beam - 1) / 2))
                            (seq 0 (length comps))))
                  res)) C0
     = Cadd (Cmul (Cmul (nth k comps C0)
                        (RtoC (if (k <=? j + (length beam - 1) / 2)%nat
                               then nth (j + (length beam - 1) / 2 - k) beam 0
                               else 0)))
                  (RtoC 2))
            (nth j res C0)).
  { intros j Hj.
    rewrite (nth_map_combine Cadd _ _ _ C0 C0 C0)
      by (rewrite ?length_map, ?length_seq; lia).
    rewrite map_map.
    rewrite (nth_map_in_range _ _ _ _ 0%nat) by (rewrite length_seq; lia).
    rewrite seq_nth by lia. cbn [Nat.add].
    rewrite (conv_at_single comps (map RtoC beam) k _ Hk Hz).
    destruct (k <=? j + (length beam - 1) / 2)%nat.
    - change C0 with (RtoC 0). rewrite map_nth. reflexivity.
    - f_equal. apply complex_eq; simpl; ring. }
  split; [exact Hentry|].
  rewrite Hentry by lia.
  destruct (Nat.leb_spec k (k + (length beam - 1) / 2)) as [_|Hgt]; [|lia].
  replace (k + (length beam - 1) / 2 - k)%nat with ((length beam - 1) / 2)%nat by lia.
  destruct psf as [|p psf]; [discriminate Hb|].
  destruct (clean_beam_of_closed (p :: psf)) as (h & Hc & H0 & _); [discriminate|].
  rewrite Hc in Hb. inversion Hb; subst beam.
  rewrite beam_of_hwhm_length in * by exact H0.
  replace ((Z.to_nat (10 * h + 1) - 1) / 2)%nat with (Z.to_nat (5 * h)).
  - rewrite beam_of_hwhm_centre by exact H0.
    f_equal. apply complex_eq; simpl; ring.
  - replace (Z.to_nat (10 * h + 1) - 1)%nat with (Z.to_nat (5 * h) * 2)%nat by lia.
    symmetry. apply Nat.div_mul. lia.
Qed.

(** X19.  Zero gain end to end: with [gain = 0] the loop leaves no
    component, and with a beam of half width [hwhm >= 1] that is not longer
    than the spectrum the clean spectrum is the dirty spectrum. *)
Theorem zero_gain_clean_spectrum (amps psf : list complex) (beam : list R)
        (num_iter : Z) :
  psf_sized amps psf ->
  clean_beam_of psf = Ok beam ->
  (1 < length beam)%nat -> (length beam <= length amps)%nat ->
  exists st,
    clean amps psf 0 num_iter = Ok st /\
    clean_spectrum_of psf (clean_components st) (residual st) = Ok amps.
Proof.
  intros Hsz Hb Hl1 Hle.
  destruct (clean_loop_zero_gain amps psf (range num_iter) Hsz []) as [(lg & Hrun) _].
  unfold clean. rewrite Hrun. eexists; split; [reflexivity|].
  cbn [clean_components residual].
  rewrite (clean_spectrum_of_closed psf (zeros_like amps) amps beam Hb Hle
             (zeros_like_length amps)).
  f_equal. rewrite zeros_like_length.
  apply (nth_ext _ _ C0 C0).
  - rewrite length_map, length_combine, !length_map, length_seq. apply Nat.min_id.
  - intros j Hj.
    rewrite length_map, length_combine, !length_map, length_seq, Nat.min_id in Hj.
    rewrite (nth_map_combine Cadd _ _ _ C0 C0 C0)
      by (rewrite ?length_map, ?length_seq; lia).
    rewrite map_map.
    rewrite (nth_map_in_range _ _ _ _ 0%nat) by (rewrite length_seq; lia).
    rewrite seq_nth by lia. cbn [Nat.add].
    unfold conv_at. rewrite np_sum_fold_right, fold_right_all_zero.
    + apply complex_eq; simpl; ring.
    + apply Forall_forall. intros z Hin. apply in_map_iff in Hin.
      destruct Hin as (i & <- & _). destruct (i <=? _)%nat; [|reflexivity].
      replace (nth i (zeros_like amps) C0) with C0.
      * apply complex_eq; simpl; ring.
      * unfold zeros_like.
        destruct (Nat.lt_ge_cases i (length amps)) as [Hlt|Hge].
        -- rewrite (nth_map_in_range _ _ _ _ C0) by exact Hlt. reflexivity.
        -- symmetry. apply nth_overflow. rewrite length_map. exact Hge.
Qed.

End Smearing.

(** ** The set-up of the frequency grid *)

Section SetupFacts.
Local Open Scope R_scope.

Lemma freq_inc_default_value : freq_inc_default = 1 / 6000.
Proof. unfold freq_inc_default, over_sample, length_days. simpl. lra. Qed.

Lemma math_ceil_bounds (x : R) : IZR (math_ceil x) - 1 < x <= IZR (math_ceil x).
Proof.
  unfold math_ceil. rewrite opp_IZR.
  destruct (base_Int_part (- x)) as [H1 H2]. lra.
Qed.

Lemma string_empty_dec (s : string) : {s = ""%string} + {s <> ""%string}.
Proof. apply string_dec. Qed.

Lemma py_or_nonempty (s : string) (d : pyval) :
  s <> ""%string -> py_or (PyStr s) d = PyStr s.
Proof.
  intros Hs. unfold py_or, truthy.
  destruct (String.eqb_spec s ""); [contradiction | reflexivity].
Qed.

Lemma py_or_empty (d : pyval) : py_or (PyStr "") d = d.
Proof. reflexivity. Qed.

(** X20.  The prompts for the maximum frequency and for the increment
    accept only the empty answer.  Any other answer is kept as a string and
    raises [TypeError], at the subtraction of line 78 or at the division of
    line 79.  With both answers empty the third prompt decides: an empty
    answer or [y] returns [num_freqs = ceil(max_frequency / freq_inc)] of
    the defaults, anything else leaves with [SystemExit(1)]. *)
Theorem frequency_setup_answers (max_frequency : R)
        (answer_max answer_inc answer_ok : string) :
  (answer_max <> ""%string ->
   frequency_setup max_frequency answer_max answer_inc answer_ok = Fail TypeError) /\
  (answer_max = ""%string -> answer_inc <> ""%string ->
   frequency_setup max_frequency answer_max answer_inc answer_ok = Fail TypeError) /\
  (answer_max = ""%string -> answer_inc = ""%string ->
   (answer_ok = ""%string \/ answer_ok = "y"%string) ->
   frequency_setup max_frequency answer_max answer_inc answer_ok
   = Done (math_ceil ((max_frequency - 0) / freq_inc_default))) /\
  (answer_max = ""%string -> answer_inc = ""%string ->
   answer_ok <> ""%string -> answer_ok <> "y"%string ->
   frequency_setup max_frequency answer_max answer_inc answer_ok
   = Fail (SystemExit 1)).
Proof.
  assert (Hinc : freq_inc_default <> 0) by (rewrite freq_inc_default_value; lra).
  unfold frequency_setup.
  split; [|split; [|split]].
  - intros Hm. rewrite (py_or_nonempty answer_max) by exact Hm. reflexivity.
  - intros -> Hi. rewrite py_or_empty, (py_or_nonempty answer_inc) by exact Hi.
    reflexivity.
  - intros -> -> Hok. rewrite !py_or_empty. cbn [py_sub obind py_truediv].
    destruct (Req_dec_T freq_inc_default 0) as [E|_]; [contradiction|].
    cbn [obind py_ceil].
    destruct Hok as [-> | ->]; reflexivity.
  - intros -> -> Hok1 Hok2. rewrite !py_or_empty. cbn [py_sub obind py_truediv].
    destruct (Req_dec_T freq_inc_default 0) as [E|_]; [contradiction|].
    cbn [obind py_ceil].
    rewrite (py_or_nonempty answer_ok) by exact Hok1.
    unfold py_ne. destruct (String.eqb_spec answer_ok "y"); [contradiction|].
    reflexivity.
Qed.

(** The only way to a result: both answers empty. *)
Lemma frequency_setup_closed (max_frequency : R)
      (answer_max answer_inc answer_ok : string) (num_freqs : Z) :
  frequency_setup max_frequency answer_max answer_inc answer_ok = Done num_freqs ->
  num_freqs = math_ceil ((max_frequency - 0) / freq_inc_default).
Proof.
  assert (Hinc : freq_inc_default <> 0) by (rewrite freq_inc_default_value; lra).
  unfold frequency_setup. intros Hs.
  destruct (string_empty_dec answer_max) as [->|Hm].
  - destruct (string_empty_dec answer_inc) as [->|Hi].
    + rewrite !py_or_empty in Hs. cbn [py_sub obind py_truediv] in Hs.
      destruct (Req_dec_T freq_inc_default 0) as [E|_]; [contradiction|].
      cbn [obind py_ceil] in Hs.
      destruct (py_ne _ _); [discriminate|]. inversion Hs. reflexivity.
    + rewrite py_or_empty, (py_or_nonempty answer_inc) in Hs by exact Hi.
      discriminate.
  - rewrite (py_or_nonempty answer_max) in Hs by exact Hm. discriminate.
Qed.

(** X21.  The grid reaches the maximum frequency.  When the set-up
    returns [num_freqs], the largest grid frequency
    [num_freqs * freq_inc] is at least the maximum frequency and the one
    before it is below it; a positive maximum frequency gives
    [num_freqs >= 1]. *)
Theorem frequency_setup_covers (max_frequency : R) (answer_max answer_inc answer_ok : string)
        (num_freqs : Z) :
  frequency_setup max_frequency answer_max answer_inc answer_ok = Done num_freqs ->
  IZR (num_freqs - 1) * freq_inc_default < max_frequency
  /\ max_frequency <= IZR num_freqs * freq_inc_default
  /\ (0 < max_frequency -> (1 <= num_freqs)%Z).
Proof.
  intros Hs.
  pose proof (frequency_setup_closed max_frequency answer_max answer_inc answer_ok
                num_freqs Hs) as Hk.
  subst num_freqs.
  pose proof (math_ceil_bounds ((max_frequency - 0) / freq_inc_default)) as [Hlo Hhi].
  rewrite freq_inc_default_value in *.
  set (K := math_ceil ((max_frequency - 0) / (1 / 6000))) in *.
  rewrite minus_IZR.
  assert (Hq : (max_frequency - 0) / (1 / 6000) = max_frequency * 6000) by (field).
  rewrite Hq in Hlo, Hhi.
  repeat split; try lra.
  intros Hpos.
  assert (HK : 0 < IZR K) by lra. apply lt_IZR in HK. lia.
Qed.

Lemma fold_left_Rplus (l : list R) (a : R) :
  fold_left Rplus l a = a + fold_right Rplus 0 l.
Proof.
  revert a. induction l as [|x l IH]; intros a; simpl; [ring|].
  rewrite IH. ring.
Qed.

Lemma np_diff_length (l : list R) : length (np_diff l) = (length l - 1)%nat.
Proof.
  induction l as [|x [|y l] IH]; try reflexivity.
  cbn [np_diff length] in *. rewrite IH. lia.
Qed.

Lemma np_diff_nth (l : list R) (i : nat) :
  (S i < length l)%nat -> nth i (np_diff l) 0 = nth (S i) l 0 - nth i l 0.
Proof.
  revert i. induction l as [|x [|y l] IH]; intros i Hi; simpl in Hi; try lia.
  destruct i as [|i]; [reflexivity|].
  cbn [np_diff nth]. apply (IH i). simpl. lia.
Qed.

(** The separations add up to the span. *)
Lemma np_diff_sum (x : R) (l : list R) :
  fold_right Rplus 0 (np_diff (x :: l)) = last (x :: l) 0 - x.
Proof.
  revert x. induction l as [|y l IH]; intros x.
  - simpl. ring.
  - change (np_diff (x :: y :: l)) with ((y - x) :: np_diff (y :: l)).
    cbn [fold_right]. rewrite IH.
    change (last (x :: y :: l) 0) with (last (y :: l) 0). ring.
Qed.

(** X22.  The mean sample separation of line 55 is the span of the series
    divided by the number of separations: for [N >= 2] samples,
    [np.mean(np.diff(times)) = (times[-1] - times[0]) / (N - 1)], whatever
    the order of the times. *)
Theorem mean_separation_span (times : list R) :
  (2 <= length times)%nat ->
  np_mean (np_diff times)
  = (last times 0 - hd 0 times) / INR (length times - 1).
Proof.
  intros HN. destruct times as [|x l]; [simpl in HN; lia|].
  unfold np_mean. rewrite fold_left_Rplus, np_diff_sum, np_diff_length.
  cbn [hd]. f_equal. ring.
Qed.

Lemma all_equal_repeat (l : list R) (d : R) :
  (forall i, (i < length l)%nat -> nth i l 0 = d) -> l = repeat d (length l).
Proof.
  induction l as [|x l IH]; intros H; [reflexivity|].
  cbn [length repeat]. f_equal.
  - apply (H 0%nat). simpl. lia.
  - apply IH. intros i Hi. apply (H (S i)). simpl. lia.
Qed.

Lemma np_sort_repeat (d : R) (n : nat) : np_sort (repeat d n) = repeat d n.
Proof.
  induction n as [|n IH]; [reflexivity|].
  cbn [repeat np_sort fold_right]. fold (np_sort (repeat d n)). rewrite IH.
  destruct n as [|n]; [reflexivity|].
  cbn [repeat insert_sorted].
  destruct (Rle_dec d d) as [_|Hn]; [reflexivity | exfalso; lra].
Qed.

Lemma np_mean_repeat (d : R) (n : nat) : (1 <= n)%nat -> np_mean (repeat d n) = d.
Proof.
  intros Hn. unfold np_mean. rewrite fold_left_Rplus, repeat_length.
  assert (Hsum : fold_right Rplus 0 (repeat d n) = INR n * d).
  { clear Hn. induction n as [|n IH]; [simpl; ring|].
    cbn [repeat fold_right]. rewrite IH, S_INR. ring. }
  rewrite Hsum. field. apply not_0_INR. lia.
Qed.

Lemma np_median_repeat (d : R) (n : nat) : (1 <= n)%nat -> np_median (repeat d n) = d.
Proof.
  intros Hn. unfold np_median. rewrite np_sort_repeat, repeat_length.
  destruct n as [|n]; [lia|].
  assert (Hnth : forall i, nth i (repeat d (S n)) 0 = d \/ nth i (repeat d (S n)) 0 = 0).
  { intros i. destruct (Nat.lt_ge_cases i (S n)).
    - left. apply nth_repeat_lt. assumption.
    - right. apply nth_overflow. rewrite repeat_length. assumption. }
  assert (Hmid : nth (S n / 2) (repeat d (S n)) 0 = d).
  { apply nth_repeat_lt. apply Nat.div_lt; lia. }
  assert (Hmid' : nth (S n / 2 - 1) (repeat d (S n)) 0 = d).
  { apply nth_repeat_lt. assert (S n / 2 < S n)%nat by (apply Nat.div_lt; lia). lia. }
  rewrite Hmid, Hmid'.
  destruct (Nat.even (S n)).
  - change [d; d] with (repeat d 2). apply np_mean_repeat. lia.
  - change [d] with (repeat d 1). apply np_mean_repeat. lia.
Qed.

(** X23.  Even sampling.  When every separation between consecutive
    sample times is the same [d > 0], the median and the mean separation
    are both [d], and the default maximum frequency of line 56 is [1 / d]. *)
Theorem max_frequency_even_sampling (times : list R) (d : R) :
  (2 <= length times)%nat -> 0 < d ->
  (forall i, (S i < length times)%nat -> nth (S i) times 0 - nth i times 0 = d) ->
  np_median (np_diff times) = d /\
  np_mean (np_diff times) = d /\
  max_frequency_default times = 1 / d.
Proof.
  intros HN Hd Heven.
  assert (Hrep : np_diff times = repeat d (length times - 1)).
  { rewrite <- np_diff_length. apply all_equal_repeat.
    intros i Hi. rewrite np_diff_length in Hi.
    rewrite np_diff_nth by lia. apply Heven. lia. }
  unfold max_frequency_default. rewrite Hrep.
  rewrite np_median_repeat, np_mean_repeat by lia.
  split; [reflexivity|]. split; [reflexivity|].
  unfold py_min. destruct (Rlt_dec (1 / d) (1 / d)); reflexivity.
Qed.

End SetupFacts.

(** ** Concrete runs of the properties above *)

Section ConcreteRuns.
Local Open Scope R_scope.

Lemma example_find_peak_last :
  find_peak [C0; C0; mkC 1 0] [C0; C0; mkC 1 0] = Ok 2%Z.
Proof.
  unfold find_peak.
  change (slice_from [C0; C0; mkC 1 0] (len [C0; C0; mkC 1 0] / 2)) with [C0; mkC 1 0].
  cbn [np_argmax argmax_scan].
  rewrite complex_gt_real_lt by (simpl; lra). reflexivity.
Qed.

Lemma example_find_peak_centre :
  find_peak [C0; mkC 1 0; C0] [C0; mkC 1 0; C0] = Ok 1%Z.
Proof.
  unfold find_peak.
  change (slice_from [C0; mkC 1 0; C0] (len [C0; mkC 1 0; C0] / 2)) with [mkC 1 0; C0].
  cbn [np_argmax argmax_scan].
  rewrite complex_gt_real_gt by (simpl; lra). reflexivity.
Qed.

(** A run of three points that leaves the loop in iteration 1. *)
Lemma example_break_run (num_iter : Z) :
  (2 <= num_iter)%Z ->
  clean [C0; mkC 0.5 0; mkC 1 0] [C0; C0; mkC 1 0; C0; C0] 1 num_iter
  = Ok (mkState [C0; C0; mkC 1 0] [mkC (-1) 0; mkC 0.5 0; C0]
          [Warning "EEK, divide by zero for iter = %i!" 1]).
Proof.
  intros Hn.
  destruct (range_split num_iter 1) as (rest & Hr); [lia|].
  unfold clean. rewrite Hr.
  rewrite (completed_clean_loop _ _ _ (range 1) (1%Z :: rest) _ _
             degenerate_run_first_iteration).
  cbn [clean_loop].
  rewrite (clean_body_break_at [C0; mkC 0.5 0; mkC 1 0] [C0; C0; mkC 1 0; C0; C0]
             1 1%Z _ 1%Z).
  - reflexivity.
  - reflexivity.
  - split; reflexivity.
  - unfold find_peak. cbn [residual].
    change (slice_from [mkC (-1) 0; mkC 0.5 0; C0] (len [C0; mkC 0.5 0; mkC 1 0] / 2))
      with [mkC 0.5 0; C0].
    cbn [np_argmax argmax_scan].
    rewrite complex_gt_real_gt by (simpl; lra). reflexivity.
  - change (nth (Z.to_nat (1 * 2)) [C0; C0; mkC 1 0; C0; C0] C0) with (mkC 1 0).
    apply peak_amplitude_zero. rewrite np_abs_real_nonneg by lra. ring.
Qed.

(** A Hermitian pair whose largest residual is off the centre: the
    spectra of the samples 1, 0, -1, -1 at the times 0, 1/4, 3/8, 7/8 on
    the grid of spacing 1 with [num_freqs = 1]. *)
Lemma example_hermitian_amps :
  hermitian [mkC (1 / 4) 0; mkC (- (1 / 4)) 0; mkC (1 / 4) 0].
Proof.
  intros i Hi. cbn [length] in *.
  destruct i as [|[|[|i]]]; try (simpl in Hi; lia);
    apply complex_eq; simpl; lra.
Qed.

Lemma example_hermitian_psf :
  hermitian [mkC 0 (- (1 / 2)); mkC (1 / 4) (1 / 4); mkC 1 0;
             mkC (1 / 4) (- (1 / 4)); mkC 0 (1 / 2)].
Proof.
  intros i Hi. cbn [length] in *.
  destruct i as [|[|[|[|[|i]]]]]; try (simpl in Hi; lia);
    apply complex_eq; simpl; lra.
Qed.

(** A PSF of 21 points that is 1 at its centre and 0 elsewhere has the
    half width 1. *)
Lemma example_clean_beam :
  clean_beam_of (repeat C0 10 ++ [mkC 1 0] ++ repeat C0 10) = Ok (beam_of_hwhm 1).
Proof.
  unfold clean_beam_of.
  change (slice_from (repeat C0 10 ++ [mkC 1 0] ++ repeat C0 10)
                     (len (repeat C0 10 ++ [mkC 1 0] ++ repeat C0 10) / 2))
    with (mkC 1 0 :: repeat (mkC 0 0) 10).
  cbn [map repeat].
  rewrite !np_abs_real_nonneg by lra.
  rewrite Rle_dec_false by lra. rewrite !Rle_dec_true by lra.
  cbn [np_argmax_bool first_true bind]. reflexivity.
Qed.

Lemma frequency_setup_defaults (max_frequency : R) :
  frequency_setup max_frequency "" "" ""
  = Done (math_ceil ((max_frequency - 0) / freq_inc_default)).
Proof.
  assert (Hinc : freq_inc_default <> 0) by (rewrite freq_inc_default_value; lra).
  unfold frequency_setup. rewrite !py_or_empty. cbn [py_sub obind py_truediv].
  destruct (Req_dec_T freq_inc_default 0) as [E|_]; [contradiction|]. reflexivity.
Qed.

End ConcreteRuns.

Section Witnesses.
Local Open Scope R_scope.

Lemma clean_short_psf_witness :
  clean [C0; C0; mkC 1 0] [C0; C0] 1 1 = Raise IndexError.
Proof.
  apply (clean_short_psf [C0; C0; mkC 1 0] [C0; C0] 1 1).
  - lia.
  - unfold len; simpl; lia.
  - intros H; discriminate H.
Defined.

Lemma clean_log_one_warning_witness :
  (log (mkState [C0; C0; mkC 1 0] [mkC (-1) 0; mkC 0.5 0; C0]
          [Warning "EEK, divide by zero for iter = %i!" 1]) = [] /\
   completed [C0; mkC 0.5 0; mkC 1 0] [C0; C0; mkC 1 0; C0; C0] 1 (range 5)
             (mkState (zeros_like [C0; mkC 0.5 0; mkC 1 0]) [C0; mkC 0.5 0; mkC 1 0] [])
   = Some (mkState [C0; C0; mkC 1 0] [mkC (-1) 0; mkC 0.5 0; C0]
             [Warning "EEK, divide by zero for iter = %i!" 1])) \/
  exists i st1,
    (0 <= i < 5)%Z /\
    completed [C0; mkC 0.5 0; mkC 1 0] [C0; C0; mkC 1 0; C0; C0] 1 (range i)
              (mkState (zeros_like [C0; mkC 0.5 0; mkC 1 0]) [C0; mkC 0.5 0; mkC 1 0] [])
    = Some st1 /\
    clean_body [C0; mkC 0.5 0; mkC 1 0] [C0; C0; mkC 1 0; C0; C0] 1 i st1
    = Ok (Break (mkState [C0; C0; mkC 1 0] [mkC (-1) 0; mkC 0.5 0; C0]
                   [Warning "EEK, divide by zero for iter = %i!" 1])) /\
    log (mkState [C0; C0; mkC 1 0] [mkC (-1) 0; mkC 0.5 0; C0]
           [Warning "EEK, divide by zero for iter = %i!" 1])
    = [Warning "EEK, divide by zero for iter = %i!" i].
Proof.
  apply (clean_log_one_warning [C0; mkC 0.5 0; mkC 1 0] [C0; C0; mkC 1 0; C0; C0] 1 5).
  apply example_break_run. lia.
Defined.

Lemma clean_stable_after_break_witness :
  clean [C0; mkC 0.5 0; mkC 1 0] [C0; C0; mkC 1 0; C0; C0] 1 9
  = Ok (mkState [C0; C0; mkC 1 0] [mkC (-1) 0; mkC 0.5 0; C0]
          [Warning "EEK, divide by zero for iter = %i!" 1]).
Proof.
  apply (clean_stable_after_break
           [C0; mkC 0.5 0; mkC 1 0] [C0; C0; mkC 1 0; C0; C0] 1 2 9).
  - apply example_break_run. lia.
  - discriminate.
  - lia.
Defined.

Lemma clean_components_upper_half_witness :
  exists st,
    clean [C0; C0; mkC 1 0] [C0; C0; mkC 1 0; C0; C0] (1 / 2) 3 = Ok st /\
    length (clean_components st) = length [C0; C0; mkC 1 0] /\
    length (residual st) = length [C0; C0; mkC 1 0] /\
    forall j, (j < Z.to_nat (len [C0; C0; mkC 1 0] / 2))%nat ->
              nth j (clean_components st) C0 = C0.
Proof.
  apply (clean_components_upper_half
           [C0; C0; mkC 1 0] [C0; C0; mkC 1 0; C0; C0] (1 / 2) 3).
  reflexivity.
Defined.

Lemma clean_body_peak_reduction_witness :
  exists st',
    clean_body [C0; C0; mkC 1 0] [C0; C0; mkC 1 0; C0; C0] (1 / 2) 0
               (clean_init [C0; C0; mkC 1 0]) = Ok (Continue st') /\
    nth (Z.to_nat 2) (residual st') C0
    = Cmul (RtoC (1 - 1 / 2))
           (nth (Z.to_nat 2) (residual (clean_init [C0; C0; mkC 1 0])) C0).
Proof.
  apply (clean_body_peak_reduction
           [C0; C0; mkC 1 0] [C0; C0; mkC 1 0; C0; C0] (1 / 2) 0
           (clean_init [C0; C0; mkC 1 0]) 2 0).
  - reflexivity.
  - split; reflexivity.
  - reflexivity.
  - exact example_find_peak_last.
  - reflexivity.
  - lra.
  - lra.
Defined.

Lemma clean_residual_hermitian_witness :
  exists st,
    clean [mkC (1 / 4) 0; mkC (- (1 / 4)) 0; mkC (1 / 4) 0]
          [mkC 0 (- (1 / 2)); mkC (1 / 4) (1 / 4); mkC 1 0;
           mkC (1 / 4) (- (1 / 4)); mkC 0 (1 / 2)] (1 / 2) 3 = Ok st /\
    hermitian (residual st).
Proof.
  apply (clean_residual_hermitian
           [mkC (1 / 4) 0; mkC (- (1 / 4)) 0; mkC (1 / 4) 0]
           [mkC 0 (- (1 / 2)); mkC (1 / 4) (1 / 4); mkC 1 0;
            mkC (1 / 4) (- (1 / 4)); mkC 0 (1 / 2)] (1 / 2) 3).
  - reflexivity.
  - exact example_hermitian_psf.
  - exact example_hermitian_amps.
Defined.

Lemma spectra_hermitian_witness :
  exists amps psf,
    dirty_spectrum 1 (1 / 4) [0; 1; 3] [2; 1; 5] = Ok amps /\
    psf_spectrum 1 (1 / 4) [0; 1; 3] = Ok psf /\
    hermitian amps /\ hermitian psf.
Proof.
  apply (spectra_hermitian 1 (1 / 4) [0; 1; 3] [2; 1; 5]). reflexivity.
Defined.

Lemma spectra_centre_witness :
  exists amps psf,
    dirty_spectrum 1 (1 / 4) [0; 1; 3] [2; 1; 5] = Ok amps /\
    psf_spectrum 1 (1 / 4) [0; 1; 3] = Ok psf /\
    nth (Z.to_nat 1) amps C0
    = Cdiv (mkC (fold_right Rplus 0 [2; 1; 5]) 0) (RtoC (INR (length [0; 1; 3]))) /\
    nth (Z.to_nat (2 * 1)) psf C0
    = Cdiv (mkC (INR (length [0; 1; 3])) 0) (RtoC (INR (length [0; 1; 3]))) /\
    Cdiv (mkC (fold_right Rplus 0 [2; 1; 5]) 0) (RtoC (INR (length [0; 1; 3])))
    = mkC (fold_right Rplus 0 [2; 1; 5] / INR (length [0; 1; 3])) 0 /\
    Cdiv (mkC (INR (length [0; 1; 3])) 0) (RtoC (INR (length [0; 1; 3]))) = mkC 1 0.
Proof.
  apply (spectra_centre 1 (1 / 4) [0; 1; 3] [2; 1; 5]).
  - lia.
  - simpl; lia.
  - reflexivity.
Defined.

Lemma dirty_spectrum_length_mismatch_witness :
  dirty_spectrum 1 (1 / 4) [0; 1; 3] [2; 1] = Raise ValueError.
Proof.
  apply (dirty_spectrum_length_mismatch 1 (1 / 4) [0; 1; 3] [2; 1]).
  - lia.
  - simpl; lia.
  - simpl; lia.
  - simpl; lia.
Defined.

Lemma negative_num_freqs_witness :
  dirty_spectrum (-1) (1 / 4) [0; 1; 3] [2; 1; 5] = Ok [] /\
  psf_spectrum (-1) (1 / 4) [0; 1; 3] = Ok [] /\
  clean [] [] (1 / 10) 500 = Raise ValueError.
Proof.
  apply (negative_num_freqs (-1) (1 / 4) [0; 1; 3] [2; 1; 5] (1 / 10) 500); lia.
Defined.

Lemma psf_magnitude_bound_witness :
  exists psf,
    psf_spectrum 1 (1 / 4) [0; 1; 3] = Ok psf /\
    forall p, In p psf -> np_abs p <= 1 /\ 0 <= 1 - np_abs p ^ 2.
Proof.
  apply (psf_magnitude_bound 1 (1 / 4) [0; 1; 3]). simpl; lia.
Defined.

Lemma pipeline_runs_witness :
  exists amps psf st,
    dirty_spectrum 1 1 [0; 1 / 4; 3 / 8; 7 / 8] [1; 0; -1; -1] = Ok amps /\
    psf_spectrum 1 1 [0; 1 / 4; 3 / 8; 7 / 8] = Ok psf /\
    psf_sized amps psf /\
    clean amps psf (1 / 10) 500 = Ok st /\
    hermitian (residual st).
Proof.
  apply (pipeline_runs 1 1 [0; 1 / 4; 3 / 8; 7 / 8] [1; 0; -1; -1] (1 / 10) 500).
  - lia.
  - simpl; lia.
  - reflexivity.
Defined.

Lemma dc_peak_stops_clean_witness :
  clean_loop [C0; mkC 1 0; C0] [mkC 1 0; mkC 1 0; mkC 1 0; mkC 1 0; mkC 1 0]
             (1 / 10) [0%Z; 1%Z] (clean_init [C0; mkC 1 0; C0])
  = Ok (mkState (clean_components (clean_init [C0; mkC 1 0; C0]))
          (residual (clean_init [C0; mkC 1 0; C0]))
          (log (clean_init [C0; mkC 1 0; C0])
           ++ [Warning "EEK, divide by zero for iter = %i!" 0])).
Proof.
  apply (dc_peak_stops_clean 1 [C0; mkC 1 0; C0]
           [mkC 1 0; mkC 1 0; mkC 1 0; mkC 1 0; mkC 1 0] (1 / 10) 0 [1%Z]
           (clean_init [C0; mkC 1 0; C0])).
  - reflexivity.
  - reflexivity.
  - reflexivity.
  - split; reflexivity.
  - exact example_find_peak_centre.
Defined.

Lemma dirty_spectrum_linear_witness :
  exists aV aW aVW,
    dirty_spectrum 1 (1 / 4) [0; 1; 3] [2; 1; 5] = Ok aV /\
    dirty_spectrum 1 (1 / 4) [0; 1; 3] [1; 0; 4] = Ok aW /\
    dirty_spectrum 1 (1 / 4) [0; 1; 3]
      (map (fun p => 2 * fst p + 3 * snd p) (combine [2; 1; 5] [1; 0; 4])) = Ok aVW /\
    aVW = map (fun p => Cadd (Cmul (RtoC 2) (fst p)) (Cmul (RtoC 3) (snd p)))
              (combine aV aW).
Proof.
  apply (dirty_spectrum_linear 1 (1 / 4) 2 3 [0; 1; 3] [2; 1; 5] [1; 0; 4]);
    reflexivity.
Defined.

Lemma clean_spectrum_shape_witness :
  clean_spectrum_of (repeat C0 10 ++ [mkC 1 0] ++ repeat C0 10)
                    [C0; C0; mkC 1 0] [mkC (-1) 0; mkC 0.5 0; C0]
  = Raise ValueError.
Proof.
  apply (clean_spectrum_shape (repeat C0 10 ++ [mkC 1 0] ++ repeat C0 10)
           [C0; C0; mkC 1 0] [mkC (-1) 0; mkC 0.5 0; C0] (beam_of_hwhm 1)).
  - exact example_clean_beam.
  - reflexivity.
  - rewrite beam_of_hwhm_length by lia. simpl. lia.
  - simpl. lia.
Defined.

Lemma clean_beam_gaussian_witness :
  nth (Z.to_nat (5 * 1)) (beam_of_hwhm 1) 0 = 1 /\
  forall i : nat, (i < Z.to_nat (10 * 1 + 1))%nat ->
    0 < nth i (beam_of_hwhm 1) 0 <= 1 /\
    nth (Z.to_nat (10 * 1) - i) (beam_of_hwhm 1) 0 = nth i (beam_of_hwhm 1) 0.
Proof.
  apply (clean_beam_gaussian 1). lia.
Defined.

Lemma single_component_peak_witness :
  exists cs,
    clean_spectrum_of (repeat C0 10 ++ [mkC 1 0] ++ repeat C0 10)
                      (repeat C0 5 ++ [mkC 3 1] ++ repeat C0 5) (repeat (mkC 1 0) 11)
    = Ok cs /\
    nth 5 cs C0
    = Cadd (Cmul (nth 5 (repeat C0 5 ++ [mkC 3 1] ++ repeat C0 5) C0) (RtoC 2))
           (nth 5 (repeat (mkC 1 0) 11) C0).
Proof.
  destruct (single_component_peak
              (repeat C0 10 ++ [mkC 1 0] ++ repeat C0 10)
              (repeat C0 5 ++ [mkC 3 1] ++ repeat C0 5) (repeat (mkC 1 0) 11)
              (beam_of_hwhm 1) 5)
    as (cs & Hcs & _ & Hk).
  - exact example_clean_beam.
  - rewrite beam_of_hwhm_length by lia. simpl. lia.
  - rewrite beam_of_hwhm_length by lia. simpl. lia.
  - reflexivity.
  - simpl. lia.
  - intros i Hi.
    do 11 (destruct i as [|i]; [try reflexivity; congruence|]).
    destruct i; reflexivity.
  - exists cs. split; assumption.
Defined.

Lemma zero_gain_clean_spectrum_witness :
  exists st,
    clean (repeat C0 7 ++ [mkC 3 1] ++ repeat C0 3)
          (repeat C0 10 ++ [mkC 1 0] ++ repeat C0 10) 0 4 = Ok st /\
    clean_spectrum_of (repeat C0 10 ++ [mkC 1 0] ++ repeat C0 10)
                      (clean_components st) (residual st)
    = Ok (repeat C0 7 ++ [mkC 3 1] ++ repeat C0 3).
Proof.
  apply (zero_gain_clean_spectrum
           (repeat C0 7 ++ [mkC 3 1] ++ repeat C0 3)
           (repeat C0 10 ++ [mkC 1 0] ++ repeat C0 10) (beam_of_hwhm 1) 4).
  - reflexivity.
  - exact example_clean_beam.
  - rewrite beam_of_hwhm_length by lia. simpl. lia.
  - rewrite beam_of_hwhm_length by lia. simpl. lia.
Defined.

Lemma frequency_setup_covers_witness :
  IZR (math_ceil ((1 / 10 - 0) / freq_inc_default) - 1) * freq_inc_default < 1 / 10
  /\ 1 / 10 <= IZR (math_ceil ((1 / 10 - 0) / freq_inc_default)) * freq_inc_default
  /\ (0 < 1 / 10 -> (1 <= math_ceil ((1 / 10 - 0) / freq_inc_default))%Z).
Proof.
  apply (frequency_setup_covers (1 / 10) "" "" "").
  apply frequency_setup_defaults.
Defined.

Lemma mean_separation_span_witness :
  np_mean (np_diff [0; 1; 3])
  = (last [0; 1; 3] 0 - hd 0 [0; 1; 3]) / INR (length [0; 1; 3] - 1).
Proof.
  apply (mean_separation_span [0; 1; 3]). simpl; lia.
Defined.

Lemma max_frequency_even_sampling_witness :
  np_median (np_diff [0; 2; 4]) = 2 /\
  np_mean (np_diff [0; 2; 4]) = 2 /\
  max_frequency_default [0; 2; 4] = 1 / 2.
Proof.
  apply (max_frequency_even_sampling [0; 2; 4] 2).
  - simpl; lia.
  - lra.
  - intros i Hi. destruct i as [|[|i]]; simpl in *; try lra; lia.
Defined.

End Witnesses.
